(** * delay: delayed function registry, invocation codec and dispatch

    A shallow embedding of [delay.go]: the process-wide registry built by
    [Func], the validation and encoding done by [Function.Task], the decode
    and dispatch path [handleTask], and the streaming branch of
    [Listener.listenQueue].

    The packages the code imports are kept at their interface:
    - [reflect]: types, kinds and values are modelled concretely below;
      [Type.AssignableTo] and [Value.Call] are parameters;
    - [encoding/gob]: a codec, with what it keeps of an invocation it has
      encoded;
    - the queue stream: the messages sent and received. *)

From stdpp Require Import base option list strings pretty gmap.
From Stdlib Require Import ZArith Lia.

Open Scope string_scope.
Open Scope list_scope.
#[local] Set Warnings "-register-all".

(** ** The [reflect] package *)

Module reflect.

(** [reflect.Kind], in declaration order. *)
Inductive Kind : Set :=
| Invalid | Bool
| Int | Int8 | Int16 | Int32 | Int64
| Uint | Uint8 | Uint16 | Uint32 | Uint64 | Uintptr
| Float32 | Float64 | Complex64 | Complex128
| Array | Chan | Func | Interface | Map | Ptr | Slice
| String | Struct | UnsafePointer.

#[global] Instance Kind_eq_dec : EqDecision Kind.
Proof. solve_decision. Defined.

(** The predeclared, non composite types of Go. *)
Inductive basic : Set :=
| Tbool
| Tint | Tint8 | Tint16 | Tint32 | Tint64
| Tuint | Tuint8 | Tuint16 | Tuint32 | Tuint64 | Tuintptr
| Tfloat32 | Tfloat64 | Tcomplex64 | Tcomplex128
| Tstring | TunsafePointer.

#[global] Instance basic_eq_dec : EqDecision basic.
Proof. solve_decision. Defined.

Definition basic_Kind (b : basic) : Kind :=
  match b with
  | Tbool => Bool
  | Tint => Int | Tint8 => Int8 | Tint16 => Int16
  | Tint32 => Int32 | Tint64 => Int64
  | Tuint => Uint | Tuint8 => Uint8 | Tuint16 => Uint16
  | Tuint32 => Uint32 | Tuint64 => Uint64 | Tuintptr => Uintptr
  | Tfloat32 => Float32 | Tfloat64 => Float64
  | Tcomplex64 => Complex64 | Tcomplex128 => Complex128
  | Tstring => String
  | TunsafePointer => UnsafePointer
  end.

(** [reflect.Type]: a Go type.  A defined type carries its qualified name
    and its underlying type; an interface type its method names. *)
Inductive rtype : Type :=
| Basic (b : basic)
| Named (name : string) (underlying : rtype)
| ArrayOf (len : nat) (elem : rtype)
| ChanOf (elem : rtype)
| FuncOf (ins : list rtype) (variadic : bool) (outs : list rtype)
| InterfaceOf (methods : list string)
| MapOf (key elem : rtype)
| PtrTo (elem : rtype)
| SliceOf (elem : rtype)
| StructOf (fields : list rtype).

(** Induction principle that reaches below the lists of [FuncOf] and
    [StructOf]. *)
Section rtype_rect_nested.
Variable P : rtype -> Prop.
Hypothesis HBasic : forall b, P (Basic b).
Hypothesis HNamed : forall n u, P u -> P (Named n u).
Hypothesis HArray : forall n e, P e -> P (ArrayOf n e).
Hypothesis HChan : forall e, P e -> P (ChanOf e).
Hypothesis HFunc : forall ins v outs,
    Forall P ins -> Forall P outs -> P (FuncOf ins v outs).
Hypothesis HInterface : forall ms, P (InterfaceOf ms).
Hypothesis HMap : forall k e, P k -> P e -> P (MapOf k e).
Hypothesis HPtr : forall e, P e -> P (PtrTo e).
Hypothesis HSlice : forall e, P e -> P (SliceOf e).
Hypothesis HStruct : forall fs, Forall P fs -> P (StructOf fs).

Fixpoint rtype_ind_nested (t : rtype) : P t :=
  let fix all (l : list rtype) : Forall P l :=
    match l with
    | [] => @List.Forall_nil _ P
    | x :: l' => @List.Forall_cons _ P x l' (rtype_ind_nested x) (all l')
    end in
  match t with
  | Basic b => HBasic b
  | Named n u => HNamed n u (rtype_ind_nested u)
  | ArrayOf n e => HArray n e (rtype_ind_nested e)
  | ChanOf e => HChan e (rtype_ind_nested e)
  | FuncOf ins v outs => HFunc ins v outs (all ins) (all outs)
  | InterfaceOf ms => HInterface ms
  | MapOf k e => HMap k e (rtype_ind_nested k) (rtype_ind_nested e)
  | PtrTo e => HPtr e (rtype_ind_nested e)
  | SliceOf e => HSlice e (rtype_ind_nested e)
  | StructOf fs => HStruct fs (all fs)
  end.
End rtype_rect_nested.

(** Type identity, the [==] of two [reflect.Type]. *)
Fixpoint rtype_eqb (a b : rtype) {struct a} : bool :=
  let fix all2 (l1 l2 : list rtype) {struct l1} : bool :=
    match l1, l2 with
    | [], [] => true
    | x :: l1', y :: l2' => rtype_eqb x y && all2 l1' l2'
    | _, _ => false
    end in
  match a, b with
  | Basic x, Basic y => bool_decide (x = y)
  | Named n u, Named m v => bool_decide (n = m) && rtype_eqb u v
  | ArrayOf n e, ArrayOf m f => bool_decide (n = m) && rtype_eqb e f
  | ChanOf e, ChanOf f => rtype_eqb e f
  | FuncOf i1 v1 o1, FuncOf i2 v2 o2 =>
      all2 i1 i2 && bool_decide (v1 = v2) && all2 o1 o2
  | InterfaceOf m1, InterfaceOf m2 => bool_decide (m1 = m2)
  | MapOf k1 e1, MapOf k2 e2 => rtype_eqb k1 k2 && rtype_eqb e1 e2
  | PtrTo e, PtrTo f => rtype_eqb e f
  | SliceOf e, SliceOf f => rtype_eqb e f
  | StructOf f1, StructOf f2 => all2 f1 f2
  | _, _ => false
  end.

(** [Type.Kind]. *)
Fixpoint TKind (t : rtype) : Kind :=
  match t with
  | Basic b => basic_Kind b
  | Named _ u => TKind u
  | ArrayOf _ _ => Array
  | ChanOf _ => Chan
  | FuncOf _ _ _ => Func
  | InterfaceOf _ => Interface
  | MapOf _ _ => Map
  | PtrTo _ => Ptr
  | SliceOf _ => Slice
  | StructOf _ => Struct
  end.

(** The accessors below panic in Go when the kind does not fit or the
    index is out of range: that is [None] here. *)

(** [Type.NumIn]. *)
Fixpoint NumIn (t : rtype) : option nat :=
  match t with
  | Named _ u => NumIn u
  | FuncOf ins _ _ => Some (length ins)
  | _ => None
  end.

(** [Type.In]. *)
Fixpoint In (t : rtype) (i : nat) : option rtype :=
  match t with
  | Named _ u => In u i
  | FuncOf ins _ _ => ins !! i
  | _ => None
  end.

(** [Type.IsVariadic]. *)
Fixpoint IsVariadic (t : rtype) : option bool :=
  match t with
  | Named _ u => IsVariadic u
  | FuncOf _ v _ => Some v
  | _ => None
  end.

(** [Type.NumOut]. *)
Fixpoint NumOut (t : rtype) : option nat :=
  match t with
  | Named _ u => NumOut u
  | FuncOf _ _ outs => Some (length outs)
  | _ => None
  end.

(** [Type.Out]. *)
Fixpoint Out (t : rtype) (i : nat) : option rtype :=
  match t with
  | Named _ u => Out u i
  | FuncOf _ _ outs => outs !! i
  | _ => None
  end.

(** [Type.Elem]. *)
Fixpoint Elem (t : rtype) : option rtype :=
  match t with
  | Named _ u => Elem u
  | ArrayOf _ e | ChanOf e | MapOf _ e | PtrTo e | SliceOf e => Some e
  | _ => None
  end.

(** What a value holds.  [DNil] is the nil chan, func, interface, map,
    pointer or slice. *)
Inductive data : Type :=
| DNil
| DBool (b : bool)
| DNum (z : Z)
| DStr (s : string)
| DRef (addr : N)
| DSeq (elems : list data).

(** A valid [reflect.Value]: a type and what is stored at that type. *)
Record Value : Type := mkValue { Type_ : rtype; Data : data }.

(** An [interface{}]: [None] is the nil interface, [Some v] boxes a value
    with its dynamic type. *)
Abbreviation iface := (option Value) (only parsing).

(** [reflect.TypeOf]: nil for the nil interface. *)
Definition TypeOf (i : iface) : option rtype := Type_ <$> i.

(** [reflect.ValueOf]: the zero (invalid) Value for the nil interface. *)
Definition ValueOf (i : iface) : option Value := i.

(** [Value.IsNil], called only on the nilable kinds. *)
Definition IsNil (v : Value) : bool :=
  match Data v with DNil => true | _ => false end.

(** [reflect.Zero]. *)
Fixpoint zero_data (t : rtype) : data :=
  match t with
  | Basic Tbool => DBool false
  | Basic Tstring => DStr ""
  | Basic TunsafePointer => DNil
  | Basic _ => DNum 0
  | Named _ u => zero_data u
  | ArrayOf n e => DSeq (replicate n (zero_data e))
  | StructOf fs => DSeq (map zero_data fs)
  | ChanOf _ | FuncOf _ _ _ | InterfaceOf _ | MapOf _ _
  | PtrTo _ | SliceOf _ => DNil
  end.

Definition Zero (t : rtype) : Value := mkValue t (zero_data t).

(** [Value.Interface]: a value of interface type that is nil gives the
    nil interface. *)
Definition Interface_ (v : Value) : iface :=
  match TKind (Type_ v), Data v with
  | Interface, DNil => None
  | _, _ => Some v
  end.

End reflect.

(** ** The messages of the queues service (package [pb]) *)

Module pb.

(** [pb.SendTask], producer to queue. *)
Record SendTask (bytes : Type) : Type := mkSendTask {
  SendTask_Payload : bytes;
  SendTask_MinEta : option Z;
}.
Arguments mkSendTask {bytes} _ _.
Arguments SendTask_Payload {bytes} _.
Arguments SendTask_MinEta {bytes} _.

(** [pb.Task], queue to consumer. *)
Record Task (bytes : Type) : Type := mkTask {
  Code : string;
  Payload : bytes;
  Created : option Z;
  Retry : Z;
  Project : string;
  QueueName : string;
  MinEta : option Z;
}.
Arguments mkTask {bytes} _ _ _ _ _ _ _.
Arguments Code {bytes} _.
Arguments Payload {bytes} _.
Arguments Created {bytes} _.
Arguments Retry {bytes} _.
Arguments Project {bytes} _.
Arguments QueueName {bytes} _.
Arguments MinEta {bytes} _.

(** [pb.Ack]. *)
Record Ack : Type := mkAck { Ack_Code : string; Success : bool }.

(** [pb.ListenInitial]. *)
Record ListenInitial : Type := mkListenInitial {
  Initial_Project : string;
  Initial_QueueName : string;
}.

(** [pb.ListenRequest], a oneof. *)
Inductive ListenRequest : Type :=
| ListenRequest_Initial (initial : ListenInitial)
| ListenRequest_Ack (ack : Ack).

(** [pb.SendTasksRequest]. *)
Record SendTasksRequest (bytes : Type) : Type := mkSendTasksRequest {
  Request_Project : string;
  Request_QueueName : string;
  Tasks : list (SendTask bytes);
}.
Arguments mkSendTasksRequest {bytes} _ _ _.
Arguments Request_Project {bytes} _.
Arguments Request_QueueName {bytes} _.
Arguments Tasks {bytes} _.

End pb.

(** ** Package [context] *)

Module context.

(** The interface type [context.Context]. *)
Definition Context : reflect.rtype :=
  reflect.Named "context.Context"
    (reflect.InterfaceOf ["Deadline"; "Done"; "Err"; "Value"]).

(** The dynamic type of a context made by [WithTimeout]. *)
Definition timerCtx : reflect.rtype :=
  reflect.PtrTo (reflect.Named "context.timerCtx" (reflect.StructOf [])).

(** [context.WithTimeout]: the derived context keeps its parent and the
    timeout, in nanoseconds. *)
Definition WithTimeout (parent : reflect.Value) (timeout : Z) : reflect.Value :=
  reflect.mkValue timerCtx
    (reflect.DSeq [reflect.Data parent; reflect.DNum timeout]).

End context.

(** ** Package [delay] *)

(** The errors the package builds, one constructor for each [fmt.Errorf]
    site, with the values formatted into the message. *)
Inductive error : Type :=
| ErrNotAFunction
    (* "delay: not a function" *)
| ErrFirstArgument
    (* "delay: first argument must be context.Context" *)
| ErrMultipleFunctions (k file : string)
    (* "delay: multiple functions registered for %s in %s" *)
| ErrTooFewArguments (nArgs minArgs : nat)
    (* "delay: too few arguments to func: %d < %d" *)
| ErrTooManyArguments (nArgs minArgs : nat)
    (* "delay: too many arguments to func: %d > %d" *)
| ErrNotNilable (i : nat) (dt : reflect.rtype)
    (* "delay: argument %d has wrong type: %v is not nilable" *)
| ErrNotAssignable (i : nat) (at_ dt : reflect.rtype)
    (* "delay: argument %d has wrong type: %v is not assignable to %v" *)
| ErrGobEncode
    (* the error of gob's Encode, returned as it is *)
| ErrCannotDecode
    (* "delay: cannot decode call: %v" *)
| ErrNoFunc (k : string)
    (* "delay: no func with key %q found" *)
| ErrHandlerFailed (e : reflect.Value)
    (* "delay: handler failed: %v" *)
| ErrCannotSendTasks
    (* "delay: cannot send tasks: %v" *)
| ErrCannotAck
    (* "delay: cannot ack task: %v" *)
| ErrCannotReceive
    (* "delay: cannot receive tasks: %v" *).

(** What a call gives: a value, an [error], or a run time panic. *)
Inductive result (A : Type) : Type :=
| Ok (a : A)
| Err (e : error)
| Panic.
Arguments Ok {A} _.
Arguments Err {A} _.
Arguments Panic {A}.

(** The precomputed type of [context.Context]. *)
Definition contextType : reflect.rtype := context.Context.

(** The precomputed type of the predeclared interface [error]. *)
Definition errorType : reflect.rtype :=
  reflect.Named "error" (reflect.InterfaceOf ["Error"]).

(** [Function]: a stored task implementation.  [fv] is a [reflect.Value],
    [None] being the zero Value that [reflect.ValueOf(nil)] returns. *)
Record Function : Type := mkFunction {
  fv : option reflect.Value;
  key : string;
  err : option error;
}.

(** [invocation], the value that travels gob encoded. *)
Record invocation : Type := mkInvocation {
  Key : string;
  Args : list reflect.iface;
}.

(** The part of [encoding/gob] the package uses.  The codec depends on
    the types registered with [gob.Register].  A value boxed in an
    interface does not always come back as it went (a slice of length 0
    comes back nil, a pointer comes back as a new one): [transmits v w]
    says that [v] may be decoded as [w].  Nor is every payload that gob
    has encoded decoded again (a [GobDecoder] of the program may fail).
    When the process decodes an invocation it has encoded, what gob keeps
    is the key, the number of arguments, and which of them are the nil
    interface. *)
Class Gob : Type := {
  bytes : Type;
  Encode : list reflect.rtype -> invocation -> option bytes;
  Decode : list reflect.rtype -> bytes -> option invocation;
  transmits : reflect.Value -> reflect.Value -> Prop;
  Decode_Encode : forall reg inv b inv',
      Encode reg inv = Some b -> Decode reg b = Some inv' ->
      Key inv' = Key inv /\
      Forall2 (option_Forall2 transmits) (Args inv) (Args inv');
}.

(** What the package asks of [reflect] beyond the types above. *)
Class Runtime : Type := {
  (** [Type.AssignableTo] *)
  AssignableTo : reflect.rtype -> reflect.rtype -> bool;
  (** [Value.Call]: the values the function returns, [None] when the call
      panics. *)
  Value_Call : reflect.Value -> list reflect.Value -> option (list reflect.Value);
}.

(** The process: the [Function] objects allocated so far, addressed by
    their index (a [*Function]), the registry [funcs], and the types known
    to gob. *)
Record State : Type := mkState {
  heap : list Function;
  funcs : gmap string nat;
  gobTypes : list reflect.rtype;
}.

(** The process before any registration. *)
Definition init : State := mkState [] ∅ [].

(** The kinds both switches of [Task] list: chan, func, interface, map,
    pointer, slice. *)
Definition nilableKind (k : reflect.Kind) : bool :=
  match k with
  | reflect.Chan | reflect.Func | reflect.Interface
  | reflect.Map | reflect.Ptr | reflect.Slice => true
  | _ => false
  end.

(** [gob.Register(value)]: records the dynamic type of [value]; it panics
    on the nil interface.  gob also panics when the name it derives for
    the type is held by another type, or the type by another name; names
    are not modelled, so such a call returns here.  Every call that
    returns in the program returns here, with the same types recorded. *)
Definition gob_Register (value : reflect.iface) (reg : list reflect.rtype)
  : option (list reflect.rtype) :=
  t ← reflect.TypeOf value;
  Some (if existsb (reflect.rtype_eqb t) reg then reg else reg ++ [t]).

(** The registration loop of [Func], lines 63 to 71: [todo] iterations from
    index [i]. *)
Fixpoint registerArgs (t : reflect.rtype) (todo i : nat) (reg : list reflect.rtype)
  : option (list reflect.rtype) :=
  match todo with
  | 0 => Some reg
  | S todo' =>
      ti ← reflect.In t i;
      if bool_decide (reflect.TKind ti = reflect.Interface)
      then registerArgs t todo' (S i) reg
      else
        reg' ← gob_Register (reflect.Interface_ (reflect.Zero ti)) reg;
        registerArgs t todo' (S i) reg'
  end.

(** [&Function{...}]: the new object gets the next address. *)
Definition alloc (f : Function) (st : State) : nat * State :=
  (length (heap st), mkState (heap st ++ [f]) (funcs st) (gobTypes st)).

(** [old.err = e] *)
Definition set_err (e : error) (f : Function) : Function :=
  mkFunction (fv f) (key f) (Some e).

(** [Func] builds and registers a new task implementation.  [file] is what
    [runtime.Caller(1)] reports.  [None] is a panic. *)
Definition Func (k file : string) (i : reflect.iface) (st : State)
  : option (nat * State) :=
  let fv0 := reflect.ValueOf i in
  let key0 := (file ++ ":" ++ k)%string in
  v ← fv0;
  let t := reflect.Type_ v in
  if negb (bool_decide (reflect.TKind t = reflect.Func)) then
    Some (alloc (mkFunction fv0 key0 (Some ErrNotAFunction)) st)
  else
    n ← reflect.NumIn t;
    let bad := mkFunction fv0 key0 (Some ErrFirstArgument) in
    if bool_decide (n = 0) then Some (alloc bad st)
    else
      t0 ← reflect.In t 0;
      if negb (reflect.rtype_eqb t0 contextType) then Some (alloc bad st)
      else
        reg ← registerArgs t n 0 (gobTypes st);
        let '(p, st1) := alloc (mkFunction fv0 key0 None) st in
        let heap2 :=
          match funcs st !! key0 with
          | Some old => alter (set_err (ErrMultipleFunctions k file)) old (heap st1)
          | None => heap st1
          end in
        Some (p, mkState heap2 (<[key0 := p]> (funcs st)) reg).

(** [Conn] and [QueueSpec] of [conn.go], without the gRPC handle. *)
Record Conn : Type := mkConn { project : string }.
Record QueueSpec : Type := mkQueueSpec { conn : Conn; name : string }.

(** The call a dispatch makes: [f.fv.Call(in)]. *)
Record CallEvent : Type := mkCallEvent {
  callee : reflect.Value;
  call_in : list reflect.Value;
}.

Section Delay.

Context {gob : Gob} {rt : Runtime}.

(** The remote [QueuesServiceClient.SendTasks]: whether the request went
    through. *)
Variable client_SendTasks : pb.SendTasksRequest bytes -> bool.

(** The loop of [Task] that checks the argument types, lines 108 to 143:
    [todo] iterations from index [i].  [args] is the caller's slice,
    written in place; the loop returns it with the outcome. *)
Fixpoint checkArgs (ft : reflect.rtype) (minArgs : nat) (todo i : nat)
    (args : list reflect.iface) : list reflect.iface * result unit :=
  match todo with
  | 0 => (args, Ok ())
  | S todo' =>
      match args !! (i - 1) with
      | None => (args, Panic)
      | Some a =>
          let at_ := reflect.TypeOf a in
          let dt :=
            if bool_decide (i < minArgs)
            then reflect.In ft i                          (* not a variadic arg *)
            else reflect.In ft minArgs ≫= reflect.Elem   (* a variadic arg *)
          in
          match dt with
          | None => (args, Panic)
          | Some dt =>
              match at_, reflect.ValueOf a with
              | Some at_, Some av =>
                  let args' :=
                    if nilableKind (reflect.TKind at_) && reflect.IsNil av
                    then <[i - 1 := None]> args
                    else args in
                  if negb (AssignableTo at_ dt)
                  then (args', Err (ErrNotAssignable i at_ dt))
                  else checkArgs ft minArgs todo' (S i) args'
              | _, _ =>
                  (* nil interface *)
                  if nilableKind (reflect.TKind dt)
                  then checkArgs ft minArgs todo' (S i) args   (* may be nil *)
                  else (args, Err (ErrNotNilable i dt))
              end
          end
      end
  end.

(** [Function.Task] builds a task invocation to the function [p] points
    to.  It returns the argument slice as the call leaves it, and the
    task, the error or the panic. *)
Definition Task (p : nat) (args : list reflect.iface) (st : State)
  : list reflect.iface * result (pb.SendTask bytes) :=
  match heap st !! p with
  | None => (args, Panic)
  | Some f =>
      match err f with
      | Some e => (args, Err e)
      | None =>
          let nArgs := length args + 1 in   (* +1 for the context.Context *)
          match fv f with
          | None => (args, Panic)
          | Some v =>
              let ft := reflect.Type_ v in
              match reflect.NumIn ft, reflect.IsVariadic ft with
              | Some numIn, Some variadic =>
                  let minArgs := if variadic then numIn - 1 else numIn in   (* minArgs-- *)
                  if bool_decide (nArgs < minArgs) then
                    (args, Err (ErrTooFewArguments nArgs minArgs))
                  else if negb variadic && bool_decide (minArgs < nArgs) then
                    (args, Err (ErrTooManyArguments nArgs minArgs))
                  else
                    match checkArgs ft minArgs (nArgs - 1) 1 args with
                    | (args', Ok _) =>
                        let inv := mkInvocation (key f) args' in
                        match Encode (gobTypes st) inv with
                        | None => (args', Err ErrGobEncode)
                        | Some buf => (args', Ok (pb.mkSendTask buf None))
                        end
                    | (args', Err e) => (args', Err e)
                    | (args', Panic) => (args', Panic)
                    end
              | _, _ => (args, Panic)
              end
          end
      end
  end.

(** [QueueSpec.SendTasks] of [conn.go]: the requests sent, and the error
    if any. *)
Definition SendTasks (queue : QueueSpec) (tasks : list (pb.SendTask bytes))
  : list (pb.SendTasksRequest bytes) * option error :=
  let req := pb.mkSendTasksRequest (project (conn queue)) (name queue) tasks in
  ([req], if client_SendTasks req then None else Some ErrCannotSendTasks).

(** [Function.Call] builds a task invocation and sends it alone to the
    queue.  It returns the argument slice, the requests sent, and what
    the call gives. *)
Definition Call (p : nat) (queue : QueueSpec) (args : list reflect.iface)
    (st : State)
  : list reflect.iface * list (pb.SendTasksRequest bytes) * result unit :=
  match Task p args st with
  | (args', Ok task) =>
      let '(sent, e) := SendTasks queue [task] in
      (args', sent, match e with Some e => Err e | None => Ok () end)
  | (args', Err e) => (args', [], Err e)
  | (args', Panic) => (args', [], Panic)
  end.

(** The loop of [handleTask] that builds the argument vector, lines 349
    to 366. *)
Fixpoint buildIn (ft : reflect.rtype) (args : list reflect.iface)
    (in_ : list reflect.Value) : option (list reflect.Value) :=
  match args with
  | [] => Some in_
  | arg :: rest =>
      v ← match reflect.ValueOf arg with
          | Some v => Some v
          | None =>
              (* Task was passed a nil argument: the zero value for it. *)
              let n := length in_ in   (* we're constructing the nth argument *)
              variadic ← reflect.IsVariadic ft;
              numIn ← reflect.NumIn ft;
              at_ ← (if negb variadic || bool_decide (n < numIn - 1)
                     then reflect.In ft n
                     else reflect.In ft (numIn - 1) ≫= reflect.Elem);
              Some (reflect.Zero at_)
          end;
      buildIn ft rest (in_ ++ [v])
  end.

(** The timeout of a dispatch, [30*time.Second] in nanoseconds. *)
Definition dispatchTimeout : Z := 30 * 1000000000.

(** [handleTask] decodes the task and runs its function.  It returns the
    handler calls made and what the dispatch gives. *)
Definition handleTask (ctx : reflect.Value) (task : pb.Task bytes) (st : State)
  : list CallEvent * result unit :=
  let ctx := context.WithTimeout ctx dispatchTimeout in
  match Decode (gobTypes st) (pb.Payload task) with
  | None => ([], Err ErrCannotDecode)
  | Some inv =>
      match funcs st !! Key inv with
      | None => ([], Err (ErrNoFunc (Key inv)))
      | Some p =>
          match heap st !! p ≫= fv with
          | None => ([], Panic)
          | Some fv0 =>
              let ft := reflect.Type_ fv0 in
              match buildIn ft (Args inv) [ctx] with
              | None => ([], Panic)
              | Some in_ =>
                  let ev := mkCallEvent fv0 in_ in
                  match Value_Call fv0 in_ with
                  | None => ([ev], Panic)
                  | Some out =>
                      match reflect.NumOut ft with
                      | None => ([ev], Panic)
                      | Some n =>
                          if bool_decide (0 < n) &&
                             from_option (fun t => reflect.rtype_eqb t errorType)
                               false (reflect.Out ft (n - 1))
                          then
                            match out !! (n - 1) with
                            | None => ([ev], Panic)
                            | Some errv =>
                                if negb (reflect.IsNil errv)
                                then ([ev], Err (ErrHandlerFailed errv))
                                else ([ev], Ok ())
                            end
                          else ([ev], Ok ())
                      end
                  end
              end
          end
      end
  end.

End Delay.

(** ** The streaming branch of [Listener.listenQueue]

    The branch starts one goroutine that receives, and one goroutine for
    each task received, all in one [errgroup].  The goroutines share the
    stream and nothing else, so the branch is a transition system: a step
    is one [stream.Recv] of the receiving loop, or the whole body of one
    task goroutine, in any order. *)

(** [Listener]: whether a sentry client is configured. *)
Record Listener : Type := mkListener { sentryClient : bool }.

Section Listen.

Context {gob : Gob} {rt : Runtime}.

(** The listener, the queue, the registry at dispatch time, and the
    context of the group. *)
Variable lis : Listener.
Variable queue : QueueSpec.
Variable st : State.
Variable ctx : reflect.Value.

(** [stream.Send]: whether the message went through. *)
Variable stream_Send : pb.ListenRequest -> bool.

(** The connection while it is listened to. *)
Record Stream : Type := mkStream {
  (** what [stream.Recv] will return, call after call: a task, or
      [None] for an error *)
  inbox : list (option (pb.Task bytes));
  (** the receiving loop has not returned *)
  receiving : bool;
  (** the tasks whose goroutine is started and has not run *)
  running : list (pb.Task bytes);
  (** the messages given to [stream.Send], latest last *)
  sent : list pb.ListenRequest;
  (** the handler calls made, goroutine after goroutine as they end *)
  calls : list CallEvent;
  (** the errors given to sentry, in the same order *)
  reported : list error;
  (** the first error a goroutine of the group returned *)
  failure : option error;
  (** a goroutine panicked: the process is gone *)
  crashed : bool;
}.

(** The message that opens the stream, lines 264 to 271. *)
Definition initial : pb.ListenRequest :=
  pb.ListenRequest_Initial
    (pb.mkListenInitial (project (conn queue)) (name queue)).

(** The stream once the initial message is sent and the receiving loop
    is started. *)
Definition listening (script : list (option (pb.Task bytes))) : Stream :=
  mkStream script true [] [initial] [] [] None false.

(** [errgroup] keeps the first error. *)
Definition first_error (old : option error) (e : error) : option error :=
  match old with Some e0 => Some e0 | None => Some e end.

(** The acknowledgement a task goroutine builds, lines 307 to 314. *)
Definition ack (task : pb.Task bytes) (failed : bool) : pb.ListenRequest :=
  pb.ListenRequest_Ack (pb.mkAck (pb.Code task) (negb failed)).

(** The body of a task goroutine, lines 283 to 320, run on the stream
    [s] from which the task is already taken. *)
Definition runTask (task : pb.Task bytes) (s : Stream) : Stream :=
  match handleTask ctx task st with
  | (evs, Panic) =>
      mkStream (inbox s) (receiving s) (running s) (sent s)
        (calls s ++ evs) (reported s) (failure s) true
  | (evs, r) =>
      let failed := match r with Err _ => true | _ => false end in
      let reports :=
        match r with
        | Err e => if sentryClient lis then [e] else []
        | _ => []
        end in
      let req := ack task failed in
      mkStream (inbox s) (receiving s) (running s) (sent s ++ [req])
        (calls s ++ evs) (reported s ++ reports)
        (if stream_Send req then failure s
         else first_error (failure s) ErrCannotAck)
        (crashed s)
  end.

(** One step of the branch. *)
Inductive step : Stream -> Stream -> Prop :=
| step_recv task rest s :
    crashed s = false -> receiving s = true ->
    inbox s = Some task :: rest ->
    step s (mkStream rest true (running s ++ [task]) (sent s) (calls s)
              (reported s) (failure s) false)
| step_recv_error rest s :
    crashed s = false -> receiving s = true ->
    inbox s = None :: rest ->
    step s (mkStream rest false (running s) (sent s) (calls s)
              (reported s) (first_error (failure s) ErrCannotReceive) false)
| step_task before task after s :
    crashed s = false ->
    running s = before ++ task :: after ->
    step s (runTask task
              (mkStream (inbox s) (receiving s) (before ++ after) (sent s)
                 (calls s) (reported s) (failure s) false)).

(** Any number of steps. *)
Inductive steps : Stream -> Stream -> Prop :=
| steps_refl s : steps s s
| steps_step s1 s2 s3 : steps s1 s2 -> step s2 s3 -> steps s1 s3.

(** The tasks [stream.Recv] has returned: those of the script that are
    no longer in the inbox. *)
Definition received (script : list (option (pb.Task bytes))) (s : Stream)
  : list (pb.Task bytes) :=
  omap id (take (length script - length (inbox s)) script).

(** The acknowledgements among the messages sent. *)
Definition acks (l : list pb.ListenRequest) : list pb.Ack :=
  omap (fun m => match m with pb.ListenRequest_Ack a => Some a | _ => None end) l.

(** The dispatch of the task returned no error. *)
Definition succeeded (task : pb.Task bytes) : bool :=
  match (handleTask ctx task st).2 with
  | Ok _ => true
  | _ => false
  end.

(** The dispatch of the task returned, with an error or without. *)
Definition returned (task : pb.Task bytes) : Prop :=
  (handleTask ctx task st).2 <> Panic.

(** The acknowledgement owed to a task: its code, and whether its dispatch
    returned no error. *)
Definition ackOf (task : pb.Task bytes) : pb.Ack :=
  pb.mkAck (pb.Code task) (succeeded task).

(** What holds of the stream all along: the script is what was received
    followed by the inbox; the tasks received are the ones done and the
    ones running; and the messages sent are the initial one and then the
    acknowledgement of each task done, in the order they ended. *)
Definition stream_inv (script : list (option (pb.Task bytes))) (s : Stream)
    (pre : list (option (pb.Task bytes))) (done_ : list (pb.Task bytes)) : Prop :=
  script = pre ++ inbox s /\
  omap id pre ≡ₚ done_ ++ running s /\
  sent s = initial :: map (fun t => pb.ListenRequest_Ack (ackOf t)) done_ /\
  Forall returned done_.

End Listen.


(** [Queue] of [conn.go]. *)
Definition Queue (c : Conn) (queueName : string) : QueueSpec :=
  mkQueueSpec c queueName.

(** ** The publish/subscribe branch of [Listener.listenQueue]

    One goroutine reads the messages of the channel in order; each
    message is a buffer of length delimited [pb.SendTask], decoded and
    dispatched one after the other, lines 212 to 257. *)

(** How the buffer of a message ends: [io.EOF], or any other error of
    [DecodeMessage]. *)
Inductive ending : Set := AtEOF | DecodeFails.

(** What the goroutine gives: [nil] when the channel is closed, the
    cannot decode incoming task error, or a panic of a dispatch. *)
Inductive subResult : Set := SubClosed | SubCannotDecode | SubPanic.

(** An [int64] after an addition. *)
Definition wrap64 (z : Z) : Z :=
  ((z + 2 ^ 63) mod 2 ^ 64 - 2 ^ 63)%Z.

Section Subscribe.

Context {gob : Gob} {rt : Runtime}.

Variable queue : QueueSpec.
Variable st : State.
Variable ctx : reflect.Value.

(** [datetime.SerializeTimestamp(time.Now())] when the task of counter
    [i] is built. *)
Variable now : Z -> option Z.

(** A message of the channel: the [pb.SendTask] that [DecodeMessage]
    returns call after call, and how the buffer ends. *)
Record Message : Type := mkMessage {
  frames : list (pb.SendTask bytes);
  msg_end : ending;
}.

(** The goroutine as it goes: the counter [i], the tasks built, the
    handler calls made, and the "Task handler failed" lines logged, each
    with the code of its task. *)
Record Sub : Type := mkSub {
  counter : Z;
  built : list (pb.Task bytes);
  sub_calls : list CallEvent;
  sub_failed : list (string * error);
}.

(** The goroutine when it starts: [var i int64]. *)
Definition subscribed : Sub := mkSub 0 [] [] [].

(** The task built for a decoded [pb.SendTask], lines 228 to 236;
    [QueueName] is left empty. *)
Definition simTask (i : Z) (sendTask : pb.SendTask bytes) : pb.Task bytes :=
  pb.mkTask ("sim-" +:+ pretty i) (pb.SendTask_Payload sendTask) (now i) 0
    (project (conn queue)) "" (pb.SendTask_MinEta sendTask).

(** One turn of the inner loop after a successful [DecodeMessage], lines
    228 to 252. *)
Definition dispatchFrame (sendTask : pb.SendTask bytes) (s : Sub)
  : Sub * bool :=
  let i := wrap64 (counter s + 1) in   (* i++ *)
  let task := simTask i sendTask in
  match handleTask ctx task st with
  | (evs, Panic) =>
      (mkSub i (built s ++ [task]) (sub_calls s ++ evs) (sub_failed s), false)
  | (evs, Err e) =>
      (mkSub i (built s ++ [task]) (sub_calls s ++ evs)
         (sub_failed s ++ [(pb.Code task, e)]), true)
  | (evs, Ok _) =>
      (mkSub i (built s ++ [task]) (sub_calls s ++ evs) (sub_failed s), true)
  end.

(** The inner loop on the buffer of one message, lines 218 to 253. *)
Fixpoint readMessage (fs : list (pb.SendTask bytes)) (e : ending) (s : Sub)
  : Sub * subResult :=
  match fs with
  | [] =>
      match e with
      | AtEOF => (s, SubClosed)            (* break *)
      | DecodeFails => (s, SubCannotDecode)
      end
  | f :: fs' =>
      match dispatchFrame f s with
      | (s', true) => readMessage fs' e s'
      | (s', false) => (s', SubPanic)
      end
  end.

(** The loop over the channel, lines 216 to 256. *)
Fixpoint readChannel (msgs : list Message) (s : Sub) : Sub * subResult :=
  match msgs with
  | [] => (s, SubClosed)
  | m :: msgs' =>
      match readMessage (frames m) (msg_end m) s with
      | (s', SubClosed) => readChannel msgs' s'
      | (s', r) => (s', r)
      end
  end.

(** The [pb.SendTask] in reach of the loop: those of the messages up to
    the first buffer that ends on an error, that one included. *)
Fixpoint inReach (msgs : list Message) : list (pb.SendTask bytes) :=
  match msgs with
  | [] => []
  | m :: msgs' =>
      frames m ++ match msg_end m with
                  | AtEOF => inReach msgs'
                  | DecodeFails => []
                  end
  end.

(** Some buffer ends on an error. *)
Definition someDecodeFails (msgs : list Message) : bool :=
  existsb (fun m => match msg_end m with DecodeFails => true | AtEOF => false end)
    msgs.

(** The counter after [n] more turns of the inner loop. *)
Definition counterAfter (n : nat) (c : Z) : Z :=
  Nat.iter n (fun c => wrap64 (c + 1)) c.

(** The tasks built, in order, for the [pb.SendTask] [fs] when the
    counter is [c] before the first of them. *)
Fixpoint builtFrom (c : Z) (fs : list (pb.SendTask bytes)) : list (pb.Task bytes) :=
  match fs with
  | [] => []
  | f :: fs' => simTask (wrap64 (c + 1)) f :: builtFrom (wrap64 (c + 1)) fs'
  end.

End Subscribe.


(** The dispatches of [done_] that returned an error, in order, each as
    the code of its task and the error. *)
Definition failedOf {gob : Gob} {rt : Runtime} (st : State) (ctx : reflect.Value)
    (done_ : list (pb.Task bytes)) : list (string * error) :=
  omap (fun t => match (handleTask ctx t st).2 with
                 | Err e => Some (pb.Code t, e)
                 | _ => None
                 end) done_.

(** The handler calls of the dispatches of [done_], in order. *)
Definition callsOf {gob : Gob} {rt : Runtime} (st : State) (ctx : reflect.Value)
    (done_ : list (pb.Task bytes)) : list CallEvent :=
  concat (map (fun t => (handleTask ctx t st).1) done_).

(** ** Properties stated below: the notions they use *)

(** The states the process goes through: registrations from [init]. *)
Inductive reachable : State -> Prop :=
| reachable_init : reachable init
| reachable_Func k file i st p st' :
    reachable st -> Func k file i st = Some (p, st') -> reachable st'.

(** Later states of the same process. *)
Inductive later (st0 : State) : State -> Prop :=
| later_refl : later st0 st0
| later_Func k file i st p st' :
    later st0 st -> Func k file i st = Some (p, st') -> later st0 st'.

(** The key [Func] derives from the short name and the calling file. *)
Definition derivedKey (k file : string) : string := (file ++ ":" ++ k)%string.

(** The error [Func] stores for a value of type [t], if any. *)
Definition shapeError (t : reflect.rtype) : option error :=
  if bool_decide (reflect.TKind t = reflect.Func) then
    match reflect.In t 0 with
    | Some t0 => if reflect.rtype_eqb t0 contextType then None
                 else Some ErrFirstArgument
    | None => Some ErrFirstArgument
    end
  else Some ErrNotAFunction.

(** The heap after a registration under [k0] at address [p]: the entry
    that held the key is marked. *)
Definition markOld (e : error) (old : option nat) (h : list Function)
  : list Function :=
  match old with
  | Some q => alter (set_err e) q h
  | None => h
  end.

(** The shape [Func] requires: a function whose first parameter is
    [context.Context]. *)
Definition handlerShape (i : reflect.iface) : Prop :=
  exists v, i = Some v /\
    reflect.TKind (reflect.Type_ v) = reflect.Func /\
    reflect.In (reflect.Type_ v) 0 = Some contextType.

(** The invariant of the registry: an entry of [funcs] points to a
    [Function] of that key, without error and of the required shape; and a
    [Function] without error is the entry of its key. *)
Record wf (st : State) : Prop := mk_wf {
  wf_funcs : forall k p, funcs st !! k = Some p ->
    exists v, heap st !! p = Some (mkFunction (Some v) k None) /\
              handlerShape (Some v);
  wf_live : forall p f, heap st !! p = Some f -> err f = None ->
    funcs st !! key f = Some p;
}.

(** The declared type an argument at parameter index [i] is checked
    against: parameter [i] in the fixed prefix, the element type of the
    last parameter in the variadic tail. *)
Definition declaredType (ft : reflect.rtype) (i : nat) : option reflect.rtype :=
  match reflect.NumIn ft, reflect.IsVariadic ft with
  | Some numIn, Some true =>
      if bool_decide (i < numIn - 1) then reflect.In ft i
      else reflect.In ft (numIn - 1) ≫= reflect.Elem
  | Some _, Some false => reflect.In ft i
  | _, _ => None
  end.

(** A nil chan, func, map, pointer or slice boxed in a non-nil interface. *)
Definition typedNil (a : reflect.iface) : bool :=
  match a with
  | Some v => nilableKind (reflect.TKind (reflect.Type_ v)) && reflect.IsNil v
  | None => false
  end.

(** The argument as it is serialized: a typed nil becomes the nil
    interface. *)
Definition normalize (a : reflect.iface) : reflect.iface :=
  if typedNil a then None else a.

(** An argument passes the check against the declared type [dt]. *)
Definition admissible {rt : Runtime} (dt : reflect.rtype) (a : reflect.iface) : bool :=
  match a with
  | None => nilableKind (reflect.TKind dt)
  | Some v => AssignableTo (reflect.Type_ v) dt
  end.

(** The type checks of [Task] as a recursion over the arguments that
    remain, [i] being the parameter index of the first of them.  It returns
    these arguments as the checks leave them. *)
Fixpoint checkEach {rt : Runtime} (ft : reflect.rtype) (i : nat)
    (rest : list reflect.iface) : list reflect.iface * result unit :=
  match rest with
  | [] => ([], Ok ())
  | a :: rest' =>
      match declaredType ft i with
      | None => (a :: rest', Panic)
      | Some dt =>
          match a with
          | Some v =>
              if AssignableTo (reflect.Type_ v) dt then
                let '(out, r) := checkEach ft (S i) rest' in
                (normalize a :: out, r)
              else
                (normalize a :: rest', Err (ErrNotAssignable i (reflect.Type_ v) dt))
          | None =>
              if nilableKind (reflect.TKind dt) then
                let '(out, r) := checkEach ft (S i) rest' in
                (None :: out, r)
              else (None :: rest', Err (ErrNotNilable i dt))
          end
      end
  end.

(** [minArgs] as [Task] computes it. *)
Definition minArgsOf (numIn : nat) (variadic : bool) : nat :=
  if variadic then numIn - 1 else numIn.

(** Every argument of [rest], the first one at parameter index [i], has
    a declared type and passes the check against it. *)
Definition admissibleFrom {rt : Runtime} (ft : reflect.rtype) (i : nat)
    (rest : list reflect.iface) : Prop :=
  forall j a, rest !! j = Some a ->
    exists dt, declaredType ft (i + j) = Some dt /\ admissible dt a = true.

(** The last parameter of a variadic function has an element type: it is
    a slice. *)
Definition sliceTail (ft : reflect.rtype) : bool :=
  match reflect.NumIn ft, reflect.IsVariadic ft with
  | Some numIn, Some true =>
      match reflect.In ft (numIn - 1) ≫= reflect.Elem with
      | Some _ => true
      | None => false
      end
  | _, _ => true
  end.

(** The arity check of [Task] passes for [n] arguments. *)
Definition arityOk (numIn : nat) (variadic : bool) (n : nat) : bool :=
  negb (bool_decide (n + 1 < minArgsOf numIn variadic)) &&
  negb (negb variadic && bool_decide (minArgsOf numIn variadic < n + 1)).

(** The value [handleTask] passes for a decoded argument at parameter
    index [n]: the argument itself, or the zero value of the declared type
    when it is nil. *)
Definition argValue (ft : reflect.rtype) (n : nat) (arg : reflect.iface)
  : option reflect.Value :=
  match arg with
  | Some v => Some v
  | None => reflect.Zero <$> declaredType ft n
  end.

(** The argument vector after the context, as a recursion over the decoded
    arguments; [None] when a nil argument has no declared type. *)
Fixpoint inFrom (ft : reflect.rtype) (n : nat) (args : list reflect.iface)
  : option (list reflect.Value) :=
  match args with
  | [] => Some []
  | a :: rest =>
      v ← argValue ft n a;
      vs ← inFrom ft (S n) rest;
      Some (v :: vs)
  end.

(** The last declared result of a function type. *)
Definition lastOut (ft : reflect.rtype) : option reflect.rtype :=
  match reflect.NumOut ft with
  | Some (S m) => reflect.Out ft m
  | _ => None
  end.

(** What [handleTask] makes of the values the handler returned, lines 369
    to 375. *)
Definition handlerOutcome (ft : reflect.rtype) (out : list reflect.Value)
  : result unit :=
  match reflect.NumOut ft with
  | None => Panic
  | Some n =>
      if bool_decide (0 < n) &&
         from_option (fun t => reflect.rtype_eqb t errorType) false
           (reflect.Out ft (n - 1))
      then
        match out !! (n - 1) with
        | None => Panic
        | Some errv =>
            if negb (reflect.IsNil errv) then Err (ErrHandlerFailed errv)
            else Ok ()
        end
      else Ok ()
  end.

(** The errors of the type checks. *)
Definition isTypeError (e : error) : bool :=
  match e with
  | ErrNotNilable _ _ | ErrNotAssignable _ _ _ => true
  | _ => false
  end.

(** The errors of the arity check. *)
Definition isArityError (e : error) : bool :=
  match e with
  | ErrTooFewArguments _ _ | ErrTooManyArguments _ _ => true
  | _ => false
  end.

(** ** A reference run time, to run the definitions *)

Module Ref.

(** A codec that keeps the invocation as its wire form and gives every
    value back as it went.  As gob, it refuses a value whose type is
    neither predeclared nor registered. *)
Definition known (reg : list reflect.rtype) (a : reflect.iface) : bool :=
  match a with
  | None => true
  | Some v =>
      match reflect.Type_ v with
      | reflect.Basic _ => true
      | t => existsb (reflect.rtype_eqb t) reg
      end
  end.

Definition encode (reg : list reflect.rtype) (inv : invocation)
  : option invocation :=
  if forallb (known reg) (Args inv) then Some inv else None.

Definition decode (reg : list reflect.rtype) (b : invocation)
  : option invocation :=
  if forallb (known reg) (Args b) then Some b else None.

Lemma decode_encode reg inv b inv' :
  encode reg inv = Some b -> decode reg b = Some inv' ->
  Key inv' = Key inv /\ Forall2 (option_Forall2 eq) (Args inv) (Args inv').
Proof.
  unfold encode, decode.
  destruct (forallb (known reg) (Args inv)) eqn:E; [|discriminate].
  intros [= <-]. rewrite E. intros [= <-]. split; [done|].
  clear E. induction (Args inv) as [|a l IH]; constructor; [|exact IH].
  destruct a; constructor; done.
Qed.

#[export] Instance gob : Gob :=
  {| bytes := invocation; Encode := encode; Decode := decode;
     transmits := eq; Decode_Encode := decode_encode |}.

(** The empty interface, [interface{}]. *)
Definition emptyInterface : reflect.rtype := reflect.InterfaceOf [].

(** Assignability restricted to identical types and to the interfaces
    without methods, which every type implements. *)
Definition assignableTo (at_ dt : reflect.rtype) : bool :=
  reflect.rtype_eqb at_ dt ||
  match dt with
  | reflect.InterfaceOf [] | reflect.Named _ (reflect.InterfaceOf []) => true
  | _ => false
  end.

(** Handlers that return the zero value of each declared result. *)
Definition call (f : reflect.Value) (_ : list reflect.Value)
  : option (list reflect.Value) :=
  match reflect.NumOut (reflect.Type_ f) with
  | None => None
  | Some n =>
      mapM (fun i => reflect.Zero <$> reflect.Out (reflect.Type_ f) i) (seq 0 n)
  end.

#[export] Instance rt : Runtime :=
  {| AssignableTo := assignableTo; Value_Call := call |}.

(** A non nil [error]. *)
Definition someError : reflect.Value :=
  reflect.mkValue errorType (reflect.DRef 1).

(** Handlers that fail: the zero value of each declared result but the
    last, and a non nil error. *)
Definition callFail (f : reflect.Value) (_ : list reflect.Value)
  : option (list reflect.Value) :=
  match reflect.NumOut (reflect.Type_ f) with
  | None => None
  | Some n =>
      outs ← mapM (fun i => reflect.Zero <$> reflect.Out (reflect.Type_ f) i)
               (seq 0 (n - 1));
      Some (outs ++ [someError])
  end.

Definition rtFail : Runtime :=
  {| AssignableTo := assignableTo; Value_Call := callFail |}.

(** Handlers that panic. *)
Definition callPanic (_ : reflect.Value) (_ : list reflect.Value)
  : option (list reflect.Value) := None.

Definition rtPanic : Runtime :=
  {| AssignableTo := assignableTo; Value_Call := callPanic |}.

Definition int : reflect.rtype := reflect.Basic reflect.Tint.
Definition string_ : reflect.rtype := reflect.Basic reflect.Tstring.
Definition ptrInt : reflect.rtype := reflect.PtrTo int.

Definition intV (z : Z) : reflect.iface :=
  Some (reflect.mkValue int (reflect.DNum z)).
Definition strV (s : string) : reflect.iface :=
  Some (reflect.mkValue string_ (reflect.DStr s)).
(** A nil [*int] boxed in an interface. *)
Definition nilPtrInt : reflect.iface :=
  Some (reflect.mkValue ptrInt reflect.DNil).

(** A function value of the given signature, at code address [addr]. *)
Definition fn (addr : N) (ins : list reflect.rtype) (variadic : bool)
    (outs : list reflect.rtype) : reflect.iface :=
  Some (reflect.mkValue (reflect.FuncOf ins variadic outs) (reflect.DRef addr)).

(** [func(ctx context.Context, n int) error] *)
Definition hInt : reflect.iface := fn 1 [contextType; int] false [errorType].
(** [func(ctx context.Context, a int, rest ...string) error] *)
Definition hVar : reflect.iface :=
  fn 2 [contextType; int; reflect.SliceOf string_] true [errorType].
(** [func(ctx context.Context, p *int, n int)] *)
Definition hPtr : reflect.iface := fn 3 [contextType; ptrInt; int] false [].

(** [context.Background()] *)
Definition background : reflect.Value :=
  reflect.mkValue
    (reflect.PtrTo (reflect.Named "context.emptyCtx" (reflect.Basic reflect.Tint)))
    (reflect.DRef 0).

(** The process after [Func] is called, from [file], with the short
    name [k]. *)
Definition register (k file : string) (i : reflect.iface) (st : State) : State :=
  match Func k file i st with
  | Some (_, st') => st'
  | None => st
  end.

Definition stInt : State := register "k" "main.go" hInt init.
Definition stVar : State := register "k" "main.go" hVar init.
Definition stPtr : State := register "k" "main.go" hPtr init.

(** [hVar] registered under the key that [hInt] holds. *)
Definition stDup : State := register "k" "main.go" hVar stInt.

(** The integer 42 given to [Func] under the key that [hInt] holds. *)
Definition stShadow : State := register "k" "main.go" (intV 42) stInt.

(** A task as the queue delivers it. *)
Definition deliver (code : string) (t : pb.SendTask invocation)
  : pb.Task invocation :=
  pb.mkTask code (pb.SendTask_Payload t) None 0 "proj" "q" (pb.SendTask_MinEta t).

(** A listener without sentry, a queue, a stream that sends everything,
    and two tasks: one for [hInt], one for a key that is not registered. *)
Definition lis : Listener := mkListener false.
Definition queue : QueueSpec := mkQueueSpec (mkConn "proj") "q".
Definition sendAll (_ : pb.ListenRequest) : bool := true.
Definition taskInt : pb.Task invocation :=
  deliver "t1" (pb.mkSendTask (mkInvocation "main.go:k" [intV 5]) None).
Definition taskUnknown : pb.Task invocation :=
  deliver "t2" (pb.mkSendTask (mkInvocation "main.go:nope" []) None).

End Ref.

(** A codec that, as gob does, decodes a slice of length 0 into the zero
    value of its type, the nil slice, and gives every other value back as
    it went; with a handler that takes a slice. *)
Module Wire.

(** What a value is decoded as. *)
Definition decoded (v : reflect.Value) : reflect.Value :=
  match reflect.TKind (reflect.Type_ v), reflect.Data v with
  | reflect.Slice, reflect.DSeq [] => reflect.mkValue (reflect.Type_ v) reflect.DNil
  | _, _ => v
  end.

Definition decode (reg : list reflect.rtype) (b : invocation)
  : option invocation :=
  if forallb (Ref.known reg) (Args b)
  then Some (mkInvocation (Key b) (map (fmap decoded) (Args b)))
  else None.

Lemma decode_keeps reg inv b inv' :
  Ref.encode reg inv = Some b -> decode reg b = Some inv' ->
  Key inv' = Key inv /\
  Forall2 (option_Forall2 (fun v w => w = decoded v)) (Args inv) (Args inv').
Proof.
  unfold Ref.encode, decode.
  destruct (forallb (Ref.known reg) (Args inv)) eqn:E; [|discriminate].
  intros [= <-]. rewrite E. intros [= <-]. split; [done|]. simpl.
  clear E. induction (Args inv) as [|a l IH]; simpl; constructor; [|exact IH].
  destruct a; constructor; done.
Qed.

#[export] Instance gob : Gob :=
  {| bytes := invocation; Encode := Ref.encode; Decode := decode;
     transmits := fun v w => w = decoded v; Decode_Encode := decode_keeps |}.

(** [[]string] *)
Definition strings : reflect.rtype := reflect.SliceOf Ref.string_.
(** [[]string{}], boxed in an interface: a slice of length 0 that is not
    nil. *)
Definition emptyStrings : reflect.iface :=
  Some (reflect.mkValue strings (reflect.DSeq [])).
(** [[]string(nil)], boxed in an interface. *)
Definition nilStrings : reflect.iface :=
  Some (reflect.mkValue strings reflect.DNil).

(** [func(ctx context.Context, s []string, n int) error] *)
Definition hSlice : reflect.iface :=
  Ref.fn 4 [contextType; strings; Ref.int] false [errorType].

Definition stSlice : State := Ref.register "k" "main.go" hSlice init.

End Wire.

(** A channel for the publish/subscribe branch, on the instances of
    [Ref]: a message with two [pb.SendTask], one for [hInt] and one for a
    key that is not registered; a message whose buffer ends on an error
    after one [pb.SendTask]; and a message that is never read. *)
Module RefChannel.

Definition sendInt : pb.SendTask invocation :=
  pb.mkSendTask (mkInvocation "main.go:k" [Ref.intV 5]) (Some 7%Z).
Definition sendUnknown : pb.SendTask invocation :=
  pb.mkSendTask (mkInvocation "main.go:nope" []) None.
Definition now (i : Z) : option Z := Some (1000 + i)%Z.
Definition channel : list (Message (gob := Ref.gob)) :=
  [mkMessage (gob := Ref.gob) [sendInt; sendUnknown] AtEOF;
   mkMessage (gob := Ref.gob) [sendInt] DecodeFails;
   mkMessage (gob := Ref.gob) [sendUnknown] AtEOF].
Definition read : Sub (gob := Ref.gob) * subResult :=
  readChannel (gob := Ref.gob) (rt := Ref.rt) Ref.queue Ref.stInt Ref.background
    now channel subscribed.

End RefChannel.

(** * Properties *)

(** ** Facts about [reflect] *)

Lemma rtype_eqb_eq (a c : reflect.rtype) :
  reflect.rtype_eqb a c = true <-> a = c.
Proof.
  revert c. induction a using reflect.rtype_ind_nested; intros c;
    destruct c; simpl; try (split; [discriminate | congruence]).
  - rewrite bool_decide_eq_true. split; congruence.
  - rewrite andb_true_iff, bool_decide_eq_true, IHa. split; [intros []; congruence | intros [=]; subst; auto].
  - rewrite andb_true_iff, bool_decide_eq_true, IHa. split; [intros []; congruence | intros [=]; subst; auto].
  - rewrite IHa. split; congruence.
  - rewrite !andb_true_iff, bool_decide_eq_true.
    assert (Hl : forall l1, Forall (fun a => forall b, reflect.rtype_eqb a b = true <-> a = b) l1 ->
      forall l2,
      (fix all2 (l1 l2 : list reflect.rtype) {struct l1} : bool :=
         match l1, l2 with
         | [], [] => true
         | x :: l1', y :: l2' => reflect.rtype_eqb x y && all2 l1' l2'
         | _, _ => false
         end) l1 l2 = true <-> l1 = l2).
    { clear. induction 1 as [|x l1 Hx _ IH]; intros [|y l2];
        try (split; [discriminate | congruence]); [tauto|].
      rewrite andb_true_iff, Hx, IH. split; [intros []; congruence | intros [=]; subst; auto]. }
    rewrite (Hl _ H), (Hl _ H0). split; [intros [[] ?]|]; try congruence.
    intros [= -> -> ->]; auto.
  - rewrite bool_decide_eq_true. split; congruence.
  - rewrite andb_true_iff, IHa1, IHa2. split; [intros []; congruence | intros [=]; subst; auto].
  - rewrite IHa. split; congruence.
  - rewrite IHa. split; congruence.
  - assert (Hl : forall l1, Forall (fun a => forall b, reflect.rtype_eqb a b = true <-> a = b) l1 ->
      forall l2,
      (fix all2 (l1 l2 : list reflect.rtype) {struct l1} : bool :=
         match l1, l2 with
         | [], [] => true
         | x :: l1', y :: l2' => reflect.rtype_eqb x y && all2 l1' l2'
         | _, _ => false
         end) l1 l2 = true <-> l1 = l2).
    { clear. induction 1 as [|x l1 Hx _ IH]; intros [|y l2];
        try (split; [discriminate | congruence]); [tauto|].
      rewrite andb_true_iff, Hx, IH. split; [intros []; congruence | intros [=]; subst; auto]. }
    rewrite (Hl _ H). split; congruence.
Qed.

Lemma rtype_eqb_refl (a : reflect.rtype) : reflect.rtype_eqb a a = true.
Proof. now apply rtype_eqb_eq. Qed.

Lemma TKind_Func_sig (t : reflect.rtype) :
  reflect.TKind t = reflect.Func ->
  exists n v m, reflect.NumIn t = Some n /\ reflect.IsVariadic t = Some v /\
                reflect.NumOut t = Some m.
Proof.
  induction t; simpl; try discriminate; eauto 10.
  destruct b; discriminate.
Qed.

Lemma In_lt (t : reflect.rtype) n i :
  reflect.NumIn t = Some n -> i < n -> is_Some (reflect.In t i).
Proof.
  induction t; simpl; try discriminate; auto.
  intros [= <-] Hi. now apply lookup_lt_is_Some.
Qed.

Lemma In_ge (t : reflect.rtype) n i :
  reflect.NumIn t = Some n -> n <= i -> reflect.In t i = None.
Proof.
  induction t; simpl; try discriminate; auto.
  intros [= <-] Hi. now apply lookup_ge_None.
Qed.

Lemma In_Some_NumIn (t : reflect.rtype) i ti :
  reflect.In t i = Some ti -> exists n, reflect.NumIn t = Some n /\ i < n.
Proof.
  induction t; simpl; try discriminate; auto.
  intros Hi. eexists; split; [reflexivity|]. now apply lookup_lt_Some in Hi.
Qed.

(** [reflect.Zero(t).Interface()] is not nil unless [t] is an interface
    type: [gob.Register] gets a typed value. *)
Lemma TypeOf_Zero (t : reflect.rtype) :
  reflect.TKind t <> reflect.Interface ->
  reflect.TypeOf (reflect.Interface_ (reflect.Zero t)) = Some t.
Proof.
  intros Hk. unfold reflect.Interface_, reflect.Zero; simpl.
  destruct (reflect.TKind t); try reflexivity. congruence.
Qed.

(** ** [Func] *)

Lemma registerArgs_total (t : reflect.rtype) n todo i reg :
  reflect.NumIn t = Some n -> i + todo = n ->
  is_Some (registerArgs t todo i reg).
Proof.
  intros Hn. revert i reg.
  induction todo as [|todo IH]; intros i reg Hi; simpl; [eauto|].
  destruct (In_lt t n i Hn) as [ti Hti]; [lia|]. rewrite Hti; simpl.
  case_bool_decide as Hk.
  - apply IH; lia.
  - unfold gob_Register. rewrite (TypeOf_Zero _ Hk); simpl. apply IH; lia.
Qed.

Lemma shapeError_None (v : reflect.Value) :
  shapeError (reflect.Type_ v) = None <-> handlerShape (Some v).
Proof.
  unfold shapeError, handlerShape. split.
  - case_bool_decide as Hk; [|discriminate].
    destruct (reflect.In _ 0) as [t0|] eqn:H0; [|discriminate].
    destruct (reflect.rtype_eqb t0 contextType) eqn:E; [|discriminate].
    apply rtype_eqb_eq in E; subst. eauto.
  - intros (v' & [= <-] & Hk & H0).
    rewrite bool_decide_eq_true_2, H0 by done. now rewrite rtype_eqb_refl.
Qed.

(** [Func] on a value that fails a shape check: the new [Function] holds
    the error and the registry is left alone. *)
Lemma Func_bad k file (v : reflect.Value) st e :
  shapeError (reflect.Type_ v) = Some e ->
  Func k file (Some v) st =
    Some (length (heap st),
          mkState (heap st ++ [mkFunction (Some v) (derivedKey k file) (Some e)])
            (funcs st) (gobTypes st)).
Proof.
  unfold shapeError, Func, alloc, derivedKey; simpl.
  case_bool_decide as Hk; simpl; [|now intros [= <-]].
  destruct (TKind_Func_sig _ Hk) as (n & va & m & Hn & _ & _).
  rewrite Hn; simpl.
  case_bool_decide as H0.
  - subst n. rewrite (In_ge _ _ 0 Hn) by lia. now intros [= <-].
  - destruct (In_lt _ _ 0 Hn) as [t0 Ht0]; [lia|]. rewrite Ht0; simpl.
    destruct (reflect.rtype_eqb t0 contextType); [discriminate|].
    now intros [= <-].
Qed.

(** [Func] on a well shaped handler: the new [Function] has no error, the
    registry maps the key to it, and the entry it replaces is marked. *)
Lemma Func_good k file (v : reflect.Value) st :
  shapeError (reflect.Type_ v) = None ->
  exists reg,
    Func k file (Some v) st =
      Some (length (heap st),
            mkState
              (markOld (ErrMultipleFunctions k file)
                 (funcs st !! derivedKey k file)
                 (heap st ++ [mkFunction (Some v) (derivedKey k file) None]))
              (<[derivedKey k file := length (heap st)]> (funcs st))
              reg).
Proof.
  unfold shapeError, Func, alloc, derivedKey, markOld; simpl.
  case_bool_decide as Hk; simpl; [|discriminate].
  destruct (TKind_Func_sig _ Hk) as (n & va & m & Hn & _ & _).
  rewrite Hn; simpl.
  destruct (reflect.In _ 0) as [t0|] eqn:Ht0; [|discriminate].
  destruct (reflect.rtype_eqb t0 contextType) eqn:E; [|discriminate].
  intros _. simpl.
  destruct (In_Some_NumIn _ _ _ Ht0) as (n' & Hn' & Hlt).
  assert (n' = n) by congruence; subst n'.
  rewrite bool_decide_eq_false_2 by lia.
  destruct (registerArgs_total _ n n 0 (gobTypes st) Hn) as [reg Hreg]; [lia|].
  rewrite E, Hreg; simpl. exists reg.
  now destruct (funcs st !! _).
Qed.

(** Every call of [Func] on a non nil value returns: one of the two cases
    above. *)
Lemma Func_Some k file (v : reflect.Value) st :
  exists st', Func k file (Some v) st = Some (length (heap st), st').
Proof.
  destruct (shapeError (reflect.Type_ v)) as [e|] eqn:E.
  - rewrite (Func_bad _ _ _ _ _ E). eauto.
  - destruct (Func_good k file v st E) as [reg ->]. eauto.
Qed.

Lemma Func_inv k file i st p st' :
  Func k file i st = Some (p, st') ->
  exists v, i = Some v /\ p = length (heap st) /\
    ((exists e, shapeError (reflect.Type_ v) = Some e /\
        st' = mkState
                (heap st ++ [mkFunction (Some v) (derivedKey k file) (Some e)])
                (funcs st) (gobTypes st))
     \/
     (shapeError (reflect.Type_ v) = None /\ exists reg,
        st' = mkState
                (markOld (ErrMultipleFunctions k file)
                   (funcs st !! derivedKey k file)
                   (heap st ++ [mkFunction (Some v) (derivedKey k file) None]))
                (<[derivedKey k file := length (heap st)]> (funcs st))
                reg)).
Proof.
  destruct i as [v|]; [|discriminate]. intros H. exists v. split; [done|].
  destruct (shapeError (reflect.Type_ v)) as [e|] eqn:E.
  - rewrite (Func_bad _ _ _ _ _ E) in H. injection H as <- <-. eauto.
  - destruct (Func_good k file v st E) as [reg Hreg].
    rewrite Hreg in H. injection H as <- <-. eauto.
Qed.

Lemma wf_init : wf init.
Proof.
  split; simpl.
  - intros k p H. now rewrite lookup_empty in H.
  - intros p f H. now rewrite lookup_nil in H.
Qed.

(** [Func] keeps the invariant. *)
Lemma Func_wf k file i st p st' :
  wf st -> Func k file i st = Some (p, st') -> wf st'.
Proof.
  intros [Hf Hl] H.
  destruct (Func_inv _ _ _ _ _ _ H) as (v & -> & -> & [(e & E & ->)|(E & reg & ->)]).
  - split; simpl.
    + intros k' p' Hk'. destruct (Hf _ _ Hk') as (v' & Hv' & Hs).
      exists v'. split; [|done]. rewrite lookup_app_l; [done|].
      now apply lookup_lt_Some in Hv'.
    + intros p' f Hp' He.
      destruct (decide (p' < length (heap st))) as [Hlt|Hge].
      * rewrite lookup_app_l in Hp' by done. eauto.
      * rewrite lookup_app_r in Hp' by lia.
        destruct (p' - length (heap st)) as [|d]; simpl in Hp';
          [|now rewrite lookup_nil in Hp'].
        injection Hp' as <-. discriminate.
  - set (k0 := derivedKey k file) in *.
    set (new := mkFunction (Some v) k0 None).
    apply shapeError_None in E.
    split; simpl.
    + intros k' p' Hk'.
      destruct (decide (k0 = k')) as [<-|Hne].
      * rewrite lookup_insert_eq in Hk'. injection Hk' as <-.
        exists v. split; [|done].
        assert (Hnew : (heap st ++ [new]) !! length (heap st) = Some new).
        { rewrite lookup_app_r by lia. now rewrite Nat.sub_diag. }
        destruct (funcs st !! k0) as [q|] eqn:Hq; simpl; [|done].
        destruct (Hf _ _ Hq) as (vq & Hvq & _).
        apply lookup_lt_Some in Hvq.
        rewrite list_lookup_alter_ne by lia. done.
      * rewrite lookup_insert_ne in Hk' by done.
        destruct (Hf _ _ Hk') as (v' & Hv' & Hs).
        exists v'. split; [|done].
        assert (Hold : (heap st ++ [new]) !! p' = Some (mkFunction (Some v') k' None)).
        { rewrite lookup_app_l; [done|]. now apply lookup_lt_Some in Hv'. }
        destruct (funcs st !! k0) as [q|] eqn:Hq; simpl; [|done].
        destruct (Hf _ _ Hq) as (vq & Hvq & _).
        rewrite list_lookup_alter_ne; [done|].
        intros ->. rewrite Hv' in Hvq. congruence.
    + intros p' f Hp' He.
      destruct (decide (p' = length (heap st))) as [->|Hne].
      * assert (f = new) as ->.
        { destruct (funcs st !! k0) as [q|] eqn:Hq; simpl in Hp'.
          - destruct (Hf _ _ Hq) as (vq & Hvq & _). apply lookup_lt_Some in Hvq.
            rewrite list_lookup_alter_ne in Hp' by lia.
            rewrite lookup_app_r in Hp' by lia.
            rewrite Nat.sub_diag in Hp'. simpl in Hp'. congruence.
          - rewrite lookup_app_r in Hp' by lia.
            rewrite Nat.sub_diag in Hp'. simpl in Hp'. congruence. }
        simpl. apply lookup_insert_eq.
      * assert (Hlt : p' < length (heap st)).
        { apply lookup_lt_Some in Hp'.
          destruct (funcs st !! k0); simpl in Hp';
            rewrite ?length_alter, length_app in Hp'; simpl in Hp'; lia. }
        destruct (funcs st !! k0) as [q|] eqn:Hq; simpl in Hp'.
        -- destruct (decide (q = p')) as [->|Hqp].
           ++ rewrite list_lookup_alter_eq in Hp'.
              rewrite lookup_app_l in Hp' by done.
              destruct (heap st !! p') as [g|]; simpl in Hp'; [|discriminate].
              injection Hp' as <-. discriminate.
           ++ rewrite list_lookup_alter_ne in Hp' by done.
              rewrite lookup_app_l in Hp' by done.
              rewrite lookup_insert_ne; [eauto|].
              intros Hk. specialize (Hl _ _ Hp' He). rewrite <- Hk in Hl. congruence.
        -- rewrite lookup_app_l in Hp' by done.
           rewrite lookup_insert_ne; [eauto|].
           intros Hk. specialize (Hl _ _ Hp' He). rewrite <- Hk in Hl. congruence.
Qed.

(** The invariant holds in every state of the process. *)
Lemma reachable_wf st : reachable st -> wf st.
Proof. induction 1; eauto using wf_init, Func_wf. Qed.

(** A [Function] that holds an error is never written again. *)
Lemma Func_keeps_errored k file i st p st' q f e :
  wf st -> Func k file i st = Some (p, st') ->
  heap st !! q = Some f -> err f = Some e ->
  heap st' !! q = Some f.
Proof.
  intros [Hf Hl] H Hq He.
  assert (Hlt : q < length (heap st)) by now apply lookup_lt_Some in Hq.
  destruct (Func_inv _ _ _ _ _ _ H) as (v & -> & -> & [(e' & E & ->)|(E & reg & ->)]);
    simpl.
  - now rewrite lookup_app_l.
  - destruct (funcs st !! derivedKey k file) as [old|] eqn:Hold; simpl.
    + destruct (Hf _ _ Hold) as (vo & Hvo & _).
      rewrite list_lookup_alter_ne.
      * now rewrite lookup_app_l.
      * intros ->. rewrite Hq in Hvo. injection Hvo as ->. discriminate.
    + now rewrite lookup_app_l.
Qed.

Lemma later_wf st0 st : wf st0 -> later st0 st -> wf st.
Proof. induction 2; eauto using Func_wf. Qed.

Lemma later_keeps_errored st0 st q f e :
  wf st0 -> later st0 st ->
  heap st0 !! q = Some f -> err f = Some e ->
  heap st !! q = Some f.
Proof.
  intros Hwf Hl Hq He. induction Hl as [|k file i st p st' Hl IH HF]; [done|].
  exact (Func_keeps_errored _ _ _ _ _ _ _ _ _ (later_wf _ _ Hwf Hl) HF IH He).
Qed.

(** ** [Function.Task]: the stored error *)

Section TaskFacts.

Context {gob : Gob} {rt : Runtime}.
Variable client_SendTasks : pb.SendTasksRequest bytes -> bool.

(** A [Function] that holds an error: [Task] returns it, leaves the
    arguments alone and builds no task. *)
Lemma Task_errored p f e args st :
  heap st !! p = Some f -> err f = Some e ->
  Task p args st = (args, Err e).
Proof. intros Hp He. unfold Task. now rewrite Hp, He. Qed.

(** And [Call] returns the same error and sends nothing. *)
Lemma Call_errored p f e queue args st :
  heap st !! p = Some f -> err f = Some e ->
  Call client_SendTasks p queue args st = (args, [], Err e).
Proof.
  intros Hp He. unfold Call. now rewrite (Task_errored _ _ _ _ _ Hp He).
Qed.

(** A value that is not a well shaped handler: [Func] returns a
    [Function] that holds the error of the failed check, and from then on
    [Task] and [Call] on it return that error. *)
Lemma Func_deferred_error k file (v : reflect.Value) st e :
  reachable st ->
  shapeError (reflect.Type_ v) = Some e ->
  exists p st',
    Func k file (Some v) st = Some (p, st') /\
    funcs st' = funcs st /\
    forall st'' queue args, later st' st'' ->
      Task p args st'' = (args, Err e) /\
      Call client_SendTasks p queue args st'' = (args, [], Err e).
Proof.
  intros Hr E. pose proof (Func_bad k file v st e E) as HF.
  eexists _, _. split; [exact HF|]. split; [reflexivity|].
  intros st'' queue args Hl.
  assert (Hwf : wf (mkState
            (heap st ++ [mkFunction (Some v) (derivedKey k file) (Some e)])
            (funcs st) (gobTypes st))).
  { eapply Func_wf; [|exact HF]. now apply reachable_wf. }
  assert (Hq : heap st'' !! length (heap st)
               = Some (mkFunction (Some v) (derivedKey k file) (Some e))).
  { eapply later_keeps_errored; eauto; simpl.
    rewrite lookup_app_r by lia. now rewrite Nat.sub_diag. }
  split.
  - eapply Task_errored; eauto.
  - eapply Call_errored; eauto.
Qed.

End TaskFacts.

(** ** [Function.Task]: the checks *)

(** Both [Task] and [handleTask] compute the declared type of a position;
    they agree with [declaredType]. *)
Lemma Task_dt_declared (ft : reflect.rtype) numIn variadic i :
  reflect.NumIn ft = Some numIn -> reflect.IsVariadic ft = Some variadic ->
  (if bool_decide (i < minArgsOf numIn variadic) then reflect.In ft i
   else reflect.In ft (minArgsOf numIn variadic) ≫= reflect.Elem)
  = declaredType ft i.
Proof.
  intros Hn Hv. unfold declaredType, minArgsOf. rewrite Hn, Hv.
  destruct variadic; [done|].
  case_bool_decide as Hi; [done|].
  rewrite (In_ge _ _ numIn Hn) by lia. rewrite (In_ge _ _ i Hn) by lia. done.
Qed.

Lemma handleTask_at_declared (ft : reflect.rtype) numIn variadic n :
  reflect.NumIn ft = Some numIn -> reflect.IsVariadic ft = Some variadic ->
  (if negb variadic || bool_decide (n < numIn - 1) then reflect.In ft n
   else reflect.In ft (numIn - 1) ≫= reflect.Elem)
  = declaredType ft n.
Proof.
  intros Hn Hv. unfold declaredType. rewrite Hn, Hv.
  destruct variadic; simpl; done.
Qed.

Section Checks.

Context {gob : Gob} {rt : Runtime}.

(** The loop of [Task], which writes the slice in place, computes
    [checkEach] on the arguments from index [i] on and leaves the ones
    before as they are. *)
Lemma checkArgs_checkEach (ft : reflect.rtype) numIn variadic :
  reflect.NumIn ft = Some numIn -> reflect.IsVariadic ft = Some variadic ->
  forall rest done,
    checkArgs ft (minArgsOf numIn variadic) (length rest) (S (length done))
      (done ++ rest)
    = (done ++ (checkEach ft (S (length done)) rest).1,
       (checkEach ft (S (length done)) rest).2).
Proof.
  intros Hn Hv. induction rest as [|a rest IH]; intros done; simpl.
  - done.
  - replace (length done - 0) with (length done) by lia.
    rewrite list_lookup_middle by done.
    rewrite (Task_dt_declared ft numIn variadic _ Hn Hv).
    destruct (declaredType ft (S (length done))) as [dt|]; [|done].
    assert (Hnext : forall a',
      checkArgs ft (minArgsOf numIn variadic) (length rest)
        (S (S (length done))) (done ++ a' :: rest)
      = (done ++ a' :: (checkEach ft (S (S (length done))) rest).1,
         (checkEach ft (S (S (length done))) rest).2)).
    { intros a'. specialize (IH (done ++ [a'])).
      rewrite length_app in IH; simpl in IH.
      replace (length done + 1) with (S (length done)) in IH by lia.
      rewrite <- !app_assoc in IH. exact IH. }
    assert (Hins : forall a', <[length done := a']> (done ++ a :: rest)
                              = done ++ a' :: rest).
    { intros a'. rewrite insert_app_r_alt by lia.
      now rewrite Nat.sub_diag. }
    destruct a as [v|]; simpl.
    + unfold normalize, typedNil.
      destruct (AssignableTo (reflect.Type_ v) dt); simpl.
      * destruct (nilableKind _ && reflect.IsNil v);
          rewrite ?Hins, Hnext; now destruct (checkEach _ _ rest).
      * destruct (nilableKind _ && reflect.IsNil v); now rewrite ?Hins.
    + destruct (nilableKind (reflect.TKind dt)); [|done].
      rewrite Hnext. now destruct (checkEach _ _ rest).
Qed.

(** What [Task] does for a [Function] without error. *)
Lemma Task_unfold p f (v : reflect.Value) numIn variadic args st :
  heap st !! p = Some f -> err f = None -> fv f = Some v ->
  reflect.NumIn (reflect.Type_ v) = Some numIn ->
  reflect.IsVariadic (reflect.Type_ v) = Some variadic ->
  Task p args st =
    if bool_decide (length args + 1 < minArgsOf numIn variadic) then
      (args, Err (ErrTooFewArguments (length args + 1) (minArgsOf numIn variadic)))
    else if negb variadic && bool_decide (minArgsOf numIn variadic < length args + 1) then
      (args, Err (ErrTooManyArguments (length args + 1) (minArgsOf numIn variadic)))
    else
      match checkEach (reflect.Type_ v) 1 args with
      | (args', Ok _) =>
          match Encode (gobTypes st) (mkInvocation (key f) args') with
          | None => (args', Err ErrGobEncode)
          | Some buf => (args', Ok (pb.mkSendTask buf None))
          end
      | (args', Err e) => (args', Err e)
      | (args', Panic) => (args', Panic)
      end.
Proof.
  intros Hp He Hv Hn Hva. unfold Task. rewrite Hp, He, Hv, Hn, Hva.
  fold (minArgsOf numIn variadic).
  case_bool_decide; [done|].
  destruct (negb variadic && _); [done|].
  replace (length args + 1 - 1) with (length args) by lia.
  pose proof (checkArgs_checkEach _ _ _ Hn Hva args []) as Hc.
  simpl in Hc. rewrite Hc.
  now destruct (checkEach _ 1 args) as [args' [[]| |]].
Qed.

(** In a state of the process, a [Function] without error has a
    signature. *)
Lemma live_signature st p f :
  wf st -> heap st !! p = Some f -> err f = None ->
  exists v numIn variadic,
    fv f = Some v /\ handlerShape (Some v) /\
    funcs st !! key f = Some p /\
    reflect.NumIn (reflect.Type_ v) = Some numIn /\ 0 < numIn /\
    reflect.IsVariadic (reflect.Type_ v) = Some variadic.
Proof.
  intros [Hf Hl] Hp He. pose proof (Hl _ _ Hp He) as Hk.
  destruct (Hf _ _ Hk) as (v & Hv & Hs).
  rewrite Hp in Hv. injection Hv as ->. simpl.
  destruct Hs as (v' & [= <-] & Hkind & H0).
  destruct (TKind_Func_sig _ Hkind) as (n & va & m & Hn & Hva & _).
  destruct (In_Some_NumIn _ _ _ H0) as (n' & Hn' & Hlt).
  assert (n' = n) by congruence; subst.
  exists v, n, va. repeat split; eauto.
  exists v. eauto.
Qed.

End Checks.

(** ** The checks, argument by argument *)

Section CheckEach.

Context {rt : Runtime}.

Lemma checkEach_length ft i rest :
  length (checkEach ft i rest).1 = length rest.
Proof.
  revert i. induction rest as [|a rest IH]; intros i; simpl; [done|].
  destruct (declaredType ft i) as [dt|]; [|done].
  specialize (IH (S i)).
  destruct a as [v|].
  - destruct (AssignableTo _ dt); [|done].
    destruct (checkEach ft (S i) rest); simpl in *. now rewrite IH.
  - destruct (nilableKind _); [|done].
    destruct (checkEach ft (S i) rest); simpl in *. now rewrite IH.
Qed.

(** The checks only report type errors. *)
Lemma checkEach_error ft i rest e :
  (checkEach ft i rest).2 = Err e -> isTypeError e = true.
Proof.
  revert i. induction rest as [|a rest IH]; intros i; simpl; [discriminate|].
  destruct (declaredType ft i) as [dt|]; [|discriminate].
  specialize (IH (S i)).
  destruct a as [v|].
  - destruct (AssignableTo _ dt); [|now intros [= <-]].
    destruct (checkEach ft (S i) rest); simpl in *. auto.
  - destruct (nilableKind _); [|now intros [= <-]].
    destruct (checkEach ft (S i) rest); simpl in *. auto.
Qed.

(** Admissible arguments pass, and leave the slice normalized. *)
Lemma checkEach_admissible ft i rest :
  admissibleFrom ft i rest ->
  checkEach ft i rest = (map normalize rest, Ok ()).
Proof.
  revert i. induction rest as [|a rest IH]; intros i Hall; simpl; [done|].
  destruct (Hall 0 a eq_refl) as (dt & Hdt & Ha).
  rewrite Nat.add_0_r in Hdt. rewrite Hdt.
  assert (Hrest : admissibleFrom ft (S i) rest).
  { intros j b Hj. destruct (Hall (S j) b Hj) as (d & Hd & Hb).
    exists d. split; [|done]. now replace (S i + j) with (i + S j) by lia. }
  rewrite (IH _ Hrest).
  destruct a as [v|]; simpl in Ha; rewrite Ha; done.
Qed.

(** Conversely, when the checks pass every argument was admissible. *)
Lemma checkEach_Ok ft i rest :
  (checkEach ft i rest).2 = Ok () ->
  admissibleFrom ft i rest /\ (checkEach ft i rest).1 = map normalize rest.
Proof.
  intros H.
  assert (Hall : admissibleFrom ft i rest).
  { revert i H. induction rest as [|a rest IH]; intros i; simpl.
    - intros _ j b Hj. now rewrite lookup_nil in Hj.
    - destruct (declaredType ft i) as [dt|] eqn:Hdt; [|discriminate].
      specialize (IH (S i)).
      assert (Hcons : admissible dt a = true ->
                      (checkEach ft (S i) rest).2 = Ok () ->
                      admissibleFrom ft i (a :: rest)).
      { intros Ha Hr [|j] b Hj; simpl in Hj.
        - injection Hj as <-. exists dt. now rewrite Nat.add_0_r.
        - destruct (IH Hr j b Hj) as (d & Hd & Hb).
          exists d. split; [|done]. now replace (i + S j) with (S i + j) by lia. }
      destruct a as [v|]; simpl in Hcons.
      + destruct (AssignableTo _ dt); [|discriminate].
        destruct (checkEach ft (S i) rest); simpl in *. auto.
      + destruct (nilableKind _); [|discriminate].
        destruct (checkEach ft (S i) rest); simpl in *. auto. }
  split; [done|]. now rewrite (checkEach_admissible _ _ _ Hall).
Qed.

(** The checks reach position [j] when the arguments before it are
    admissible: the argument there is normalized, whatever the outcome,
    and it is the one reported when it is not admissible. *)
Lemma checkEach_reach ft i rest j a dt :
  admissibleFrom ft i (take j rest) ->
  rest !! j = Some a ->
  declaredType ft (i + j) = Some dt ->
  (checkEach ft i rest).1 !! j = Some (normalize a) /\
  (admissible dt a = false ->
   (checkEach ft i rest).2 =
     Err (match a with
          | Some v => ErrNotAssignable (i + j) (reflect.Type_ v) dt
          | None => ErrNotNilable (i + j) dt
          end)).
Proof.
  revert i j. induction rest as [|b rest IH]; intros i j Hpre Hj Hdt.
  - now rewrite lookup_nil in Hj.
  - destruct j as [|j]; simpl in Hj.
    + injection Hj as ->. rewrite Nat.add_0_r in *. simpl. rewrite Hdt.
      destruct a as [v|]; simpl.
      * destruct (AssignableTo _ dt); [|done].
        destruct (checkEach ft (S i) rest); simpl. done.
      * destruct (nilableKind _); [|done].
        destruct (checkEach ft (S i) rest); simpl. done.
    + simpl in Hpre.
      destruct (Hpre 0 b eq_refl) as (db & Hdb & Hb).
      rewrite Nat.add_0_r in Hdb.
      assert (Hpre' : admissibleFrom ft (S i) (take j rest)).
      { intros m c Hm. destruct (Hpre (S m) c Hm) as (d & Hd & Hc).
        exists d. split; [|done]. now replace (S i + m) with (i + S m) by lia. }
      replace (i + S j) with (S i + j) in * by lia.
      destruct (IH (S i) j Hpre' Hj Hdt) as [IH1 IH2].
      simpl. rewrite Hdb.
      destruct b as [v|]; simpl in Hb; rewrite Hb;
        destruct (checkEach ft (S i) rest); simpl in *; done.
Qed.

(** A nil argument at a position whose declared kind is not nilable: the
    checks report a type error, at that position or before. *)
Lemma checkEach_nil_rejected ft i rest j dt :
  (forall m, m < j -> is_Some (declaredType ft (i + m))) ->
  rest !! j = Some None ->
  declaredType ft (i + j) = Some dt ->
  nilableKind (reflect.TKind dt) = false ->
  exists e, (checkEach ft i rest).2 = Err e /\ isTypeError e = true.
Proof.
  revert i j. induction rest as [|b rest IH]; intros i j Hdecl Hj Hdt Hk.
  - now rewrite lookup_nil in Hj.
  - destruct j as [|j]; simpl in Hj.
    + injection Hj as ->. rewrite Nat.add_0_r in *. simpl. rewrite Hdt, Hk.
      eauto.
    + destruct (Hdecl 0) as [db Hdb]; [lia|]. rewrite Nat.add_0_r in Hdb.
      replace (i + S j) with (S i + j) in * by lia.
      destruct (IH (S i) j) as (e & He & Ht); auto.
      { intros m Hm. replace (S i + m) with (i + S m) by lia.
        apply Hdecl. lia. }
      simpl. rewrite Hdb.
      destruct b as [v|].
      * destruct (AssignableTo _ db); [|eauto].
        destruct (checkEach ft (S i) rest); simpl in *. eauto.
      * destruct (nilableKind (reflect.TKind db)); [|eauto].
        destruct (checkEach ft (S i) rest); simpl in *. eauto.
Qed.

End CheckEach.

(** With the right number of arguments every position has a declared
    type. *)
Lemma declaredType_total (ft : reflect.rtype) numIn variadic n i :
  reflect.NumIn ft = Some numIn -> reflect.IsVariadic ft = Some variadic ->
  sliceTail ft = true -> arityOk numIn variadic n = true ->
  i <= n -> is_Some (declaredType ft i).
Proof.
  intros Hn Hv Hs Ha Hi. unfold declaredType. rewrite Hn, Hv.
  unfold sliceTail in Hs. rewrite Hn, Hv in Hs.
  unfold arityOk, minArgsOf in Ha.
  apply andb_true_iff in Ha as [Ha1 Ha2].
  apply negb_true_iff, bool_decide_eq_false in Ha1.
  destruct variadic; simpl in *.
  - case_bool_decide as Hlt.
    + apply (In_lt _ _ _ Hn). lia.
    + destruct (reflect.In ft (numIn - 1) ≫= reflect.Elem); [eauto|discriminate].
  - apply negb_true_iff, bool_decide_eq_false in Ha2.
    apply (In_lt _ _ _ Hn). lia.
Qed.

(** ** [Function.Task]: arity, nil arguments, the caller's slice *)

Section TaskChecks.

Context {gob : Gob} {rt : Runtime}.

Lemma arityOk_unfold numIn variadic n :
  arityOk numIn variadic n = true <->
  ~ n + 1 < minArgsOf numIn variadic /\
  (variadic = false -> ~ minArgsOf numIn variadic < n + 1).
Proof.
  unfold arityOk. rewrite andb_true_iff, !negb_true_iff, bool_decide_eq_false.
  destruct variadic; simpl.
  - split; [intros []; split; [done|discriminate] | intros []; done].
  - rewrite bool_decide_eq_false. split; intros []; auto.
Qed.

(** [Task] past the arity check. *)
Lemma Task_arityOk p f (v : reflect.Value) numIn variadic args st :
  heap st !! p = Some f -> err f = None -> fv f = Some v ->
  reflect.NumIn (reflect.Type_ v) = Some numIn ->
  reflect.IsVariadic (reflect.Type_ v) = Some variadic ->
  arityOk numIn variadic (length args) = true ->
  Task p args st =
    match checkEach (reflect.Type_ v) 1 args with
    | (args', Ok _) =>
        match Encode (gobTypes st) (mkInvocation (key f) args') with
        | None => (args', Err ErrGobEncode)
        | Some buf => (args', Ok (pb.mkSendTask buf None))
        end
    | (args', Err e) => (args', Err e)
    | (args', Panic) => (args', Panic)
    end.
Proof.
  intros Hp He Hv Hn Hva Ha.
  rewrite (Task_unfold _ _ _ _ _ _ _ Hp He Hv Hn Hva).
  unfold arityOk in Ha. apply andb_true_iff in Ha as [Ha1 Ha2].
  apply negb_true_iff in Ha1, Ha2. now rewrite Ha1, Ha2.
Qed.

(** [Task] on admissible arguments that gob encodes. *)
Lemma Task_admissible p f (v : reflect.Value) numIn variadic args st buf :
  heap st !! p = Some f -> err f = None -> fv f = Some v ->
  reflect.NumIn (reflect.Type_ v) = Some numIn ->
  reflect.IsVariadic (reflect.Type_ v) = Some variadic ->
  arityOk numIn variadic (length args) = true ->
  admissibleFrom (reflect.Type_ v) 1 args ->
  Encode (gobTypes st) (mkInvocation (key f) (map normalize args)) = Some buf ->
  Task p args st = (map normalize args, Ok (pb.mkSendTask buf None)).
Proof.
  intros Hp He Hv Hn Hva Ha Hadm Henc.
  rewrite (Task_arityOk _ _ _ _ _ _ _ Hp He Hv Hn Hva Ha).
  rewrite (checkEach_admissible _ _ _ Hadm). now rewrite Henc.
Qed.

(** What a task built by [Task] says about the call. *)
Lemma Task_Ok_inv p args args' task st :
  Task p args st = (args', Ok task) ->
  exists f v numIn variadic,
    heap st !! p = Some f /\ err f = None /\ fv f = Some v /\
    reflect.NumIn (reflect.Type_ v) = Some numIn /\
    reflect.IsVariadic (reflect.Type_ v) = Some variadic /\
    arityOk numIn variadic (length args) = true /\
    admissibleFrom (reflect.Type_ v) 1 args /\
    args' = map normalize args /\
    Encode (gobTypes st) (mkInvocation (key f) args')
      = Some (pb.SendTask_Payload task) /\
    pb.SendTask_MinEta task = None.
Proof.
  intros H.
  destruct (heap st !! p) as [f|] eqn:Hp;
    [|unfold Task in H; rewrite Hp in H; discriminate].
  destruct (err f) as [e|] eqn:He;
    [unfold Task in H; rewrite Hp, He in H; discriminate|].
  destruct (fv f) as [v|] eqn:Hv;
    [|unfold Task in H; rewrite Hp, He, Hv in H; discriminate].
  destruct (reflect.NumIn (reflect.Type_ v)) as [numIn|] eqn:Hn;
    [|unfold Task in H; rewrite Hp, He, Hv, Hn in H; discriminate].
  destruct (reflect.IsVariadic (reflect.Type_ v)) as [variadic|] eqn:Hva;
    [|unfold Task in H; rewrite Hp, He, Hv, Hn, Hva in H; discriminate].
  rewrite (Task_unfold _ _ _ _ _ _ _ Hp He Hv Hn Hva) in H.
  exists f, v, numIn, variadic.
  destruct (bool_decide (length args + 1 < _)) eqn:E1; [discriminate|].
  destruct (negb variadic && _) eqn:E2; [discriminate|].
  assert (Ha : arityOk numIn variadic (length args) = true).
  { unfold arityOk. now rewrite E1, E2. }
  destruct (checkEach (reflect.Type_ v) 1 args) as [out r] eqn:Hc.
  destruct r as [[]|e|]; [|discriminate..].
  destruct (checkEach_Ok (reflect.Type_ v) 1 args) as [Hadm Hout];
    [now rewrite Hc|].
  rewrite Hc in Hout; simpl in Hout. subst out.
  destruct (Encode _ _) as [buf|] eqn:Henc; [|discriminate].
  injection H as <- <-. simpl. repeat split; auto.
Qed.

End TaskChecks.

(** The states of the reference process are states of the process. *)
Lemma reachable_register k file i st :
  reachable st -> reachable (Ref.register k file i st).
Proof.
  intros Hr. unfold Ref.register.
  destruct (Func k file i st) as [[p st']|] eqn:HF; [|done].
  eapply reachable_Func; eauto.
Qed.

Lemma reachable_stInt : reachable Ref.stInt.
Proof. apply reachable_register, reachable_init. Qed.

Lemma reachable_stVar : reachable Ref.stVar.
Proof. apply reachable_register, reachable_init. Qed.

Lemma reachable_stPtr : reachable Ref.stPtr.
Proof. apply reachable_register, reachable_init. Qed.

(** A handler has its context parameter before the variadic one: the
    arity check asks for one argument at least, the context. *)
Lemma live_minArgs st p f (v : reflect.Value) numIn variadic :
  reachable st -> heap st !! p = Some f -> err f = None -> fv f = Some v ->
  reflect.NumIn (reflect.Type_ v) = Some numIn ->
  reflect.IsVariadic (reflect.Type_ v) = Some variadic ->
  sliceTail (reflect.Type_ v) = true ->
  0 < minArgsOf numIn variadic /\
  minArgsOf numIn variadic = S (if variadic then numIn - 2 else numIn - 1).
Proof.
  intros Hr Hp He Hv Hn Hva Hs.
  destruct (live_signature st p f (reachable_wf _ Hr) Hp He)
    as (v' & n' & va' & Hv' & Hsh & _ & Hn' & Hpos & Hva').
  assert (v' = v) by congruence; subst v'.
  assert (n' = numIn) by congruence; subst n'.
  destruct Hsh as (v' & [= <-] & _ & H0).
  unfold minArgsOf. destruct variadic; [|lia].
  unfold sliceTail in Hs. rewrite Hn, Hva in Hs.
  destruct (decide (numIn = 1)) as [->|]; [|lia].
  simpl in Hs. rewrite H0 in Hs. discriminate.
Qed.

Section TaskClaims.

Context {gob : Gob} {rt : Runtime}.

(** C2 (as amended).  Arity.  For a handler with [numIn] declared
    parameters, the arguments [Task] requires are the parameters after
    the context, the variadic one not counted: [numIn - 1] for a non
    variadic handler, [numIn - 2] for a variadic one.  With fewer
    arguments [Task] fails with the too few arguments error; a non
    variadic handler given more fails with the too many arguments error;
    [Task] reports an arity error in these cases only; and when the count
    is exactly the required one (non variadic) or at least the required
    one (variadic), [Task] succeeds on arguments that pass the type
    checks and that gob encodes. *)
Theorem Task_arity p f (v : reflect.Value) numIn variadic args st :
  reachable st -> heap st !! p = Some f -> err f = None -> fv f = Some v ->
  reflect.NumIn (reflect.Type_ v) = Some numIn ->
  reflect.IsVariadic (reflect.Type_ v) = Some variadic ->
  sliceTail (reflect.Type_ v) = true ->
  let required := if variadic then numIn - 2 else numIn - 1 in
  (length args < required ->
     Task p args st =
       (args, Err (ErrTooFewArguments (length args + 1) (required + 1)))) /\
  (variadic = false -> required < length args ->
     Task p args st =
       (args, Err (ErrTooManyArguments (length args + 1) (required + 1)))) /\
  ((exists e, (Task p args st).2 = Err e /\ isArityError e = true) <->
     (length args < required \/ (variadic = false /\ required < length args))) /\
  ((if variadic then required <= length args else length args = required) ->
     admissibleFrom (reflect.Type_ v) 1 args ->
     forall buf,
       Encode (gobTypes st) (mkInvocation (key f) (map normalize args)) = Some buf ->
       Task p args st = (map normalize args, Ok (pb.mkSendTask buf None))).
Proof.
  intros Hr Hp He Hv Hn Hva Hs required.
  destruct (live_minArgs _ _ _ _ _ _ Hr Hp He Hv Hn Hva Hs) as [Hpos Hmin].
  fold required in Hmin.
  pose proof (Task_unfold _ _ _ _ _ args st Hp He Hv Hn Hva) as HT.
  rewrite Hmin in HT.
  replace (required + 1) with (S required) by lia.
  assert (Hfew : length args < required ->
    Task p args st = (args, Err (ErrTooFewArguments (length args + 1) (S required)))).
  { intros Hlt. rewrite HT. rewrite bool_decide_eq_true_2 by lia. done. }
  assert (Hmany : variadic = false -> required < length args ->
    Task p args st = (args, Err (ErrTooManyArguments (length args + 1) (S required)))).
  { intros -> Hlt. rewrite HT. rewrite bool_decide_eq_false_2 by lia.
    simpl. rewrite bool_decide_eq_true_2 by lia. done. }
  split; [done|]. split; [done|]. split.
  - split.
    + intros (e & Hres & Hare).
      destruct (decide (length args < required)) as [|Hnf]; [auto|].
      destruct (decide (variadic = false /\ required < length args)) as [|Hnm];
        [auto|]. exfalso.
      rewrite HT in Hres. rewrite bool_decide_eq_false_2 in Hres by lia.
      assert (Hb : negb variadic && bool_decide (S required < length args + 1) = false).
      { destruct variadic; [done|]. simpl. apply bool_decide_eq_false. intros ?.
        apply Hnm. split; [done|lia]. }
      rewrite Hb in Hres.
      destruct (checkEach (reflect.Type_ v) 1 args) as [out r] eqn:Hc.
      destruct r as [[]|e'|]; simpl in Hres.
      * destruct (Encode _ _); simpl in Hres; [discriminate|].
        injection Hres as <-. discriminate.
      * injection Hres as ->.
        assert (Ht : isTypeError e = true).
        { apply (checkEach_error (reflect.Type_ v) 1 args). now rewrite Hc. }
        destruct e; discriminate.
      * discriminate.
    + intros [Hlt|[Hnv Hlt]].
      * rewrite (Hfew Hlt). eauto.
      * rewrite (Hmany Hnv Hlt). eauto.
  - intros Hcount Hadm buf Henc.
    eapply Task_admissible; eauto.
    apply arityOk_unfold. rewrite Hmin. destruct variadic; split; intros; lia.
Qed.

End TaskClaims.

(** C2, counterexample.  [func(ctx, a int, rest ...string) error] declares
    three parameters; [Task] succeeds with one argument, fewer than three
    minus one.  And [func(ctx, n int) error] given one argument, the
    matching count, fails when that argument is a string. *)
Lemma Task_arity_counterexample :
  reflect.NumIn (reflect.FuncOf [contextType; Ref.int; reflect.SliceOf Ref.string_]
                   true [errorType]) = Some 3 /\
  length [Ref.intV 5] < 3 - 1 /\
  Task (gob := Ref.gob) (rt := Ref.rt) 0 [Ref.intV 5] Ref.stVar
    = ([Ref.intV 5],
       Ok (pb.mkSendTask (mkInvocation "main.go:k" [Ref.intV 5]) None)) /\
  reflect.NumIn (reflect.FuncOf [contextType; Ref.int] false [errorType]) = Some 2 /\
  length [Ref.strV "x"] = 2 - 1 /\
  Task (gob := Ref.gob) (rt := Ref.rt) 0 [Ref.strV "x"] Ref.stInt
    = ([Ref.strV "x"], Err (ErrNotAssignable 1 Ref.string_ Ref.int)).
Proof. repeat split; simpl; lia. Qed.

Lemma Task_arity_witness :
  reachable Ref.stVar /\
  reflect.NumIn (reflect.FuncOf [contextType; Ref.int; reflect.SliceOf Ref.string_]
                   true [errorType]) = Some 3 /\
  Task (gob := Ref.gob) (rt := Ref.rt) 0 [] Ref.stVar
    = ([], Err (ErrTooFewArguments 1 2)) /\
  Task (gob := Ref.gob) (rt := Ref.rt) 0 [Ref.intV 5; Ref.strV "a"] Ref.stVar
    = ([Ref.intV 5; Ref.strV "a"],
       Ok (pb.mkSendTask
             (mkInvocation "main.go:k" [Ref.intV 5; Ref.strV "a"]) None)).
Proof.
  split; [exact reachable_stVar|]. split; [reflexivity|]. split.
  - refine (proj1 (Task_arity (gob := Ref.gob) (rt := Ref.rt) 0 _ _ 3 true [] Ref.stVar
              reachable_stVar eq_refl eq_refl eq_refl eq_refl eq_refl eq_refl) _).
    simpl. lia.
  - refine (proj2 (proj2 (proj2
              (Task_arity (gob := Ref.gob) (rt := Ref.rt) 0 _ _ 3 true
                 [Ref.intV 5; Ref.strV "a"] Ref.stVar
                 reachable_stVar eq_refl eq_refl eq_refl eq_refl eq_refl eq_refl)))
              _ _ _ eq_refl).
    + simpl. lia.
    + intros [|[|[|j]]] a Hj; simpl in Hj; try discriminate;
        injection Hj as <-; eexists; split; reflexivity.
Defined.

Section TaskNil.

Context {gob : Gob} {rt : Runtime}.

(** Past the arity check, the slice [Task] leaves is the one the checks
    leave. *)
Lemma Task_slice p f (v : reflect.Value) numIn variadic args st :
  heap st !! p = Some f -> err f = None -> fv f = Some v ->
  reflect.NumIn (reflect.Type_ v) = Some numIn ->
  reflect.IsVariadic (reflect.Type_ v) = Some variadic ->
  arityOk numIn variadic (length args) = true ->
  (Task p args st).1 = (checkEach (reflect.Type_ v) 1 args).1 /\
  forall e, (checkEach (reflect.Type_ v) 1 args).2 = Err e ->
            (Task p args st).2 = Err e.
Proof.
  intros Hp He Hv Hn Hva Ha.
  rewrite (Task_arityOk _ _ _ _ _ _ _ Hp He Hv Hn Hva Ha).
  destruct (checkEach _ 1 args) as [out [[]|e'|]]; simpl.
  - destruct (Encode _ _); split; done.
  - split; [done|]. now intros e [= <-].
  - split; done.
Qed.

(** C4.  Nilability.  For a handler, arguments of the right count and a
    position [j] that holds nil, [dt] being the declared type there (the
    element type in the variadic tail): when the kind of [dt] is chan,
    func, interface, map, pointer or slice the nil is accepted, and
    [Task] succeeds when the other arguments pass their checks and gob
    encodes the invocation; for any other kind [Task] returns a type
    error and no task, the error being the not nilable one for that
    position when the arguments before it pass their checks. *)
Theorem Task_nil_argument p f (v : reflect.Value) numIn variadic args st j dt :
  heap st !! p = Some f -> err f = None -> fv f = Some v ->
  reflect.NumIn (reflect.Type_ v) = Some numIn ->
  reflect.IsVariadic (reflect.Type_ v) = Some variadic ->
  sliceTail (reflect.Type_ v) = true ->
  arityOk numIn variadic (length args) = true ->
  args !! j = Some None ->
  declaredType (reflect.Type_ v) (S j) = Some dt ->
  (nilableKind (reflect.TKind dt) = true ->
     admissibleFrom (reflect.Type_ v) 1 (take j args) ->
     admissibleFrom (reflect.Type_ v) (S (S j)) (drop (S j) args) ->
     forall buf,
       Encode (gobTypes st) (mkInvocation (key f) (map normalize args)) = Some buf ->
       Task p args st = (map normalize args, Ok (pb.mkSendTask buf None))) /\
  (nilableKind (reflect.TKind dt) = false ->
     (exists e, (Task p args st).2 = Err e /\ isTypeError e = true) /\
     (admissibleFrom (reflect.Type_ v) 1 (take j args) ->
      (Task p args st).2 = Err (ErrNotNilable (S j) dt))).
Proof.
  intros Hp He Hv Hn Hva Hs Ha Hj Hdt.
  assert (Hlen : j < length args) by now apply lookup_lt_Some in Hj.
  split.
  - intros Hk Hpre Hpost buf Henc.
    eapply Task_admissible; eauto.
    intros m a Hm.
    destruct (lt_eq_lt_dec m j) as [[Hlt| ->]|Hgt].
    + apply (Hpre m a). now rewrite lookup_take_lt.
    + rewrite Hj in Hm. injection Hm as <-. exists dt. split; [done|]. exact Hk.
    + destruct (Hpost (m - S j) a) as (d & Hd & Hadm).
      { rewrite lookup_drop. now replace (S j + (m - S j)) with m by lia. }
      exists d. split; [|done].
      now replace (1 + m) with (S (S j) + (m - S j)) by lia.
  - intros Hk.
    destruct (Task_slice _ _ _ _ _ args st Hp He Hv Hn Hva Ha) as [_ Herr].
    split.
    + destruct (checkEach_nil_rejected (reflect.Type_ v) 1 args j dt)
        as (e & Hc & Ht); auto.
      { intros m Hm. eapply declaredType_total; eauto. lia. }
      exists e. split; [auto|done].
    + intros Hpre.
      destruct (checkEach_reach (reflect.Type_ v) 1 args j None dt) as [_ Hc];
        auto.
Qed.

(** C10.  [Task] writes the caller's slice.  For a handler, arguments of
    the right count, and an argument at position [j] that is a nil chan,
    func, map, pointer or slice boxed in a non nil interface: when the
    arguments before it pass their checks, the slice [Task] returns holds
    the nil interface at [j], whatever [Task] gives: a task, or an error
    for this argument or a later one.  The slice keeps its length. *)
Theorem Task_overwrites_typed_nil p f (v : reflect.Value) numIn variadic
    args st j a :
  heap st !! p = Some f -> err f = None -> fv f = Some v ->
  reflect.NumIn (reflect.Type_ v) = Some numIn ->
  reflect.IsVariadic (reflect.Type_ v) = Some variadic ->
  sliceTail (reflect.Type_ v) = true ->
  arityOk numIn variadic (length args) = true ->
  args !! j = Some a -> typedNil a = true ->
  admissibleFrom (reflect.Type_ v) 1 (take j args) ->
  a <> None /\
  (Task p args st).1 !! j = Some None /\
  length (Task p args st).1 = length args.
Proof.
  intros Hp He Hv Hn Hva Hs Ha Hj Hnil Hpre.
  assert (Hlen : j < length args) by now apply lookup_lt_Some in Hj.
  destruct (Task_slice _ _ _ _ _ args st Hp He Hv Hn Hva Ha) as [-> _].
  destruct (declaredType_total (reflect.Type_ v) numIn variadic (length args) (S j))
    as [dt Hdt]; auto.
  destruct (checkEach_reach (reflect.Type_ v) 1 args j a dt) as [Hc _]; auto.
  split; [now destruct a|]. split.
  - rewrite Hc. unfold normalize. now rewrite Hnil.
  - apply checkEach_length.
Qed.

End TaskNil.

Lemma admissibleFrom_nil {rt : Runtime} ft i : admissibleFrom ft i [].
Proof. intros j a Hj. now rewrite lookup_nil in Hj. Qed.

Lemma Task_nil_argument_witness :
  Task (gob := Ref.gob) (rt := Ref.rt) 0 [None; Ref.intV 3] Ref.stPtr
    = ([None; Ref.intV 3],
       Ok (pb.mkSendTask (mkInvocation "main.go:k" [None; Ref.intV 3]) None)) /\
  (Task (gob := Ref.gob) (rt := Ref.rt) 0 [None; None] Ref.stPtr).2
    = Err (ErrNotNilable 2 Ref.int).
Proof.
  split.
  - refine (proj1 (Task_nil_argument (gob := Ref.gob) (rt := Ref.rt)
                     0 _ _ 3 false [None; Ref.intV 3] Ref.stPtr 0 Ref.ptrInt
                     eq_refl eq_refl eq_refl eq_refl eq_refl eq_refl eq_refl
                     eq_refl eq_refl) eq_refl _ _ _ eq_refl).
    + apply admissibleFrom_nil.
    + intros [|j] a Hj; simpl in Hj; [|discriminate].
      injection Hj as <-. eexists; split; reflexivity.
  - refine (proj2 (proj2 (Task_nil_argument (gob := Ref.gob) (rt := Ref.rt)
                     0 _ _ 3 false [None; None] Ref.stPtr 1 Ref.int
                     eq_refl eq_refl eq_refl eq_refl eq_refl eq_refl eq_refl
                     eq_refl eq_refl) eq_refl) _).
    intros [|j] a Hj; simpl in Hj; [|discriminate].
    injection Hj as <-. eexists; split; reflexivity.
Defined.

Lemma Task_overwrites_typed_nil_witness :
  Task (gob := Ref.gob) (rt := Ref.rt) 0 [Ref.nilPtrInt; Ref.strV "x"] Ref.stPtr
    = ([None; Ref.strV "x"], Err (ErrNotAssignable 2 Ref.string_ Ref.int)) /\
  Ref.nilPtrInt <> None /\
  (Task (gob := Ref.gob) (rt := Ref.rt) 0 [Ref.nilPtrInt; Ref.strV "x"] Ref.stPtr).1 !! 0
    = Some None /\
  length (Task (gob := Ref.gob) (rt := Ref.rt) 0
            [Ref.nilPtrInt; Ref.strV "x"] Ref.stPtr).1 = 2.
Proof.
  split; [reflexivity|].
  exact (Task_overwrites_typed_nil (gob := Ref.gob) (rt := Ref.rt)
           0 _ _ 3 false [Ref.nilPtrInt; Ref.strV "x"] Ref.stPtr 0 Ref.nilPtrInt
           eq_refl eq_refl eq_refl eq_refl eq_refl eq_refl eq_refl
           eq_refl eq_refl (admissibleFrom_nil _ _)).
Defined.

(** ** [handleTask] *)

Lemma buildIn_inFrom (ft : reflect.rtype) args in_ :
  buildIn ft args in_ = (app in_) <$> inFrom ft (length in_) args.
Proof.
  revert in_. induction args as [|a rest IH]; intros in_; simpl.
  - now rewrite app_nil_r.
  - assert (Hv : match reflect.ValueOf a with
                 | Some v => Some v
                 | None =>
                     reflect.IsVariadic ft ≫= fun variadic =>
                     reflect.NumIn ft ≫= fun numIn =>
                     (if negb variadic || bool_decide (length in_ < numIn - 1)
                      then reflect.In ft (length in_)
                      else reflect.In ft (numIn - 1) ≫= reflect.Elem)
                     ≫= fun at_ => Some (reflect.Zero at_)
                 end = argValue ft (length in_) a).
    { destruct a as [v|]; simpl; [done|].
      unfold declaredType.
      destruct (reflect.IsVariadic ft) as [va|] eqn:Hva; simpl;
        [|now destruct (reflect.NumIn ft)].
      destruct (reflect.NumIn ft) as [n|] eqn:Hn; simpl; [|done].
      destruct va; simpl; [|now destruct (reflect.In ft _)].
      now destruct (if bool_decide _ then _ else _). }
    rewrite Hv. destruct (argValue ft (length in_) a) as [v|]; simpl; [|done].
    rewrite IH, length_app; simpl.
    replace (length in_ + 1) with (S (length in_)) by lia.
    destruct (inFrom ft (S (length in_)) rest); simpl; [|done].
    now rewrite <- app_assoc.
Qed.

Lemma inFrom_lookup (ft : reflect.rtype) n args ins :
  inFrom ft n args = Some ins ->
  length ins = length args /\
  forall j a, args !! j = Some a -> ins !! j = argValue ft (n + j) a /\ is_Some (ins !! j).
Proof.
  revert n ins. induction args as [|a rest IH]; intros n ins; simpl.
  - intros [= <-]. split; [done|]. intros j b Hj. now rewrite lookup_nil in Hj.
  - destruct (argValue ft n a) as [v|] eqn:Hv; simpl; [|discriminate].
    destruct (inFrom ft (S n) rest) as [vs|] eqn:Hvs; simpl; [|discriminate].
    intros [= <-]. destruct (IH _ _ Hvs) as [Hlen Hl].
    split; [simpl; now rewrite Hlen|].
    intros [|j] b Hj; simpl in Hj.
    + injection Hj as <-. rewrite Nat.add_0_r. simpl. rewrite Hv. eauto.
    + simpl. replace (n + S j) with (S n + j) by lia. auto.
Qed.

Lemma inFrom_total (ft : reflect.rtype) n args :
  (forall j, args !! j = Some None -> is_Some (declaredType ft (n + j))) ->
  is_Some (inFrom ft n args).
Proof.
  revert n. induction args as [|a rest IH]; intros n Hd; simpl; [eauto|].
  assert (Ha : is_Some (argValue ft n a)).
  { destruct a as [v|]; simpl; [eauto|].
    destruct (Hd 0 eq_refl) as [dt Hdt]. rewrite Nat.add_0_r in Hdt.
    rewrite Hdt. simpl. eauto. }
  destruct Ha as [v ->]; simpl.
  destruct (IH (S n)) as [vs ->]; simpl; [|eauto].
  intros j Hj. specialize (Hd (S j) Hj).
  now replace (n + S j) with (S n + j) in Hd by lia.
Qed.

Section Dispatch.

Context {gob : Gob} {rt : Runtime}.

(** [handleTask], case by case. *)
Lemma handleTask_cases ctx (task : pb.Task bytes) st :
  handleTask ctx task st =
    match Decode (gobTypes st) (pb.Payload task) with
    | None => ([], Err ErrCannotDecode)
    | Some inv =>
        match funcs st !! Key inv with
        | None => ([], Err (ErrNoFunc (Key inv)))
        | Some p =>
            match heap st !! p ≫= fv with
            | None => ([], Panic)
            | Some fv0 =>
                match inFrom (reflect.Type_ fv0) 1 (Args inv) with
                | None => ([], Panic)
                | Some ins =>
                    let in_ := context.WithTimeout ctx dispatchTimeout :: ins in
                    ([mkCallEvent fv0 in_],
                     match Value_Call fv0 in_ with
                     | None => Panic
                     | Some out => handlerOutcome (reflect.Type_ fv0) out
                     end)
                end
            end
        end
    end.
Proof.
  unfold handleTask.
  destruct (Decode _ _) as [inv|]; [|done].
  destruct (funcs st !! Key inv) as [p|]; [|done].
  destruct (heap st !! p ≫= fv) as [fv0|]; [|done].
  rewrite buildIn_inFrom. simpl.
  destruct (inFrom _ 1 (Args inv)) as [ins|]; simpl; [|done].
  destruct (Value_Call _ _) as [out|]; [|done].
  unfold handlerOutcome.
  destruct (reflect.NumOut _) as [n|]; [|done].
  destruct (bool_decide (0 < n) && _); [|done].
  destruct (out !! (n - 1)) as [errv|]; [|done].
  now destruct (negb (reflect.IsNil errv)).
Qed.

(** The dispatch of a decoded invocation whose function is found and
    whose nil arguments have a declared type: one call, on the derived
    context followed by the argument values. *)
Lemma handleTask_calls ctx (task : pb.Task bytes) st inv p f fv0 :
  Decode (gobTypes st) (pb.Payload task) = Some inv ->
  funcs st !! Key inv = Some p ->
  heap st !! p = Some f -> fv f = Some fv0 ->
  (forall j, Args inv !! j = Some None ->
             is_Some (declaredType (reflect.Type_ fv0) (S j))) ->
  exists ins,
    inFrom (reflect.Type_ fv0) 1 (Args inv) = Some ins /\
    handleTask ctx task st =
      ([mkCallEvent fv0 (context.WithTimeout ctx dispatchTimeout :: ins)],
       match Value_Call fv0 (context.WithTimeout ctx dispatchTimeout :: ins) with
       | None => Panic
       | Some out => handlerOutcome (reflect.Type_ fv0) out
       end).
Proof.
  intros Hd Hk Hp Hv Hdecl.
  destruct (inFrom_total (reflect.Type_ fv0) 1 (Args inv)) as [ins Hins]; [done|].
  exists ins. split; [done|].
  rewrite handleTask_cases, Hd, Hk, Hp. simpl. rewrite Hv, Hins. done.
Qed.

(** A dispatch that made a call decoded an invocation, found its
    function, and called it. *)
Lemma handleTask_called ctx (task : pb.Task bytes) st ev evs r :
  handleTask ctx task st = (ev :: evs, r) ->
  exists inv p f ins,
    Decode (gobTypes st) (pb.Payload task) = Some inv /\
    funcs st !! Key inv = Some p /\
    heap st !! p = Some f /\ fv f = Some (callee ev) /\
    inFrom (reflect.Type_ (callee ev)) 1 (Args inv) = Some ins /\
    call_in ev = context.WithTimeout ctx dispatchTimeout :: ins /\
    evs = [] /\
    r = match Value_Call (callee ev) (call_in ev) with
        | None => Panic
        | Some out => handlerOutcome (reflect.Type_ (callee ev)) out
        end.
Proof.
  rewrite handleTask_cases.
  destruct (Decode _ _) as [inv|]; [|discriminate].
  destruct (funcs st !! Key inv) as [p|] eqn:Hk; [|discriminate].
  destruct (heap st !! p) as [f|] eqn:Hp; simpl; [|discriminate].
  destruct (fv f) as [fv0|] eqn:Hv; [|discriminate].
  destruct (inFrom _ 1 (Args inv)) as [ins|] eqn:Hins; [|discriminate].
  simpl. intros [= <- <- <-]. simpl.
  exists inv, p, f, ins. repeat split; auto.
Qed.

End Dispatch.

(** ** Encoding, then dispatch *)

Section RoundTrip.

Context {gob : Gob} {rt : Runtime}.

(** C1.  Round trip.  In a state of the process, when [Task] builds a
    task from [args], the dispatch by [handleTask] of a queue task with
    that payload either gets the cannot decode error from gob and calls
    no handler, or makes one handler call: the function [Task] was called
    on, with the context derived from the dispatch context as argument 0
    and then one value for each element of [args]: where [Task]
    normalized the argument to nil (it was nil, or a typed nil), the zero
    value of the type declared at that position; otherwise the value gob
    decodes for the argument, which is the argument itself when gob gives
    that value back as it went. *)
Theorem Task_handleTask_round_trip ctx p args args' task (t : pb.Task bytes) st :
  reachable st ->
  Task p args st = (args', Ok task) ->
  pb.Payload t = pb.SendTask_Payload task ->
  (Decode (gobTypes st) (pb.Payload t) = None /\
   handleTask ctx t st = ([], Err ErrCannotDecode)) \/
  exists f fv0 ins,
    heap st !! p = Some f /\ fv f = Some fv0 /\
    handleTask ctx t st =
      ([mkCallEvent fv0 (context.WithTimeout ctx dispatchTimeout :: ins)],
       match Value_Call fv0 (context.WithTimeout ctx dispatchTimeout :: ins) with
       | None => Panic
       | Some out => handlerOutcome (reflect.Type_ fv0) out
       end) /\
    length ins = length args /\
    forall j a, args !! j = Some a ->
      match normalize a with
      | Some v =>
          a = Some v /\
          (exists w, transmits v w /\ ins !! j = Some w) /\
          ((forall w, transmits v w -> w = v) -> ins !! j = Some v)
      | None =>
          exists dt, declaredType (reflect.Type_ fv0) (S j) = Some dt /\
                     ins !! j = Some (reflect.Zero dt)
      end.
Proof.
  intros Hr HT Hpay.
  destruct (Task_Ok_inv _ _ _ _ _ HT)
    as (f & v & numIn & variadic & Hp & He & Hv & Hn & Hva & Ha & Hadm & -> & Henc & _).
  pose proof (reachable_wf _ Hr) as Hwf.
  pose proof (wf_live _ Hwf _ _ Hp He) as Hk.
  rewrite <- Hpay in Henc.
  destruct (Decode (gobTypes st) (pb.Payload t)) as [inv'|] eqn:Hd.
  2:{ left. split; [done|]. now rewrite handleTask_cases, Hd. }
  right.
  destruct (Decode_Encode _ _ _ _ Henc Hd) as [Hkey Hargs]. simpl in Hkey, Hargs.
  rewrite <- Hkey in Hk.
  pose proof (Forall2_length _ _ _ Hargs) as Hlen'. rewrite length_map in Hlen'.
  assert (Hsame : forall j a, args !! j = Some a ->
            exists y, Args inv' !! j = Some y /\
                      option_Forall2 transmits (normalize a) y).
  { intros j a Haj.
    apply (Forall2_lookup_l _ _ _ j (normalize a)) in Hargs; [done|].
    now rewrite list_lookup_fmap, Haj. }
  destruct (handleTask_calls ctx t st _ p f v Hd Hk Hp Hv) as (ins & Hins & Hh).
  { intros j Hj.
    destruct (args !! j) as [a|] eqn:Haj.
    - destruct (Hadm j a Haj) as (dt & Hdt & _). simpl in Hdt. eauto.
    - apply lookup_lt_Some in Hj. apply lookup_ge_None in Haj. lia. }
  destruct (inFrom_lookup _ _ _ _ Hins) as [Hlen Hl].
  exists f, v, ins. split; [done|]. split; [done|]. split; [done|].
  split; [lia|].
  intros j a Haj.
  destruct (Hsame j a Haj) as (y & Hy & Hrel).
  destruct (Hl j y Hy) as [Hij _].
  destruct (Hadm j a Haj) as (dt & Hdt & _). simpl in Hdt, Hij.
  remember (normalize a) as na eqn:Hna.
  destruct Hrel as [v0 w Hvw|]; simpl in Hij.
  - assert (Ha0 : a = Some v0).
    { unfold normalize in Hna. now destruct (typedNil a). }
    split; [done|]. split; [exists w; done|].
    intros Hex. now rewrite Hij, (Hex w Hvw).
  - exists dt. split; [done|]. now rewrite Hij, Hdt.
Qed.


(** C7.  Handler result.  For a dispatch that called the handler, the
    call having returned one value for each declared result: when the
    last declared result type is [error], [handleTask] fails, with the
    handler failed error, exactly when the last value returned is not nil,
    and succeeds otherwise; when there is no result or the last result
    type is not [error], it succeeds.  The other values returned are not
    looked at. *)
Theorem handleTask_result ctx (task : pb.Task bytes) st ev r out :
  handleTask ctx task st = ([ev], r) ->
  Value_Call (callee ev) (call_in ev) = Some out ->
  reflect.NumOut (reflect.Type_ (callee ev)) = Some (length out) ->
  (lastOut (reflect.Type_ (callee ev)) = Some errorType ->
     exists errv, last out = Some errv /\
       (reflect.IsNil errv = false -> r = Err (ErrHandlerFailed errv)) /\
       (reflect.IsNil errv = true -> r = Ok ())) /\
  (lastOut (reflect.Type_ (callee ev)) <> Some errorType -> r = Ok ()).
Proof.
  intros Hh Hcall Hn.
  destruct (handleTask_called _ _ _ _ _ _ Hh)
    as (inv & p & f & ins & _ & _ & _ & _ & _ & _ & _ & ->).
  rewrite Hcall. unfold handlerOutcome, lastOut. rewrite Hn.
  destruct out as [|o out'] using rev_ind; simpl.
  - split; [discriminate|done].
  - clear IHout'. rewrite length_app; simpl.
    replace (length out' + 1) with (S (length out')) by lia. simpl.
    rewrite Nat.sub_0_r.
    rewrite last_snoc, lookup_app_r by lia. rewrite Nat.sub_diag. simpl.
    destruct (reflect.Out _ (length out')) as [t0|] eqn:Ht0; simpl.
    + destruct (reflect.rtype_eqb t0 errorType) eqn:E.
      * apply rtype_eqb_eq in E; subst t0. split; [|congruence].
        intros _. exists o. split; [done|].
        destruct (reflect.IsNil o); simpl; split; congruence.
      * split; [|done]. intros [= ->]. now rewrite rtype_eqb_refl in E.
    + split; [discriminate|done].
Qed.

End RoundTrip.

Lemma reachable_stSlice : reachable Wire.stSlice.
Proof. apply reachable_register, reachable_init. Qed.

Lemma Task_handleTask_round_trip_witness :
  let args := [Wire.nilStrings; Ref.intV 3] in
  let sent := pb.mkSendTask (mkInvocation "main.go:k" [None; Ref.intV 3]) None in
  Task (gob := Wire.gob) (rt := Ref.rt) 0 args Wire.stSlice
    = ([None; Ref.intV 3], Ok sent) /\
  (handleTask (gob := Wire.gob) (rt := Ref.rt) Ref.background
     (Ref.deliver "t1" sent) Wire.stSlice).1
    = [mkCallEvent
         (reflect.mkValue
            (reflect.FuncOf [contextType; Wire.strings; Ref.int] false [errorType])
            (reflect.DRef 4))
         [context.WithTimeout Ref.background dispatchTimeout;
          reflect.Zero Wire.strings;
          reflect.mkValue Ref.int (reflect.DNum 3)]] /\
  exists fv0 ins,
    (handleTask (gob := Wire.gob) (rt := Ref.rt) Ref.background
       (Ref.deliver "t1" sent) Wire.stSlice).1
      = [mkCallEvent fv0 (context.WithTimeout Ref.background dispatchTimeout :: ins)] /\
    length ins = length args /\
    ins !! 1 = Some (reflect.mkValue Ref.int (reflect.DNum 3)).
Proof.
  intros args sent. split; [reflexivity|]. split; [reflexivity|].
  destruct (Task_handleTask_round_trip (gob := Wire.gob) (rt := Ref.rt)
              Ref.background 0 args [None; Ref.intV 3] sent
              (Ref.deliver "t1" sent) Wire.stSlice
              reachable_stSlice eq_refl eq_refl)
    as [[Hd _] | (f & fv0 & ins & _ & _ & Hh & Hlen & Hargs)].
  - discriminate Hd.
  - exists fv0, ins. split; [exact (f_equal fst Hh)|]. split; [exact Hlen|].
    destruct (Hargs 1 (Ref.intV 3) eq_refl) as (_ & _ & Hex).
    apply Hex. intros w Hw. exact Hw.
Defined.

(** C1, counterexample.  [func(ctx, s []string, n int) error] is
    registered and [Task] is given [[]string{}] and 3.  Both pass the
    checks and neither is a typed nil, so the slice is encoded as it is;
    gob decodes a slice of length 0 into the nil slice, and the handler
    is called with a nil slice where the caller passed a slice that is
    not nil. *)
Lemma Task_handleTask_round_trip_counterexample :
  let args := [Wire.emptyStrings; Ref.intV 3] in
  let sent := pb.mkSendTask (mkInvocation "main.go:k" args) None in
  reachable Wire.stSlice /\
  map normalize args = args /\
  Task (gob := Wire.gob) (rt := Ref.rt) 0 args Wire.stSlice = (args, Ok sent) /\
  handleTask (gob := Wire.gob) (rt := Ref.rt) Ref.background
    (Ref.deliver "t1" sent) Wire.stSlice
    = ([mkCallEvent
          (reflect.mkValue
             (reflect.FuncOf [contextType; Wire.strings; Ref.int] false [errorType])
             (reflect.DRef 4))
          [context.WithTimeout Ref.background dispatchTimeout;
           reflect.mkValue Wire.strings reflect.DNil;
           reflect.mkValue Ref.int (reflect.DNum 3)]],
       Ok ()) /\
  reflect.IsNil (reflect.mkValue Wire.strings (reflect.DSeq [])) = false /\
  reflect.IsNil (reflect.mkValue Wire.strings reflect.DNil) = true /\
  Some (reflect.mkValue Wire.strings reflect.DNil) <> Wire.emptyStrings.
Proof.
  intros args sent. split; [exact reachable_stSlice|].
  repeat (split; [reflexivity|]). discriminate.
Qed.


Lemma handleTask_result_witness :
  let task := Ref.deliver "t1"
                (pb.mkSendTask (mkInvocation "main.go:k" [Ref.intV 5]) None) in
  (handleTask (gob := Ref.gob) (rt := Ref.rtFail) Ref.background task Ref.stInt).2
    = Err (ErrHandlerFailed Ref.someError) /\
  (handleTask (gob := Ref.gob) (rt := Ref.rt) Ref.background task Ref.stInt).2
    = Ok ().
Proof.
  intros task. split.
  - destruct (handleTask_result (gob := Ref.gob) (rt := Ref.rtFail)
                Ref.background task Ref.stInt
                (mkCallEvent
                   (reflect.mkValue (reflect.FuncOf [contextType; Ref.int] false [errorType])
                      (reflect.DRef 1))
                   [context.WithTimeout Ref.background dispatchTimeout;
                    reflect.mkValue Ref.int (reflect.DNum 5)])
                (handleTask (gob := Ref.gob) (rt := Ref.rtFail)
                   Ref.background task Ref.stInt).2
                [Ref.someError] eq_refl eq_refl eq_refl) as [H _].
    destruct (H eq_refl) as (errv & Hlast & Hfail & _).
    injection Hlast as <-. exact (Hfail eq_refl).
  - destruct (handleTask_result (gob := Ref.gob) (rt := Ref.rt)
                Ref.background task Ref.stInt
                (mkCallEvent
                   (reflect.mkValue (reflect.FuncOf [contextType; Ref.int] false [errorType])
                      (reflect.DRef 1))
                   [context.WithTimeout Ref.background dispatchTimeout;
                    reflect.mkValue Ref.int (reflect.DNum 5)])
                (handleTask (gob := Ref.gob) (rt := Ref.rt)
                   Ref.background task Ref.stInt).2
                [reflect.Zero errorType] eq_refl eq_refl eq_refl) as [H _].
    destruct (H eq_refl) as (errv & Hlast & _ & Hok).
    injection Hlast as <-. exact (Hok eq_refl).
Defined.

(** ** The registry *)

(** What [Func] allocates. *)
Lemma Func_new k file i st p st' :
  wf st -> Func k file i st = Some (p, st') ->
  p = length (heap st) /\ length (heap st') = S p /\
  exists f, heap st' !! p = Some f /\ key f = derivedKey k file /\ fv f = i /\
            (err f = None <-> handlerShape i).
Proof.
  intros [Hf _] H.
  destruct (Func_inv _ _ _ _ _ _ H) as (v & -> & -> & [(e & E & ->)|(E & reg & ->)]);
    simpl; (split; [done|]).
  - split; [rewrite length_app; simpl; lia|].
    eexists. split; [rewrite lookup_app_r by lia; now rewrite Nat.sub_diag|].
    simpl. repeat split; try done.
    intros Hs. apply shapeError_None in Hs. congruence.
  - assert (Hnew : forall e, markOld e (funcs st !! derivedKey k file)
                     (heap st ++ [mkFunction (Some v) (derivedKey k file) None])
                     !! length (heap st)
                   = Some (mkFunction (Some v) (derivedKey k file) None)).
    { intros e. destruct (funcs st !! derivedKey k file) as [q|] eqn:Hq; simpl.
      - destruct (Hf _ _ Hq) as (vq & Hvq & _). apply lookup_lt_Some in Hvq.
        rewrite list_lookup_alter_ne by lia.
        rewrite lookup_app_r by lia. now rewrite Nat.sub_diag.
      - rewrite lookup_app_r by lia. now rewrite Nat.sub_diag. }
    split.
    + destruct (funcs st !! derivedKey k file); simpl;
        rewrite ?length_alter, length_app; simpl; lia.
    + eexists. split; [apply Hnew|]. simpl. repeat split; try done.
      intros _. now apply shapeError_None.
Qed.

(** A [Function] keeps its address, its key and its value. *)
Lemma Func_heap_mono k file i st p st' q f :
  Func k file i st = Some (p, st') ->
  heap st !! q = Some f ->
  length (heap st) <= length (heap st') /\
  exists f', heap st' !! q = Some f' /\ key f' = key f /\ fv f' = fv f.
Proof.
  intros H Hq.
  assert (Hlt : q < length (heap st)) by now apply lookup_lt_Some in Hq.
  destruct (Func_inv _ _ _ _ _ _ H) as (v & -> & -> & [(e & E & ->)|(E & reg & ->)]);
    simpl.
  - split; [rewrite length_app; lia|]. exists f. now rewrite lookup_app_l.
  - split.
    { destruct (funcs st !! _); simpl; rewrite ?length_alter, length_app; lia. }
    destruct (funcs st !! derivedKey k file) as [old|]; simpl.
    + destruct (decide (old = q)) as [->|Hne].
      * rewrite list_lookup_alter_eq, lookup_app_l, Hq by done. simpl. eauto.
      * rewrite list_lookup_alter_ne, lookup_app_l by done. eauto.
    + rewrite lookup_app_l by done. eauto.
Qed.

Lemma later_heap_mono st0 st q f :
  later st0 st -> heap st0 !! q = Some f ->
  length (heap st0) <= length (heap st) /\
  exists f', heap st !! q = Some f' /\ key f' = key f /\ fv f' = fv f.
Proof.
  intros Hl Hq. induction Hl as [|k file i st p st' Hl IH HF]; [eauto|].
  destruct IH as (Hlen & f' & Hf' & Hk & Hv).
  destruct (Func_heap_mono _ _ _ _ _ _ _ _ HF Hf') as (Hlen' & f'' & Hf'' & Hk' & Hv').
  split; [lia|]. exists f''. split; [done|]. split; congruence.
Qed.

(** C8.  [Func] given the nil interface does not return a [Function] that
    carries an error: [reflect.ValueOf(nil)] is the zero Value and
    [f.fv.Type()] panics on it, whatever the key, the file and the state
    of the process. *)
Theorem Func_nil_panics k file st : Func k file None st = None.
Proof. reflexivity. Qed.

Section Registry.

Context {gob : Gob} {rt : Runtime}.

(** C6 (as amended).  Duplicate registration.  In a process, after a
    call of [Func] that returned the [Function] at [p1], and any
    registrations since, a
    call of [Func] on a well shaped handler that derives the same key
    (the file and the short name joined by a colon) returns a [Function]
    at another address [p2]; the registry then maps the key to [p2], the
    [Function] at [p2] has no error and [Task] on it succeeds on
    arguments that fit, while the [Function] at [p1] holds an error that
    every [Task] on it returns from then on, whatever is registered
    later. *)
Theorem duplicate_registration k1 file1 i1 k2 file2 (v2 : reflect.Value)
    st0 p1 st1 st2 p2 st3 :
  reachable st0 ->
  Func k1 file1 i1 st0 = Some (p1, st1) ->
  later st1 st2 ->
  handlerShape (Some v2) ->
  (file2 ++ ":" ++ k2)%string = (file1 ++ ":" ++ k1)%string ->
  Func k2 file2 (Some v2) st2 = Some (p2, st3) ->
  p1 <> p2 /\
  funcs st3 !! (file1 ++ ":" ++ k1)%string = Some p2 /\
  heap st3 !! p2 = Some (mkFunction (Some v2) (file2 ++ ":" ++ k2)%string None) /\
  (forall numIn variadic args buf,
     reflect.NumIn (reflect.Type_ v2) = Some numIn ->
     reflect.IsVariadic (reflect.Type_ v2) = Some variadic ->
     arityOk numIn variadic (length args) = true ->
     admissibleFrom (reflect.Type_ v2) 1 args ->
     Encode (gobTypes st3)
       (mkInvocation (file2 ++ ":" ++ k2)%string (map normalize args)) = Some buf ->
     Task p2 args st3 = (map normalize args, Ok (pb.mkSendTask buf None))) /\
  exists f1 e,
    heap st3 !! p1 = Some f1 /\ err f1 = Some e /\
    forall st4 args, later st3 st4 -> Task p1 args st4 = (args, Err e).
Proof.
  intros Hr H1 Hl Hs Hkey H2.
  fold (derivedKey k1 file1) in *. fold (derivedKey k2 file2) in *.
  pose proof (reachable_wf _ Hr) as Hwf0.
  pose proof (Func_wf _ _ _ _ _ _ Hwf0 H1) as Hwf1.
  pose proof (later_wf _ _ Hwf1 Hl) as Hwf2.
  pose proof (Func_wf _ _ _ _ _ _ Hwf2 H2) as Hwf3.
  destruct (Func_new _ _ _ _ _ _ Hwf0 H1) as (-> & Hlen1 & f1 & Hf1 & Hk1 & _ & _).
  destruct (later_heap_mono _ _ _ _ Hl Hf1) as (Hlen2 & f1' & Hf1' & Hk1' & _).
  destruct (Func_new _ _ _ _ _ _ Hwf2 H2) as (-> & Hlen3 & f2 & Hf2 & Hk2 & Hv2 & He2).
  assert (Hne : length (heap st0) <> length (heap st2)) by lia.
  assert (Hf2' : heap st3 !! length (heap st2)
                 = Some (mkFunction (Some v2) (derivedKey k2 file2) None)).
  { rewrite Hf2. destruct f2 as [fv2 key2 err2]; simpl in *.
    f_equal. f_equal; [done..|]. now apply He2. }
  assert (Hreg : funcs st3 !! derivedKey k1 file1 = Some (length (heap st2))).
  { destruct (Func_inv _ _ _ _ _ _ H2)
      as (v & [= <-] & _ & [(e & E & _)|(_ & reg & ->)]).
    - apply shapeError_None in Hs. congruence.
    - simpl. rewrite Hkey. apply lookup_insert_eq. }
  split; [done|]. split; [done|]. split; [done|]. split.
  - intros numIn variadic args buf Hn Hva Ha Hadm Henc.
    eapply (Task_admissible _ _ v2); eauto.
  - assert (Herr : exists f e, heap st3 !! length (heap st0) = Some f /\ err f = Some e).
    { destruct (err f1') as [e|] eqn:He1.
      - exists f1', e. split; [|done].
        exact (Func_keeps_errored _ _ _ _ _ _ _ _ _ Hwf2 H2 Hf1' He1).
      - pose proof (wf_live _ Hwf2 _ _ Hf1' He1) as Hold.
        rewrite Hk1', Hk1, <- Hkey in Hold.
        destruct (Func_inv _ _ _ _ _ _ H2)
          as (v & [= <-] & _ & [(e & E & _)|(_ & reg & ->)]).
        + apply shapeError_None in Hs. congruence.
        + simpl. rewrite Hold. simpl.
          rewrite list_lookup_alter_eq, lookup_app_l, Hf1'
            by (now apply lookup_lt_Some in Hf1').
          simpl. eauto. }
    destruct Herr as (f & e & Hf & He). exists f, e.
    split; [done|]. split; [done|].
    intros st4 args Hl4.
    eapply Task_errored; [|exact He].
    exact (later_keeps_errored _ _ _ _ _ Hwf3 Hl4 Hf He).
Qed.

(** C9 (as amended).  The registry is well formed.  (1) In every state of
    the process an entry of [funcs] points to a [Function] of that key
    whose value is of function kind with [context.Context] as first
    parameter.  (2) A call of [Func] on a value that fails a shape check
    returns a [Function] and leaves [funcs] as it was; no entry of
    [funcs] points to that [Function], then or later; and from then on
    the dispatch of an invocation with the key of that call returns the
    no func with key error as long as no entry holds the key, and in any
    case calls only a value that has the required shape. *)
Theorem registry_well_formed :
  (forall st k p, reachable st -> funcs st !! k = Some p ->
     exists f v,
       heap st !! p = Some f /\ key f = k /\ fv f = Some v /\
       reflect.TKind (reflect.Type_ v) = reflect.Func /\
       reflect.In (reflect.Type_ v) 0 = Some contextType) /\
  (forall st k file (v : reflect.Value),
     reachable st -> ~ handlerShape (Some v) ->
     exists p st',
       Func k file (Some v) st = Some (p, st') /\
       funcs st' = funcs st /\
       forall st'', later st' st'' ->
         (forall k', funcs st'' !! k' <> Some p) /\
         forall ctx (t : pb.Task bytes) inv,
           Decode (gobTypes st'') (pb.Payload t) = Some inv ->
           Key inv = (file ++ ":" ++ k)%string ->
           (funcs st'' !! (file ++ ":" ++ k)%string = None ->
            handleTask ctx t st'' = ([], Err (ErrNoFunc (file ++ ":" ++ k)%string))) /\
           (forall ev, ev ∈ (handleTask ctx t st'').1 ->
                       handlerShape (Some (callee ev)))).
Proof.
  split.
  - intros st k p Hr Hk.
    destruct (wf_funcs _ (reachable_wf _ Hr) _ _ Hk) as (v & Hv & v' & [= <-] & Hkind & H0).
    eexists _, v. repeat split; eauto.
  - intros st k file v Hr Hns.
    destruct (shapeError (reflect.Type_ v)) as [e|] eqn:E;
      [|now apply shapeError_None in E].
    pose proof (Func_bad k file v st e E) as HF.
    pose proof (reachable_wf _ Hr) as Hwf.
    pose proof (Func_wf _ _ _ _ _ _ Hwf HF) as Hwf'.
    eexists _, _. split; [exact HF|]. split; [reflexivity|].
    intros st'' Hl. pose proof (later_wf _ _ Hwf' Hl) as Hwf''.
    assert (Hp : heap st'' !! length (heap st)
                 = Some (mkFunction (Some v) (derivedKey k file) (Some e))).
    { refine (later_keeps_errored _ _ _
                (mkFunction (Some v) (derivedKey k file) (Some e)) e
                Hwf' Hl _ eq_refl).
      simpl. rewrite lookup_app_r by lia. now rewrite Nat.sub_diag. }
    split.
    + intros k' Hk'.
      destruct (wf_funcs _ Hwf'' _ _ Hk') as (v' & Hv' & _).
      rewrite Hp in Hv'. discriminate.
    + intros ctx t inv Hd Hkey. split.
      * intros Hnone. rewrite handleTask_cases, Hd, Hkey. simpl. now rewrite Hnone.
      * intros ev Hev.
        destruct (handleTask ctx t st'') as [evs r] eqn:Hh. simpl in Hev.
        destruct evs as [|ev' evs]; [now apply elem_of_nil in Hev|].
        destruct (handleTask_called _ _ _ _ _ _ Hh)
          as (inv' & p & f & ins & _ & Hk & Hp' & Hv & _ & _ & -> & _).
        apply list_elem_of_singleton in Hev. subst ev'.
        destruct (wf_funcs _ Hwf'' _ _ Hk) as (v' & Hv' & Hs).
        rewrite Hp' in Hv'. injection Hv' as ->. simpl in Hv.
        injection Hv as <-. exact Hs.
Qed.

End Registry.

Lemma duplicate_registration_witness :
  funcs Ref.stDup !! "main.go:k" = Some 1 /\
  Task (gob := Ref.gob) (rt := Ref.rt) 0 [Ref.intV 5] Ref.stDup
    = ([Ref.intV 5], Err (ErrMultipleFunctions "k" "main.go")) /\
  Task (gob := Ref.gob) (rt := Ref.rt) 1 [Ref.intV 5] Ref.stDup
    = ([Ref.intV 5], Ok (pb.mkSendTask (mkInvocation "main.go:k" [Ref.intV 5]) None)) /\
  exists f1 e,
    heap Ref.stDup !! 0 = Some f1 /\ err f1 = Some e /\
    forall st4 args, later Ref.stDup st4 ->
      Task (gob := Ref.gob) (rt := Ref.rt) 0 args st4 = (args, Err e).
Proof.
  assert (Hs : handlerShape
                 (Some (reflect.mkValue
                          (reflect.FuncOf [contextType; Ref.int; reflect.SliceOf Ref.string_]
                             true [errorType]) (reflect.DRef 2)))).
  { eexists. split; [reflexivity|]. split; reflexivity. }
  destruct (duplicate_registration (gob := Ref.gob) (rt := Ref.rt)
              "k" "main.go" Ref.hInt "k" "main.go" _
              init 0 Ref.stInt Ref.stInt 1 Ref.stDup
              reachable_init eq_refl (later_refl _) Hs eq_refl eq_refl)
    as (_ & Hreg & _ & _ & Hold).
  split; [exact Hreg|]. split; [reflexivity|]. split; [reflexivity|]. exact Hold.
Defined.

(** C9, counterexample.  [hInt] is registered from [main.go] under [k];
    [Func] is then called from [main.go] with the integer 42 under [k].
    This call fails the first shape check: its [Function], at address 1,
    holds the not a function error and has the key [main.go:k].  The
    dispatch of an invocation with that key does not return the no func
    with key error: it calls [hInt] and succeeds. *)
Lemma registry_shadowed_key :
  ~ handlerShape (Ref.intV 42) /\
  Func "k" "main.go" (Ref.intV 42) Ref.stInt = Some (1, Ref.stShadow) /\
  heap Ref.stShadow !! 1
    = Some (mkFunction (Ref.intV 42) "main.go:k" (Some ErrNotAFunction)) /\
  handleTask (gob := Ref.gob) (rt := Ref.rt) Ref.background
    (Ref.deliver "t1" (pb.mkSendTask (mkInvocation "main.go:k" [Ref.intV 5]) None))
    Ref.stShadow
  = ([mkCallEvent
        (reflect.mkValue (reflect.FuncOf [contextType; Ref.int] false [errorType])
           (reflect.DRef 1))
        [context.WithTimeout Ref.background dispatchTimeout;
         reflect.mkValue Ref.int (reflect.DNum 5)]],
     Ok ()).
Proof.
  split; [|repeat split].
  intros (v & [= <-] & Hk & _). discriminate.
Qed.

Lemma not_handlerShape_int : ~ handlerShape (Ref.intV 42).
Proof. intros (v & [= <-] & Hk & _). discriminate. Qed.

Lemma registry_well_formed_witness :
  (exists f v,
     heap Ref.stInt !! 0 = Some f /\ key f = "main.go:k" /\ fv f = Some v /\
     reflect.TKind (reflect.Type_ v) = reflect.Func /\
     reflect.In (reflect.Type_ v) 0 = Some contextType) /\
  exists p st',
    Func "k" "main.go" (Ref.intV 42) init = Some (p, st') /\
    funcs st' = funcs init /\
    handleTask (gob := Ref.gob) (rt := Ref.rt) Ref.background
      (Ref.deliver "t1" (pb.mkSendTask (mkInvocation "main.go:k" [Ref.intV 5]) None))
      st'
    = ([], Err (ErrNoFunc "main.go:k")).
Proof.
  destruct (registry_well_formed (gob := Ref.gob) (rt := Ref.rt)) as [H1 H2].
  split.
  - exact (H1 Ref.stInt "main.go:k" 0 reachable_stInt eq_refl).
  - destruct (H2 init "k" "main.go" _ reachable_init not_handlerShape_int)
      as (p & st' & HF & Hfuncs & Hlater).
    exists p, st'. split; [exact HF|]. split; [exact Hfuncs|].
    destruct (Hlater st' (later_refl _)) as [_ Hd].
    injection HF as <- <-.
    exact (proj1 (Hd Ref.background
                    (Ref.deliver "t1"
                       (pb.mkSendTask (mkInvocation "main.go:k" [Ref.intV 5]) None))
                    (mkInvocation "main.go:k" [Ref.intV 5]) eq_refl eq_refl)
             eq_refl).
Defined.

(** ** The streaming branch *)

Section Streaming.

Context {gob : Gob} {rt : Runtime}.
Variable lis : Listener.
Variable queue : QueueSpec.
Variable st : State.
Variable ctx : reflect.Value.
Variable stream_Send : pb.ListenRequest -> bool.


Lemma acks_map_ack (l : list (pb.Task bytes)) :
  acks (map (fun t => pb.ListenRequest_Ack (ackOf st ctx t)) l) = map (ackOf st ctx) l.
Proof. induction l as [|t l IH]; simpl; [done|]. unfold acks in *. simpl. now rewrite IH. Qed.

Lemma runTask_returned task s :
  returned st ctx task ->
  runTask lis st ctx stream_Send task s =
    mkStream (inbox s) (receiving s) (running s)
      (sent s ++ [pb.ListenRequest_Ack (ackOf st ctx task)])
      (calls s ++ (handleTask ctx task st).1)
      (reported s ++
         match (handleTask ctx task st).2 with
         | Err e => if sentryClient lis then [e] else []
         | _ => []
         end)
      (if stream_Send (pb.ListenRequest_Ack (ackOf st ctx task)) then failure s
       else first_error (failure s) ErrCannotAck)
      (crashed s).
Proof.
  unfold returned, runTask, ackOf, succeeded, ack.
  destruct (handleTask ctx task st) as [evs [[]|e|]]; simpl; [done|done|].
  intros H. now elim H.
Qed.

Lemma runTask_panic task s :
  ~ returned st ctx task -> crashed (runTask lis st ctx stream_Send task s) = true.
Proof.
  unfold returned, runTask.
  destruct (handleTask ctx task st) as [evs [[]|e|]]; simpl; [| |done];
    intros H; elim H; discriminate.
Qed.

Lemma step_inv script s s' pre done_ :
  stream_inv queue st ctx script s pre done_ -> step lis st ctx stream_Send s s' -> crashed s' = false ->
  exists pre' done', stream_inv queue st ctx script s' pre' done'.
Proof.
  intros (Hscript & Hperm & Hsent & Hret) Hstep Hc.
  destruct Hstep as [task rest s _ _ Hin | rest s _ _ Hin | before task after s _ Hrun].
  - exists (pre ++ [Some task]), done_. repeat split; simpl; auto.
    + now rewrite Hscript, Hin, <- app_assoc.
    + rewrite omap_app; simpl. rewrite Hperm. now rewrite app_assoc.
  - exists (pre ++ [None]), done_. repeat split; simpl; auto.
    + now rewrite Hscript, Hin, <- app_assoc.
    + rewrite omap_app; simpl. now rewrite app_nil_r.
  - assert (Hp : returned st ctx task).
    { intros Hp. rewrite runTask_panic in Hc; [discriminate|].
      intros H. now apply H. }
    rewrite (runTask_returned _ _ Hp). simpl.
    exists pre, (done_ ++ [task]). repeat split; simpl; auto.
    + rewrite Hperm, Hrun. rewrite <- app_assoc. simpl.
      apply Permutation_app_head. symmetry. apply Permutation_middle.
    + rewrite Hsent, map_app. done.
    + apply Forall_app. split; [done|]. now constructor.
Qed.

Lemma steps_inv script s :
  steps lis st ctx stream_Send (listening queue script) s -> crashed s = false ->
  exists pre done_, stream_inv queue st ctx script s pre done_.
Proof.
  remember (listening queue script) as s0 eqn:Hs0.
  induction 1 as [|s1 s2 s3 H12 IH H23]; intros Hc.
  - subst. exists [], []. repeat split; simpl; auto.
  - assert (crashed s2 = false) by (destruct H23; done).
    destruct (IH Hs0) as (pre & done_ & Hinv); [done|].
    eapply step_inv; eauto.
Qed.

(** C3 (as amended).  Streaming acknowledgment.  Whatever the order in
    which the goroutines of the streaming branch run, as long as no
    dispatch has
    panicked: (1) the tasks received so far are the tasks done and the
    tasks whose goroutine has not run yet; the dispatch of every task
    done has returned; and the acknowledgements sent on the stream are
    exactly one for each task done, in the order they ended, each with
    the code of its task and with success true exactly when [handleTask]
    returned no error for it; nothing else is sent after the initial
    message.  (2) The goroutine of a running task whose dispatch returns
    can run, and sends the acknowledgement of the task; it leaves the
    inbox and the receiving loop as they were.  (3) In particular a task
    goroutine whose dispatch returns an error and whose acknowledgement
    goes through sends success false and puts no error in the group: the
    receiving loop then receives the next task of the inbox. *)
Theorem streaming_acknowledgment script s :
  steps lis st ctx stream_Send (listening queue script) s -> crashed s = false ->
  (exists done_,
     received script s ≡ₚ done_ ++ running s /\
     Forall (returned st ctx) done_ /\
     acks (sent s) = map (ackOf st ctx) done_ /\
     (forall t, pb.Ack_Code (ackOf st ctx t) = pb.Code t /\
                (pb.Success (ackOf st ctx t) = true <-> (handleTask ctx t st).2 = Ok ())) /\
     sent s = initial queue :: map pb.ListenRequest_Ack (acks (sent s))) /\
  (forall before task after,
     running s = before ++ task :: after ->
     returned st ctx task ->
     exists s1,
       step lis st ctx stream_Send s s1 /\ crashed s1 = false /\
       running s1 = before ++ after /\
       sent s1 = sent s ++ [pb.ListenRequest_Ack (ackOf st ctx task)] /\
       inbox s1 = inbox s /\ receiving s1 = receiving s) /\
  (forall before task after e next rest,
     running s = before ++ task :: after ->
     (handleTask ctx task st).2 = Err e ->
     stream_Send (pb.ListenRequest_Ack (pb.mkAck (pb.Code task) false)) = true ->
     receiving s = true -> inbox s = Some next :: rest ->
     exists s1 s2,
       step lis st ctx stream_Send s s1 /\ crashed s1 = false /\ failure s1 = failure s /\
       acks (sent s1) = acks (sent s) ++ [pb.mkAck (pb.Code task) false] /\
       step lis st ctx stream_Send s1 s2 /\ running s2 = before ++ after ++ [next]).
Proof.
  intros Hsteps Hc. split.
  - destruct (steps_inv _ _ Hsteps Hc) as (pre & done_ & Hscript & Hperm & Hsent & Hret).
    exists done_.
    assert (Hrec : received script s = omap id pre).
    { unfold received. rewrite Hscript, length_app.
      replace (length pre + length (inbox s) - length (inbox s)) with (length pre) by lia.
      now rewrite take_app_length. }
    assert (Hacks : acks (sent s) = map (ackOf st ctx) done_).
    { rewrite Hsent. unfold acks at 1. simpl. apply acks_map_ack. }
    split; [now rewrite Hrec|]. split; [done|]. split; [done|]. split.
    + intros t. split; [done|]. unfold ackOf, succeeded. simpl.
      destruct ((handleTask ctx t st).2) as [[]|e|]; split; congruence.
    + rewrite Hacks, Hsent. f_equal. now rewrite map_map.
  - split.
    { intros before task after Hrun Hp.
      eexists. split; [eapply step_task; eauto|].
      rewrite (runTask_returned _ _ Hp). simpl. repeat split; done. }
    intros before task after e next rest Hrun He Hsend Hrecv Hin.
    assert (Hp : returned st ctx task).
    { unfold returned. rewrite He. discriminate. }
    assert (Hack : ackOf st ctx task = pb.mkAck (pb.Code task) false).
    { unfold ackOf, succeeded. now rewrite He. }
    eexists _, _. split; [eapply step_task; eauto|].
    rewrite (runTask_returned _ _ Hp). simpl. rewrite Hack, Hsend.
    split; [done|]. split; [done|]. split.
    { unfold acks. rewrite omap_app. done. }
    split.
    + eapply step_recv; simpl; eauto.
    + simpl. now rewrite <- app_assoc.
Qed.

End Streaming.

Lemma streaming_acknowledgment_witness :
  exists s,
    steps (gob := Ref.gob) (rt := Ref.rt) Ref.lis Ref.stInt Ref.background Ref.sendAll
      (listening (gob := Ref.gob) Ref.queue [Some Ref.taskInt; Some Ref.taskUnknown]) s /\
    crashed s = false /\
    sent s = [initial Ref.queue;
              pb.ListenRequest_Ack (pb.mkAck "t2" false);
              pb.ListenRequest_Ack (pb.mkAck "t1" true)] /\
    exists done_,
      received (gob := Ref.gob) [Some Ref.taskInt; Some Ref.taskUnknown] s ≡ₚ done_ ++ running s /\
      acks (sent s) = map (ackOf (gob := Ref.gob) (rt := Ref.rt) Ref.stInt Ref.background) done_.
Proof.
  eexists. split.
  - eapply steps_step; [eapply steps_step; [eapply steps_step;
      [eapply steps_step; [apply steps_refl|]|]|]|].
    + eapply step_recv; reflexivity.
    + eapply step_recv; reflexivity.
    + eapply (step_task (gob := Ref.gob) (rt := Ref.rt) _ _ _ _ [Ref.taskInt] Ref.taskUnknown []); reflexivity.
    + eapply (step_task (gob := Ref.gob) (rt := Ref.rt) _ _ _ _ [] Ref.taskInt []); reflexivity.
  - split; [reflexivity|]. split; [reflexivity|].
    match goal with
    | |- exists done_, received _ ?s ≡ₚ _ /\ _ =>
        destruct (streaming_acknowledgment (gob := Ref.gob) (rt := Ref.rt)
                    Ref.lis Ref.queue Ref.stInt Ref.background Ref.sendAll
                    [Some Ref.taskInt; Some Ref.taskUnknown] s)
          as [(done_ & Hperm & _ & Hacks & _) _]
    end.
    + eapply steps_step; [eapply steps_step; [eapply steps_step;
        [eapply steps_step; [apply steps_refl|]|]|]|].
      * eapply step_recv; reflexivity.
      * eapply step_recv; reflexivity.
      * eapply (step_task (gob := Ref.gob) (rt := Ref.rt) _ _ _ _ [Ref.taskInt] Ref.taskUnknown []); reflexivity.
      * eapply (step_task (gob := Ref.gob) (rt := Ref.rt) _ _ _ _ [] Ref.taskInt []); reflexivity.
    + reflexivity.
    + exists done_. split; [exact Hperm|exact Hacks].
Defined.

(** C3, counterexample.  The handler panics.  The task is received and
    its goroutine runs: the dispatch calls the handler, the panic ends the
    process, and no acknowledgement for the task is ever sent: nothing but
    the initial message is on the stream and no step is left. *)
Lemma streaming_panic_no_ack :
  exists s,
    steps (gob := Ref.gob) (rt := Ref.rtPanic)
      Ref.lis Ref.stInt Ref.background Ref.sendAll
      (listening (gob := Ref.gob) Ref.queue [Some Ref.taskInt]) s /\
    received (gob := Ref.gob) [Some Ref.taskInt] s = [Ref.taskInt] /\
    running s = [] /\
    calls s = [mkCallEvent
                 (reflect.mkValue (reflect.FuncOf [contextType; Ref.int] false [errorType])
                    (reflect.DRef 1))
                 [context.WithTimeout Ref.background dispatchTimeout;
                  reflect.mkValue Ref.int (reflect.DNum 5)]] /\
    sent s = [initial Ref.queue] /\
    acks (sent s) = [] /\
    forall s', ~ step (gob := Ref.gob) (rt := Ref.rtPanic)
                 Ref.lis Ref.stInt Ref.background Ref.sendAll s s'.
Proof.
  eexists. split.
  - eapply steps_step; [eapply steps_step; [apply steps_refl|]|].
    + eapply step_recv; reflexivity.
    + eapply (step_task (gob := Ref.gob) (rt := Ref.rtPanic) _ _ _ _ [] Ref.taskInt []);
        reflexivity.
  - repeat split. intros s' Hstep. inversion Hstep; discriminate.
Qed.

(** C6, counterexample.  [hInt] is registered from [main.go] under [k];
    [Func] is then called from [main.go] under [k] with the integer 42.
    Both calls derive the key [main.go:k].  The later call does not
    overwrite the entry, which still points to the earlier [Function];
    the later [Function] is not usable, [Task] on it returns the not a
    function error; and the earlier one is not marked, [Task] on it
    builds a task. *)
Lemma duplicate_key_bad_shape :
  Func "k" "main.go" Ref.hInt init = Some (0, Ref.stInt) /\
  Func "k" "main.go" (Ref.intV 42) Ref.stInt = Some (1, Ref.stShadow) /\
  funcs Ref.stShadow !! "main.go:k" = Some 0 /\
  Task (gob := Ref.gob) (rt := Ref.rt) 1 [Ref.intV 5] Ref.stShadow
    = ([Ref.intV 5], Err ErrNotAFunction) /\
  (err <$> heap Ref.stShadow !! 0) = Some None /\
  Task (gob := Ref.gob) (rt := Ref.rt) 0 [Ref.intV 5] Ref.stShadow
    = ([Ref.intV 5],
       Ok (pb.mkSendTask (mkInvocation "main.go:k" [Ref.intV 5]) None)).
Proof. repeat split. Qed.

(** * Further properties *)

(** ** [Func]: what a registration changes *)

(** [Func] on a well shaped handler, with the types it registers. *)
Lemma Func_good_reg k file (v : reflect.Value) st :
  shapeError (reflect.Type_ v) = None ->
  exists n reg,
    reflect.NumIn (reflect.Type_ v) = Some n /\
    registerArgs (reflect.Type_ v) n 0 (gobTypes st) = Some reg /\
    Func k file (Some v) st =
      Some (length (heap st),
            mkState
              (markOld (ErrMultipleFunctions k file)
                 (funcs st !! derivedKey k file)
                 (heap st ++ [mkFunction (Some v) (derivedKey k file) None]))
              (<[derivedKey k file := length (heap st)]> (funcs st))
              reg).
Proof.
  intros E. pose proof E as E'.
  unfold shapeError in E.
  case_bool_decide as Hk; [|discriminate].
  destruct (TKind_Func_sig _ Hk) as (n & va & m & Hn & _ & _).
  destruct (registerArgs_total _ n n 0 (gobTypes st) Hn) as [reg Hreg]; [lia|].
  exists n, reg. split; [done|]. split; [done|].
  destruct (Func_good k file v st E') as [reg' HF]. rewrite HF.
  unfold Func in HF. simpl in HF.
  rewrite bool_decide_eq_true_2 in HF by done. simpl in HF.
  rewrite Hn in HF. simpl in HF.
  destruct (reflect.In _ 0) as [t0|] eqn:Ht0; [|discriminate].
  destruct (reflect.rtype_eqb t0 contextType) eqn:E0; [|discriminate].
  destruct (In_Some_NumIn _ _ _ Ht0) as (n' & Hn' & Hlt).
  assert (n' = n) by congruence; subst n'.
  rewrite bool_decide_eq_false_2 in HF by lia. simpl in HF.
  rewrite Hreg in HF. simpl in HF. rewrite ?E0 in HF. simpl in HF.
  apply (f_equal (fun o => (fun ps => gobTypes ps.2) <$> o)) in HF.
  simpl in HF. injection HF as <-. done.
Qed.

Lemma existsb_rtype_eqb (t : reflect.rtype) reg :
  existsb (reflect.rtype_eqb t) reg = true <-> t ∈ reg.
Proof.
  rewrite existsb_exists. split.
  - intros (x & Hx & E). apply rtype_eqb_eq in E. subst.
    now apply list_elem_of_In.
  - intros H. exists t. split; [now apply list_elem_of_In|apply rtype_eqb_refl].
Qed.

(** The registration loop adds the types of the parameters that are not
    of interface kind, once each. *)
Lemma registerArgs_elem (t : reflect.rtype) todo i reg reg' :
  registerArgs t todo i reg = Some reg' ->
  (NoDup reg -> NoDup reg') /\
  forall t', t' ∈ reg' <->
    t' ∈ reg \/
    exists j, i <= j < i + todo /\ reflect.In t j = Some t' /\
              reflect.TKind t' <> reflect.Interface.
Proof.
  revert i reg. induction todo as [|todo IH]; intros i reg; simpl.
  - intros [= <-]. split; [done|]. intros t'. split; [auto|].
    intros [?|(j & ? & _)]; [done|lia].
  - destruct (reflect.In t i) as [ti|] eqn:Hti; simpl; [|discriminate].
    case_bool_decide as Hk.
    + intros H. destruct (IH _ _ H) as [Hnd Hel]. split; [done|].
      intros t'. rewrite Hel. split.
      * intros [?|(j & ? & ? & ?)]; [auto|]. right. exists j. split; [lia|done].
      * intros [?|(j & Hj & Hin & Hkj)]; [auto|].
        destruct (decide (j = i)) as [->|].
        -- congruence.
        -- right. exists j. split; [lia|done].
    + unfold gob_Register. rewrite (TypeOf_Zero _ Hk). simpl.
      intros H. destruct (IH _ _ H) as [Hnd Hel].
      assert (Hreg : forall t', t' ∈ (if existsb (reflect.rtype_eqb ti) reg
                                      then reg else reg ++ [ti])
                                <-> t' ∈ reg \/ t' = ti).
      { intros t'. destruct (existsb _ reg) eqn:E.
        - apply existsb_rtype_eqb in E. split; [auto|]. intros [?| ->]; done.
        - rewrite elem_of_app, list_elem_of_singleton. done. }
      split.
      * intros Hn. apply Hnd. destruct (existsb _ reg) eqn:E; [done|].
        apply NoDup_app. split; [done|]. split; [|apply NoDup_singleton].
        intros x Hx Hx'. apply list_elem_of_singleton in Hx'. subst.
        apply existsb_rtype_eqb in Hx. congruence.
      * intros t'. rewrite Hel, Hreg. split.
        -- intros [[?| ->]|(j & ? & ? & ?)]; [auto| |].
           ++ right. exists i. split; [lia|done].
           ++ right. exists j. split; [lia|done].
        -- intros [?|(j & Hj & Hin & Hkj)]; [auto|].
           destruct (decide (j = i)) as [->|].
           ++ left. right. congruence.
           ++ right. exists j. split; [lia|done].
Qed.

(** X1.  A registration allocates one [Function], at a new address, and
    writes at most one of the others: the one the registry held under the
    derived key, whose [err] becomes the multiple functions error; this
    happens only when the new handler is well shaped.  Every other
    [Function] is left as it is. *)
Theorem Func_heap_frame k file i st p st' :
  reachable st -> Func k file i st = Some (p, st') ->
  p = length (heap st) /\ length (heap st') = S (length (heap st)) /\
  forall q f, heap st !! q = Some f ->
    heap st' !! q = Some f \/
    (handlerShape i /\ funcs st !! (file ++ ":" ++ k)%string = Some q /\
     err f = None /\
     heap st' !! q
       = Some (mkFunction (fv f) (key f) (Some (ErrMultipleFunctions k file)))).
Proof.
  intros Hr H. pose proof (reachable_wf _ Hr) as Hwf.
  destruct (Func_new _ _ _ _ _ _ Hwf H) as (-> & Hlen & _).
  split; [done|]. split; [done|].
  intros q f Hq.
  assert (Hlt : q < length (heap st)) by now apply lookup_lt_Some in Hq.
  destruct (Func_inv _ _ _ _ _ _ H) as (v & -> & _ & [(e & E & ->)|(E & reg & ->)]);
    simpl.
  - left. now rewrite lookup_app_l.
  - fold (derivedKey k file).
    destruct (funcs st !! derivedKey k file) as [old|] eqn:Hold; simpl.
    + destruct (decide (old = q)) as [->|Hne].
      * right. split; [now apply shapeError_None|]. split; [done|].
        destruct (wf_funcs _ Hwf _ _ Hold) as (vo & Hvo & _).
        rewrite Hq in Hvo. injection Hvo as ->. simpl. split; [done|].
        rewrite list_lookup_alter_eq, lookup_app_l, Hq by done. done.
      * left. rewrite list_lookup_alter_ne, lookup_app_l by done. done.
    + left. now rewrite lookup_app_l.
Qed.

(** X2.  A registration never removes or redirects the entry of another
    key; it sets the entry of its own key, to the new [Function], exactly
    when the handler is well shaped, and otherwise leaves the whole
    registry as it was. *)
Theorem Func_registry_frame k file i st p st' :
  reachable st -> Func k file i st = Some (p, st') ->
  (forall k', k' <> (file ++ ":" ++ k)%string -> funcs st' !! k' = funcs st !! k') /\
  (handlerShape i -> funcs st' !! (file ++ ":" ++ k)%string = Some p) /\
  (~ handlerShape i -> funcs st' = funcs st) /\
  (forall k', is_Some (funcs st !! k') -> is_Some (funcs st' !! k')).
Proof.
  intros Hr H. fold (derivedKey k file).
  destruct (Func_inv _ _ _ _ _ _ H) as (v & -> & -> & [(e & E & ->)|(E & reg & ->)]);
    simpl.
  - split; [done|]. split; [|done].
    intros Hs. apply shapeError_None in Hs. congruence.
  - split; [intros k' Hk'; now rewrite lookup_insert_ne|].
    split; [intros _; apply lookup_insert_eq|].
    split; [intros Hns; elim Hns; now apply shapeError_None|].
    intros k' Hk'. destruct (decide (derivedKey k file = k')) as [<-|Hne].
    + rewrite lookup_insert_eq. eauto.
    + now rewrite lookup_insert_ne.
Qed.

(** X3.  At any time at most one [Function] without error has a given
    key: two usable [Function] of the same key are the same object, the
    one the registry maps the key to. *)
Theorem one_usable_Function_per_key st p q f g :
  reachable st ->
  heap st !! p = Some f -> heap st !! q = Some g ->
  err f = None -> err g = None -> key f = key g ->
  p = q /\ funcs st !! key f = Some p.
Proof.
  intros Hr Hp Hq Hf Hg Hk. pose proof (reachable_wf _ Hr) as Hwf.
  pose proof (wf_live _ Hwf _ _ Hp Hf) as H1.
  pose proof (wf_live _ Hwf _ _ Hq Hg) as H2.
  rewrite <- Hk in H2. split; [congruence|done].
Qed.

(** The types known to gob are listed once. *)
Lemma reachable_gobTypes_NoDup st : reachable st -> NoDup (gobTypes st).
Proof.
  induction 1 as [|k file i st p st' Hr IH HF]; [constructor|].
  destruct (Func_inv _ _ _ _ _ _ HF) as (v & -> & -> & [(e & E & ->)|(E & reg & Hst)]);
    [done|].
  destruct (Func_good_reg k file v st E) as (n & reg' & Hn & Hreg & HF').
  rewrite HF' in HF. injection HF as <-. simpl.
  now apply (registerArgs_elem _ _ _ _ _ Hreg).
Qed.

(** X4.  The types a registration gives to gob.  A well shaped handler
    adds exactly the types of its declared parameters that are not of
    interface kind, to the types known before, each listed once; so the
    context parameter is never registered, and for a variadic handler it
    is the slice type of the last parameter that is registered, its
    element type only if it is known already or is itself the type of a
    parameter.  A call that fails a shape check registers nothing. *)
Theorem Func_gob_types k file (v : reflect.Value) st p st' :
  reachable st -> Func k file (Some v) st = Some (p, st') ->
  NoDup (gobTypes st') /\
  (~ handlerShape (Some v) -> gobTypes st' = gobTypes st) /\
  (handlerShape (Some v) ->
   forall t', t' ∈ gobTypes st' <->
     t' ∈ gobTypes st \/
     exists j, reflect.In (reflect.Type_ v) j = Some t' /\
               reflect.TKind t' <> reflect.Interface).
Proof.
  intros Hr H. split.
  { apply reachable_gobTypes_NoDup. eapply reachable_Func; eauto. }
  destruct (shapeError (reflect.Type_ v)) as [e|] eqn:E.
  - rewrite (Func_bad _ _ _ _ _ E) in H. injection H as <- <-. simpl.
    split; [done|]. intros Hs. apply shapeError_None in Hs. congruence.
  - split; [intros Hns; elim Hns; now apply shapeError_None|]. intros _.
    destruct (Func_good_reg k file v st E) as (n & reg & Hn & Hreg & HF).
    rewrite HF in H. injection H as <- <-. simpl.
    destruct (registerArgs_elem _ _ _ _ _ Hreg) as [_ Hel].
    intros t'. rewrite Hel. split.
    + intros [?|(j & _ & ? & ?)]; eauto.
    + intros [?|(j & Hj & Hkj)]; [auto|]. right. exists j.
      destruct (In_Some_NumIn _ _ _ Hj) as (n' & Hn' & Hlt).
      assert (n' = n) by congruence; subst. split; [lia|done].
Qed.

Lemma reachable_stDup : reachable Ref.stDup.
Proof. apply reachable_register, reachable_stInt. Qed.

Lemma handlerShape_hVar : handlerShape Ref.hVar.
Proof. eexists. split; [reflexivity|]. split; reflexivity. Qed.

Lemma Func_heap_frame_witness :
  1 = length (heap Ref.stInt) /\ length (heap Ref.stDup) = 2 /\
  (heap Ref.stDup !! 0 = heap Ref.stInt !! 0 \/
   heap Ref.stDup !! 0
     = Some (mkFunction Ref.hInt "main.go:k"
               (Some (ErrMultipleFunctions "k" "main.go")))).
Proof.
  destruct (Func_heap_frame "k" "main.go" Ref.hVar Ref.stInt 1 Ref.stDup
              reachable_stInt eq_refl) as (Hp & Hlen & Hframe).
  split; [exact Hp|]. split; [exact Hlen|].
  destruct (Hframe 0 _ eq_refl) as [H|(_ & _ & _ & H)]; [left|right]; exact H.
Defined.

Lemma Func_registry_frame_witness :
  funcs Ref.stDup !! "main.go:k" = Some 1 /\
  funcs Ref.stDup !! "main.go:other" = funcs Ref.stInt !! "main.go:other".
Proof.
  destruct (Func_registry_frame "k" "main.go" Ref.hVar Ref.stInt 1 Ref.stDup
              reachable_stInt eq_refl) as (Hother & Hown & _ & _).
  split; [exact (Hown handlerShape_hVar)|].
  apply Hother. discriminate.
Defined.

Lemma one_usable_Function_per_key_witness :
  1 = 1 /\ funcs Ref.stDup !! "main.go:k" = Some 1.
Proof.
  exact (one_usable_Function_per_key Ref.stDup 1 1 _ _ reachable_stDup
           eq_refl eq_refl eq_refl eq_refl eq_refl).
Defined.

Lemma Func_gob_types_witness :
  NoDup (gobTypes Ref.stVar) /\
  reflect.SliceOf Ref.string_ ∈ gobTypes Ref.stVar.
Proof.
  destruct (Func_gob_types "k" "main.go" _ init 0 Ref.stVar
              reachable_init (eq_refl : Func "k" "main.go" Ref.hVar init = _))
    as (Hnd & _ & Hel).
  split; [exact Hnd|].
  apply (Hel handlerShape_hVar). right. exists 2. split; [reflexivity|discriminate].
Defined.

(** ** The derived key *)

Lemma append_inj_r (a b c : string) : (a +:+ b)%string = (a +:+ c)%string -> b = c.
Proof. induction a as [|x a IH]; simpl; [done|]. intros [= H]. auto. Qed.

Lemma append_assoc (a b c : string) :
  ((a +:+ b) +:+ c = a +:+ (b +:+ c))%string.
Proof.
  induction a as [|x a IH]; [done|].
  change (String x ((a +:+ b) +:+ c) = String x (a +:+ (b +:+ c)))%string.
  now rewrite IH.
Qed.

(** X5.  The key of a registration is the file, a colon and the short
    name.  From one file, two short names give the same key only when
    they are equal; but the key does not separate the file from the short
    name: a short name with a colon collides with a shorter name
    registered from a file whose path ends with its first part. *)
Theorem derived_key_collisions :
  (forall k file i st p st',
     reachable st -> Func k file i st = Some (p, st') ->
     key <$> heap st' !! p = Some (file +:+ ":" +:+ k)%string) /\
  (forall file k1 k2,
     (file +:+ ":" +:+ k1 = file +:+ ":" +:+ k2)%string <-> k1 = k2) /\
  (forall a b c,
     (a +:+ ":" +:+ (b +:+ ":" +:+ c) = (a +:+ ":" +:+ b) +:+ ":" +:+ c)%string).
Proof.
  split; [|split].
  - intros k file i st p st' Hr H.
    destruct (Func_new _ _ _ _ _ _ (reachable_wf _ Hr) H)
      as (_ & _ & f & -> & Hk & _). simpl. now rewrite Hk.
  - intros file k1 k2. split; [|now intros ->].
    intros H. apply append_inj_r in H. now injection H.
  - intros a b c. rewrite !append_assoc. done.
Qed.

Lemma derived_key_collisions_witness :
  key <$> heap Ref.stInt !! 0 = Some "main.go:k".
Proof.
  exact (proj1 derived_key_collisions "k" "main.go" Ref.hInt init 0 Ref.stInt
           reachable_init eq_refl).
Defined.

(** ** Registration, then dispatch *)

Section Latest.

Context {gob : Gob} {rt : Runtime}.

(** X6.  Dispatch goes to the latest registration.  Once [Func] has
    registered a well shaped handler, the dispatch of an invocation that
    carries its key calls that handler, whether or not the key was held
    by another handler before, on the derived context followed by one
    value for each argument of the invocation (the argument, or the zero
    value of the declared type for a nil one), provided every nil
    argument is at a position that has a declared type. *)
Theorem dispatch_latest_registration k file (v : reflect.Value) st p st'
    ctx (t : pb.Task bytes) inv :
  reachable st -> handlerShape (Some v) ->
  Func k file (Some v) st = Some (p, st') ->
  Decode (gobTypes st') (pb.Payload t) = Some inv ->
  Key inv = (file +:+ ":" +:+ k)%string ->
  (forall j, Args inv !! j = Some None ->
             is_Some (declaredType (reflect.Type_ v) (S j))) ->
  exists ins,
    (handleTask ctx t st').1
      = [mkCallEvent v (context.WithTimeout ctx dispatchTimeout :: ins)] /\
    length ins = length (Args inv) /\
    forall j a, Args inv !! j = Some a ->
      ins !! j = match a with
                 | Some w => Some w
                 | None => reflect.Zero <$> declaredType (reflect.Type_ v) (S j)
                 end.
Proof.
  intros Hr Hs HF Hd Hkey Hdecl.
  pose proof (reachable_wf _ Hr) as Hwf.
  destruct (Func_new _ _ _ _ _ _ Hwf HF) as (Hp & _ & f & Hf & Hk & Hv & He).
  assert (Hreg : funcs st' !! Key inv = Some p).
  { rewrite Hkey. fold (derivedKey k file).
    destruct (Func_inv _ _ _ _ _ _ HF)
      as (v' & [= <-] & _ & [(e & E & _)|(_ & reg & ->)]).
    - apply shapeError_None in Hs. congruence.
    - simpl. rewrite Hp. apply lookup_insert_eq. }
  destruct (handleTask_calls ctx t st' inv p f v Hd Hreg Hf Hv Hdecl)
    as (ins & Hins & Hh).
  destruct (inFrom_lookup _ _ _ _ Hins) as [Hlen Hl].
  exists ins. rewrite Hh. split; [done|]. split; [done|].
  intros j a Hj. destruct (Hl j a Hj) as [-> _]. now destruct a.
Qed.

End Latest.

Lemma dispatch_latest_registration_witness :
  exists ins,
    (handleTask (gob := Ref.gob) (rt := Ref.rt) Ref.background
       (Ref.deliver "t1"
          (pb.mkSendTask (mkInvocation "main.go:k" [Ref.intV 5; Ref.strV "a"]) None))
       Ref.stDup).1
    = [mkCallEvent
         (reflect.mkValue
            (reflect.FuncOf [contextType; Ref.int; reflect.SliceOf Ref.string_]
               true [errorType]) (reflect.DRef 2))
         (context.WithTimeout Ref.background dispatchTimeout :: ins)] /\
    length ins = 2.
Proof.
  destruct (dispatch_latest_registration (gob := Ref.gob) (rt := Ref.rt)
              "k" "main.go" _ Ref.stInt 1 Ref.stDup Ref.background
              (Ref.deliver "t1"
                 (pb.mkSendTask
                    (mkInvocation "main.go:k" [Ref.intV 5; Ref.strV "a"]) None))
              (mkInvocation "main.go:k" [Ref.intV 5; Ref.strV "a"])
              reachable_stInt handlerShape_hVar eq_refl eq_refl eq_refl)
    as (ins & Hh & Hlen & _).
  - intros [|[|j]] Hj; simpl in Hj; discriminate.
  - exists ins. split; [exact Hh|exact Hlen].
Defined.

(** ** [Function.Task]: what the checks report and what they leave *)

Section TaskMore.

Context {gob : Gob} {rt : Runtime}.

(** The checks leave each argument as it is or, for a typed nil, as the
    nil interface. *)
Lemma checkEach_frame ft i rest j a :
  rest !! j = Some a ->
  (checkEach ft i rest).1 !! j = Some a \/
  (typedNil a = true /\ (checkEach ft i rest).1 !! j = Some None).
Proof.
  revert i j. induction rest as [|b rest IH]; intros i j Hj.
  - now rewrite lookup_nil in Hj.
  - simpl. destruct (declaredType ft i) as [dt|]; [|left; exact Hj].
    assert (Hhead : j = 0 -> b = a) by (intros ->; simpl in Hj; congruence).
    assert (Hn : normalize b = b \/ (typedNil b = true /\ normalize b = None)).
    { unfold normalize. destruct (typedNil b); auto. }
    destruct b as [v|].
    + destruct (AssignableTo _ dt).
      * destruct (checkEach ft (S i) rest) as [out r] eqn:Hc. simpl.
        destruct j as [|j]; simpl in *.
        -- rewrite <- (Hhead eq_refl). destruct Hn as [-> | [? ->]]; auto.
        -- specialize (IH (S i) j Hj). now rewrite Hc in IH.
      * simpl. destruct j as [|j]; simpl in *.
        -- rewrite <- (Hhead eq_refl). destruct Hn as [-> | [? ->]]; auto.
        -- auto.
    + destruct (nilableKind _).
      * destruct (checkEach ft (S i) rest) as [out r] eqn:Hc. simpl.
        destruct j as [|j]; simpl in *; [auto|].
        specialize (IH (S i) j Hj). now rewrite Hc in IH.
      * simpl. left. exact Hj.
Qed.

(** The checks stop at the first argument that is not admissible. *)
Lemma checkEach_first_error ft i rest e :
  (checkEach ft i rest).2 = Err e ->
  exists j a dt,
    rest !! j = Some a /\ declaredType ft (i + j) = Some dt /\
    admissible dt a = false /\
    admissibleFrom ft i (take j rest) /\
    e = match a with
        | Some w => ErrNotAssignable (i + j) (reflect.Type_ w) dt
        | None => ErrNotNilable (i + j) dt
        end.
Proof.
  revert i. induction rest as [|b rest IH]; intros i; simpl; [discriminate|].
  destruct (declaredType ft i) as [dt|] eqn:Hdt; [|discriminate].
  assert (Hhere : admissible dt b = false ->
            e = match b with
                | Some w => ErrNotAssignable i (reflect.Type_ w) dt
                | None => ErrNotNilable i dt
                end ->
            exists j a dt0,
              (b :: rest) !! j = Some a /\ declaredType ft (i + j) = Some dt0 /\
              admissible dt0 a = false /\
              admissibleFrom ft i (take j (b :: rest)) /\
              e = match a with
                  | Some w => ErrNotAssignable (i + j) (reflect.Type_ w) dt0
                  | None => ErrNotNilable (i + j) dt0
                  end).
  { intros Hb He. exists 0, b, dt. rewrite Nat.add_0_r. simpl.
    repeat split; auto. apply admissibleFrom_nil. }
  assert (Hnext : admissible dt b = true ->
            (checkEach ft (S i) rest).2 = Err e ->
            exists j a dt0,
              (b :: rest) !! j = Some a /\ declaredType ft (i + j) = Some dt0 /\
              admissible dt0 a = false /\
              admissibleFrom ft i (take j (b :: rest)) /\
              e = match a with
                  | Some w => ErrNotAssignable (i + j) (reflect.Type_ w) dt0
                  | None => ErrNotNilable (i + j) dt0
                  end).
  { intros Hb Hr. destruct (IH _ Hr) as (j & a & d & Hj & Hd & Ha & Hpre & He).
    exists (S j), a, d. replace (i + S j) with (S i + j) by lia.
    repeat split; auto. simpl.
    intros [|m] c Hm; simpl in Hm.
    - injection Hm as <-. exists dt. now rewrite Nat.add_0_r.
    - destruct (Hpre m c Hm) as (d' & Hd' & Hc). exists d'.
      split; [|done]. now replace (i + S m) with (S i + m) by lia. }
  destruct b as [v|]; simpl in Hhere, Hnext.
  - destruct (AssignableTo _ dt).
    + destruct (checkEach ft (S i) rest); simpl in *. auto.
    + simpl. intros [= <-]. auto.
  - destruct (nilableKind _).
    + destruct (checkEach ft (S i) rest); simpl in *. auto.
    + simpl. intros [= <-]. auto.
Qed.


(** The slice [Task] returns is the caller's, or the one the checks
    leave. *)
Lemma Task_slice_cases p args st :
  (Task p args st).1 = args \/
  exists ft, (Task p args st).1 = (checkEach ft 1 args).1.
Proof.
  destruct (heap st !! p) as [f|] eqn:Hp;
    [|left; unfold Task; now rewrite Hp].
  destruct (err f) as [e|] eqn:He;
    [left; unfold Task; now rewrite Hp, He|].
  destruct (fv f) as [v|] eqn:Hv;
    [|left; unfold Task; now rewrite Hp, He, Hv].
  destruct (reflect.NumIn (reflect.Type_ v)) as [numIn|] eqn:Hn;
    [|left; unfold Task; now rewrite Hp, He, Hv, Hn].
  destruct (reflect.IsVariadic (reflect.Type_ v)) as [variadic|] eqn:Hva;
    [|left; unfold Task; now rewrite Hp, He, Hv, Hn, Hva].
  rewrite (Task_unfold _ _ _ _ _ _ _ Hp He Hv Hn Hva).
  destruct (bool_decide _); [auto|].
  destruct (negb variadic && _); [auto|].
  right. exists (reflect.Type_ v).
  destruct (checkEach _ 1 args) as [out [[]|e|]]; simpl; [|done..].
  now destruct (Encode _ _).
Qed.

(** X7.  [Task] writes nothing but nil over typed nils.  On every path,
    whatever the [Function], the arguments and the outcome, the slice
    keeps its length, and each element is left as it was or, when it was
    a nil chan, func, map, pointer or slice boxed in a non nil interface,
    replaced by the nil interface. *)
Theorem Task_slice_frame p args st :
  length (Task p args st).1 = length args /\
  forall j a, args !! j = Some a ->
    (Task p args st).1 !! j = Some a \/
    (typedNil a = true /\ (Task p args st).1 !! j = Some None).
Proof.
  destruct (Task_slice_cases p args st) as [-> | [ft ->]].
  - split; [done|]. auto.
  - split; [apply checkEach_length|]. intros j a Hj. now apply checkEach_frame.
Qed.

(** X8.  When [Task] succeeds, and only then: the [Function] has no
    error, the number of arguments passes the arity check, every argument
    passes the check against its declared type, and gob encodes the
    invocation made of the key and the normalized arguments; the task
    holds what gob returned and no [MinEta], and the slice is left
    normalized. *)
Theorem Task_Ok_iff p args args' task st :
  Task p args st = (args', Ok task) <->
  exists f v numIn variadic,
    heap st !! p = Some f /\ err f = None /\ fv f = Some v /\
    reflect.NumIn (reflect.Type_ v) = Some numIn /\
    reflect.IsVariadic (reflect.Type_ v) = Some variadic /\
    arityOk numIn variadic (length args) = true /\
    admissibleFrom (reflect.Type_ v) 1 args /\
    args' = map normalize args /\
    Encode (gobTypes st) (mkInvocation (key f) (map normalize args))
      = Some (pb.SendTask_Payload task) /\
    pb.SendTask_MinEta task = None.
Proof.
  split.
  - intros H. destruct (Task_Ok_inv _ _ _ _ _ H)
      as (f & v & n & va & ? & ? & ? & ? & ? & ? & ? & -> & ? & ?).
    exists f, v, n, va. repeat split; auto.
  - intros (f & v & n & va & Hp & He & Hv & Hn & Hva & Ha & Hadm & -> & Henc & Hm).
    rewrite (Task_admissible _ _ _ _ _ _ _ _ Hp He Hv Hn Hva Ha Hadm Henc).
    destruct task as [pl me]. simpl in *. now subst.
Qed.

(** X9.  The type error [Task] returns is about the first argument that
    does not pass: every argument before it passes the check against its
    declared type, this one does not, and the error carries its parameter
    index, its declared type and, when it is not nil, its dynamic type. *)
Theorem Task_first_failure p f (v : reflect.Value) args st e :
  heap st !! p = Some f -> err f = None -> fv f = Some v ->
  (Task p args st).2 = Err e -> isTypeError e = true ->
  exists j a dt,
    args !! j = Some a /\ declaredType (reflect.Type_ v) (S j) = Some dt /\
    admissible dt a = false /\
    admissibleFrom (reflect.Type_ v) 1 (take j args) /\
    e = match a with
        | Some w => ErrNotAssignable (S j) (reflect.Type_ w) dt
        | None => ErrNotNilable (S j) dt
        end.
Proof.
  intros Hp He Hv Hres Ht.
  destruct (reflect.NumIn (reflect.Type_ v)) as [numIn|] eqn:Hn;
    [|unfold Task in Hres; rewrite Hp, He, Hv, Hn in Hres; discriminate].
  destruct (reflect.IsVariadic (reflect.Type_ v)) as [variadic|] eqn:Hva;
    [|unfold Task in Hres; rewrite Hp, He, Hv, Hn, Hva in Hres; discriminate].
  rewrite (Task_unfold _ _ _ _ _ _ _ Hp He Hv Hn Hva) in Hres.
  destruct (bool_decide _).
  { injection Hres as <-. discriminate. }
  destruct (negb variadic && _).
  { injection Hres as <-. discriminate. }
  destruct (checkEach (reflect.Type_ v) 1 args) as [out r] eqn:Hc.
  destruct r as [[]|e'|]; simpl in Hres.
  - destruct (Encode _ _); [discriminate|]. injection Hres as <-. discriminate.
  - injection Hres as ->.
    apply (checkEach_first_error (reflect.Type_ v) 1 args e). now rewrite Hc.
  - discriminate.
Qed.


End TaskMore.

Lemma Task_first_failure_witness :
  exists j a dt,
    [None; Ref.strV "x"] !! j = Some a /\
    declaredType (reflect.FuncOf [contextType; Wire.strings; Ref.int] false [errorType]) (S j)
      = Some dt /\
    admissible (rt := Ref.rt) dt a = false /\
    ErrNotAssignable 2 Ref.string_ Ref.int
      = match a with
        | Some w => ErrNotAssignable (S j) (reflect.Type_ w) dt
        | None => ErrNotNilable (S j) dt
        end.
Proof.
  destruct (Task_first_failure (gob := Ref.gob) (rt := Ref.rt) 0 _ _
              [None; Ref.strV "x"] Wire.stSlice
              (ErrNotAssignable 2 Ref.string_ Ref.int)
              eq_refl eq_refl eq_refl eq_refl eq_refl)
    as (j & a & dt & Hj & Hdt & Ha & _ & He).
  exists j, a, dt. repeat split; assumption.
Defined.


Lemma Task_Ok_iff_witness :
  exists f v numIn variadic,
    heap Ref.stInt !! 0 = Some f /\ err f = None /\ fv f = Some v /\
    reflect.NumIn (reflect.Type_ v) = Some numIn /\
    reflect.IsVariadic (reflect.Type_ v) = Some variadic /\
    arityOk numIn variadic 1 = true.
Proof.
  destruct (proj1 (Task_Ok_iff (gob := Ref.gob) (rt := Ref.rt) 0 [Ref.intV 5]
                     [Ref.intV 5]
                     (pb.mkSendTask (mkInvocation "main.go:k" [Ref.intV 5]) None)
                     Ref.stInt) eq_refl)
    as (f & v & n & va & Hp & He & Hv & Hn & Hva & Ha & _).
  exists f, v, n, va. repeat split; assumption.
Defined.

(** ** [Function.Call]: from the producer to the handler *)

Section CallMore.

Context {gob : Gob} {rt : Runtime}.
Variable client_SendTasks : pb.SendTasksRequest bytes -> bool.

(** [Call] sends at most one request.  It sends none exactly when
    [Task] does not build a task, and then returns what [Task] returned;
    otherwise the one request names the project and the queue of the
    [QueueSpec] and carries the one task [Task] built, and [Call] fails
    with the cannot send tasks error exactly when the client refuses that
    request.  The caller's slice is left as [Task] leaves it. *)
Lemma Call_sends p queue args st :
  (Call client_SendTasks p queue args st).1.1 = (Task p args st).1 /\
  ((Call client_SendTasks p queue args st).1.2 = [] <->
   forall task, (Task p args st).2 <> Ok task) /\
  (forall e, (Task p args st).2 = Err e ->
     Call client_SendTasks p queue args st = ((Task p args st).1, [], Err e)) /\
  (forall task, (Task p args st).2 = Ok task ->
     let req := pb.mkSendTasksRequest (project (conn queue)) (name queue) [task] in
     (Call client_SendTasks p queue args st).1.2 = [req] /\
     ((Call client_SendTasks p queue args st).2 = Ok () <->
      client_SendTasks req = true) /\
     ((Call client_SendTasks p queue args st).2 = Err ErrCannotSendTasks <->
      client_SendTasks req = false)).
Proof.
  unfold Call, SendTasks.
  destruct (Task p args st) as [args' [task|e|]]; simpl.
  - split; [done|]. split.
    + split; [discriminate|]. intros H. now elim (H task).
    + split; [discriminate|]. intros t [= <-].
      destruct (client_SendTasks _); simpl; repeat split; try done.
  - split; [done|]. split; [split; [discriminate|done]|].
    split; [now intros e' [= <-]|discriminate].
  - split; [done|]. split; [split; [discriminate|done]|].
    split; discriminate.
Qed.

(** X11.  From [Call] to the handler.  In a state of the process, when
    [Call] succeeds, one request went to the queue with one task, and the
    dispatch of any queue task that carries the payload of that task
    either gets the cannot decode error from gob and calls no handler, or
    calls the function [Call] was made on, once, with the derived context
    and one value for each argument. *)
Theorem Call_then_handleTask p queue args args' sent st :
  reachable st ->
  Call client_SendTasks p queue args st = (args', sent, Ok ()) ->
  exists task f fv0,
    sent = [pb.mkSendTasksRequest (project (conn queue)) (name queue) [task]] /\
    heap st !! p = Some f /\ fv f = Some fv0 /\
    forall ctx (t : pb.Task bytes),
      pb.Payload t = pb.SendTask_Payload task ->
      (Decode (gobTypes st) (pb.Payload t) = None /\
       handleTask ctx t st = ([], Err ErrCannotDecode)) \/
      exists ins,
        (handleTask ctx t st).1
          = [mkCallEvent fv0 (context.WithTimeout ctx dispatchTimeout :: ins)] /\
        length ins = length args.
Proof.
  intros Hr HC. unfold Call, SendTasks in HC.
  destruct (Task p args st) as [a1 [task|e|]] eqn:HT; [|discriminate..].
  destruct (client_SendTasks _) eqn:Hsend; [|discriminate].
  injection HC as <- <-.
  destruct (Task_Ok_inv _ _ _ _ _ HT)
    as (f & v & numIn & variadic & Hp & He & Hv & Hn & Hva & Ha & Hadm & -> & Henc & _).
  pose proof (wf_live _ (reachable_wf _ Hr) _ _ Hp He) as Hk.
  exists task, f, v. split; [done|]. split; [done|]. split; [done|].
  intros ctx t Hpay. rewrite <- Hpay in Henc.
  destruct (Decode (gobTypes st) (pb.Payload t)) as [inv'|] eqn:Hd.
  2:{ left. split; [done|]. now rewrite handleTask_cases, Hd. }
  right.
  destruct (Decode_Encode _ _ _ _ Henc Hd) as [Hkey Hargs]. simpl in Hkey, Hargs.
  rewrite <- Hkey in Hk.
  pose proof (Forall2_length _ _ _ Hargs) as Hlen'. rewrite length_map in Hlen'.
  destruct (handleTask_calls ctx t st _ p f v Hd Hk Hp Hv) as (ins & Hins & Hh).
  { intros j Hj.
    destruct (args !! j) as [a|] eqn:Haj.
    - destruct (Hadm j a Haj) as (dt & Hdt & _). simpl in Hdt. eauto.
    - apply lookup_lt_Some in Hj. apply lookup_ge_None in Haj. lia. }
  destruct (inFrom_lookup _ _ _ _ Hins) as [Hlen _].
  exists ins. rewrite Hh. split; [done|]. lia.
Qed.

End CallMore.

Lemma Call_then_handleTask_witness :
  exists task f fv0,
    [pb.mkSendTasksRequest "proj" "q"
       [pb.mkSendTask (mkInvocation "main.go:k" [Ref.intV 5]) None]]
    = [pb.mkSendTasksRequest (project (conn Ref.queue)) (name Ref.queue) [task]] /\
    heap Ref.stInt !! 0 = Some f /\ fv f = Some fv0.
Proof.
  destruct (Call_then_handleTask (gob := Ref.gob) (rt := Ref.rt) (fun _ => true)
              0 Ref.queue [Ref.intV 5] [Ref.intV 5] _ Ref.stInt
              reachable_stInt eq_refl)
    as (task & f & fv0 & Hsent & Hp & Hv & _).
  exists task, f, fv0. repeat split; assumption.
Defined.

(** ** [handleTask]: errors and panics *)

Section DispatchMore.

Context {gob : Gob} {rt : Runtime}.

(** X12.  What [handleTask] can return.  It calls a handler at most
    once.  It returns the cannot decode error exactly when gob does not
    decode the payload, and the no func with key error, with the decoded
    key, exactly when gob decodes an invocation whose key the registry
    does not hold; in both cases no handler is called.  Its only other
    error is the handler failed one, returned after the one call, with
    the value the handler returned at the index of its last declared
    result, which is not nil. *)
Theorem handleTask_errors ctx (t : pb.Task bytes) st :
  length (handleTask ctx t st).1 <= 1 /\
  ((handleTask ctx t st).2 = Err ErrCannotDecode <->
   Decode (gobTypes st) (pb.Payload t) = None) /\
  (forall k, (handleTask ctx t st).2 = Err (ErrNoFunc k) <->
     exists inv, Decode (gobTypes st) (pb.Payload t) = Some inv /\
                 Key inv = k /\ funcs st !! k = None) /\
  (forall e, (handleTask ctx t st).2 = Err e ->
     match e with
     | ErrCannotDecode | ErrNoFunc _ => (handleTask ctx t st).1 = []
     | ErrHandlerFailed errv =>
         exists ev out n, (handleTask ctx t st).1 = [ev] /\
           Value_Call (callee ev) (call_in ev) = Some out /\
           reflect.NumOut (reflect.Type_ (callee ev)) = Some n /\
           out !! (n - 1) = Some errv /\ reflect.IsNil errv = false
     | _ => False
     end).
Proof.
  rewrite handleTask_cases.
  destruct (Decode _ _) as [inv|] eqn:Hd; simpl.
  2:{ split; [lia|]. split; [done|]. split.
      - intros k. split; [discriminate|]. intros (? & ? & _). discriminate.
      - intros e [= <-]. done. }
  destruct (funcs st !! Key inv) as [p|] eqn:Hk; simpl.
  2:{ split; [lia|]. split; [split; discriminate|]. split.
      - intros k. split.
        + intros [= <-]. eauto.
        + intros (inv' & [= <-] & <- & _). done.
      - intros e [= <-]. done. }
  assert (Hno : forall k, ~ exists inv0, Some inv = Some inv0 /\
                                         Key inv0 = k /\ funcs st !! k = None).
  { intros k (inv0 & [= <-] & <- & Hnone). congruence. }
  assert (Hother : forall (evs : list CallEvent) (r : result unit),
            length evs <= 1 ->
            (forall e, r = Err e ->
               match e with
               | ErrCannotDecode | ErrNoFunc _ => evs = []
               | ErrHandlerFailed errv =>
                   exists ev out n, evs = [ev] /\
                     Value_Call (callee ev) (call_in ev) = Some out /\
                     reflect.NumOut (reflect.Type_ (callee ev)) = Some n /\
                     out !! (n - 1) = Some errv /\ reflect.IsNil errv = false
               | _ => False
               end) ->
            (forall k, r <> Err (ErrNoFunc k)) -> r <> Err ErrCannotDecode ->
            length evs <= 1 /\
            (r = Err ErrCannotDecode <-> Some inv = None) /\
            (forall k, r = Err (ErrNoFunc k) <->
               exists inv0, Some inv = Some inv0 /\ Key inv0 = k /\
                            funcs st !! k = None) /\
            (forall e, r = Err e ->
               match e with
               | ErrCannotDecode | ErrNoFunc _ => evs = []
               | ErrHandlerFailed errv =>
                   exists ev out n, evs = [ev] /\
                     Value_Call (callee ev) (call_in ev) = Some out /\
                     reflect.NumOut (reflect.Type_ (callee ev)) = Some n /\
                     out !! (n - 1) = Some errv /\ reflect.IsNil errv = false
               | _ => False
               end)).
  { intros evs r Hlen He Hk' Hd'. split; [done|]. split; [split; done|].
    split; [|done]. intros k. split; [intros H; now elim (Hk' k)|].
    intros H. now elim (Hno k). }
  destruct (heap st !! p ≫= fv) as [fv0|]; simpl;
    [|apply (Hother [] Panic); simpl; [lia|discriminate..]].
  destruct (inFrom _ 1 (Args inv)) as [ins|]; simpl;
    [|apply (Hother [] Panic); simpl; [lia|discriminate..]].
  set (ev := mkCallEvent fv0 (context.WithTimeout ctx dispatchTimeout :: ins)).
  destruct (Value_Call _ _) as [out|] eqn:Hcall;
    [|apply (Hother [ev] Panic); simpl; [lia|discriminate..]].
  unfold handlerOutcome.
  destruct (reflect.NumOut _) as [n|] eqn:Hn;
    [|apply (Hother [ev] Panic); simpl; [lia|discriminate..]].
  destruct (bool_decide (0 < n) && _);
    [|apply (Hother [ev] (Ok ())); simpl; [lia|discriminate..]].
  destruct (out !! (n - 1)) as [errv|] eqn:Hout;
    [|apply (Hother [ev] Panic); simpl; [lia|discriminate..]].
  destruct (reflect.IsNil errv) eqn:Hnil; simpl;
    [apply (Hother [ev] (Ok ())); simpl; [lia|discriminate..]|].
  apply (Hother [ev] (Err (ErrHandlerFailed errv))); simpl; [lia| |discriminate..].
  intros e [= <-]. exists ev, out, n. done.
Qed.

(** X13.  [handleTask] does not check the number of arguments of the
    invocation it decodes against the signature.  For a function found
    in the registry: when no argument is nil it calls the function with
    the derived context and the arguments as they are, however many
    there are; and when the function is not variadic and a nil argument
    stands beyond its last declared parameter, it panics before any
    call. *)
Theorem handleTask_trusts_payload ctx (t : pb.Task bytes) st inv p f fv0 :
  Decode (gobTypes st) (pb.Payload t) = Some inv ->
  funcs st !! Key inv = Some p ->
  heap st !! p = Some f -> fv f = Some fv0 ->
  (forall vs, Args inv = map Some vs ->
     (handleTask ctx t st).1
       = [mkCallEvent fv0 (context.WithTimeout ctx dispatchTimeout :: vs)]) /\
  (forall numIn j,
     reflect.NumIn (reflect.Type_ fv0) = Some numIn ->
     reflect.IsVariadic (reflect.Type_ fv0) = Some false ->
     Args inv !! j = Some None -> numIn <= S j ->
     handleTask ctx t st = ([], Panic)).
Proof.
  intros Hd Hk Hp Hv. rewrite handleTask_cases, Hd, Hk, Hp. simpl. rewrite Hv.
  split.
  - intros vs Hvs. rewrite Hvs.
    assert (Hin : forall n, inFrom (reflect.Type_ fv0) n (map Some vs) = Some vs).
    { clear. induction vs as [|w vs IH]; intros n; simpl; [done|].
      now rewrite IH. }
    now rewrite Hin.
  - intros numIn j Hn Hva Hj Hge.
    assert (Hnone : forall args n j,
              args !! j = Some None ->
              declaredType (reflect.Type_ fv0) (n + j) = None ->
              inFrom (reflect.Type_ fv0) n args = None).
    { clear. induction args as [|a args IH]; intros n j Hj Hdt.
      - now rewrite lookup_nil in Hj.
      - destruct j as [|j]; simpl in Hj.
        + injection Hj as ->. rewrite Nat.add_0_r in Hdt. simpl. now rewrite Hdt.
        + simpl. destruct (argValue _ n a); simpl; [|done].
          rewrite (IH (S n) j Hj); [done|].
          now replace (S n + j) with (n + S j) by lia. }
    rewrite (Hnone (Args inv) 1 j Hj); [done|].
    unfold declaredType. rewrite Hn, Hva. apply (In_ge _ _ _ Hn). lia.
Qed.

End DispatchMore.

Lemma handleTask_trusts_payload_witness :
  (handleTask (gob := Ref.gob) (rt := Ref.rt) Ref.background
     (Ref.deliver "t1"
        (pb.mkSendTask (mkInvocation "main.go:k" [Ref.intV 5; Ref.intV 6]) None))
     Ref.stInt).1
  = [mkCallEvent
       (reflect.mkValue (reflect.FuncOf [contextType; Ref.int] false [errorType])
          (reflect.DRef 1))
       [context.WithTimeout Ref.background dispatchTimeout;
        reflect.mkValue Ref.int (reflect.DNum 5);
        reflect.mkValue Ref.int (reflect.DNum 6)]] /\
  handleTask (gob := Ref.gob) (rt := Ref.rt) Ref.background
    (Ref.deliver "t1"
       (pb.mkSendTask (mkInvocation "main.go:k" [Ref.intV 5; None]) None))
    Ref.stInt
  = ([], Panic).
Proof.
  split.
  - exact (proj1 (handleTask_trusts_payload (gob := Ref.gob) (rt := Ref.rt)
                    Ref.background
                    (Ref.deliver "t1"
                       (pb.mkSendTask
                          (mkInvocation "main.go:k" [Ref.intV 5; Ref.intV 6]) None))
                    Ref.stInt _ 0 _ _ eq_refl eq_refl eq_refl eq_refl)
             [reflect.mkValue Ref.int (reflect.DNum 5);
              reflect.mkValue Ref.int (reflect.DNum 6)] eq_refl).
  - exact (proj2 (handleTask_trusts_payload (gob := Ref.gob) (rt := Ref.rt)
                    Ref.background
                    (Ref.deliver "t1"
                       (pb.mkSendTask
                          (mkInvocation "main.go:k" [Ref.intV 5; None]) None))
                    Ref.stInt _ 0 _ _ eq_refl eq_refl eq_refl eq_refl)
             2 1 eq_refl eq_refl eq_refl (le_n 2)).
Defined.

(** ** The streaming branch: the group error, the end of receiving, sentry *)

Section StreamingMore.

Context {gob : Gob} {rt : Runtime}.
Variable lis : Listener.
Variable queue : QueueSpec.
Variable st : State.
Variable ctx : reflect.Value.
Variable stream_Send : pb.ListenRequest -> bool.

Lemma first_error_cases old e :
  (forall x, old = Some x -> first_error old e = Some x) /\
  (forall x, first_error old e = Some x -> old = Some x \/ x = e).
Proof.
  destruct old as [y|]; simpl; split; intros x Hx; auto; try discriminate.
  injection Hx as <-. auto.
Qed.

Lemma step_failure s s' :
  step lis st ctx stream_Send s s' ->
  (forall e, failure s = Some e -> failure s' = Some e) /\
  (forall e, failure s' = Some e ->
     failure s = Some e \/ e = ErrCannotReceive \/ e = ErrCannotAck).
Proof.
  intros [task rest s0 _ _ _ | rest s0 _ _ _ | before task after s0 _ _]; simpl.
  - auto.
  - destruct (first_error_cases (failure s0) ErrCannotReceive) as [H1 H2].
    split; [exact H1|]. intros x Hx. destruct (H2 x Hx); auto.
  - destruct (first_error_cases (failure s0) ErrCannotAck) as [H1 H2].
    unfold runTask.
    destruct (handleTask ctx task st) as [evs [[]|e0|]]; simpl; auto;
      destruct (stream_Send _); auto;
      (split; [exact H1|]; intros x Hx; destruct (H2 x Hx); auto).
Qed.

(** X14.  The error of the group.  In the streaming branch the error the
    group ends with is the cannot receive error or the cannot ack error,
    never the error of a dispatch: a handler that fails does not end the
    connection.  Once the group has an error it keeps it, whatever the
    goroutines do next. *)
Theorem streaming_group_error script s s' e :
  steps lis st ctx stream_Send (listening queue script) s ->
  steps lis st ctx stream_Send s s' ->
  failure s = Some e ->
  (e = ErrCannotReceive \/ e = ErrCannotAck) /\ failure s' = Some e.
Proof.
  intros H0 H1 He. split.
  - clear H1 s'. revert e He.
    remember (listening queue script) as s0 eqn:Hs0.
    induction H0 as [|s1 s2 s3 H12 IH H23]; intros e He.
    + subst. discriminate.
    + destruct (proj2 (step_failure _ _ H23) e He) as [H|H]; auto.
  - induction H1 as [|s1 s2 s3 H12 IH H23]; [done|].
    apply (proj1 (step_failure _ _ H23)). auto.
Qed.

(** X15.  After the receiving loop has returned nothing more is received:
    the inbox stays as it is and the loop does not start again; the only
    steps left are the goroutines of the tasks already received, so the
    running tasks can only leave. *)
Theorem streaming_receive_stops s s' :
  steps lis st ctx stream_Send s s' ->
  receiving s = false ->
  receiving s' = false /\ inbox s' = inbox s /\ running s' `sublist_of` running s.
Proof.
  intros H Hr. induction H as [|s1 s2 s3 H12 IH H23]; [done|].
  destruct (IH Hr) as (Hr2 & Hin & Hsub).
  destruct H23 as [task rest s0 _ Hrecv _ | rest s0 _ Hrecv _ | before task after s0 _ Hrun].
  - congruence.
  - congruence.
  - assert (Hrun' : running (runTask lis st ctx stream_Send task
                      (mkStream (inbox s0) (receiving s0) (before ++ after)
                         (sent s0) (calls s0) (reported s0) (failure s0) false))
                    = before ++ after).
    { unfold runTask.
      now destruct (handleTask ctx task st) as [evs [[]|e0|]]. }
    assert (Hrest : receiving (runTask lis st ctx stream_Send task
                      (mkStream (inbox s0) (receiving s0) (before ++ after)
                         (sent s0) (calls s0) (reported s0) (failure s0) false))
                    = receiving s0 /\
                    inbox (runTask lis st ctx stream_Send task
                      (mkStream (inbox s0) (receiving s0) (before ++ after)
                         (sent s0) (calls s0) (reported s0) (failure s0) false))
                    = inbox s0).
    { unfold runTask.
      now destruct (handleTask ctx task st) as [evs [[]|e0|]]. }
    destruct Hrest as [-> ->]. rewrite Hrun'.
    split; [done|]. split; [done|].
    etrans; [|exact Hsub]. rewrite Hrun.
    apply sublist_app; [done|]. now apply sublist_cons.
Qed.

End StreamingMore.

Section Sentry.

Context {gob : Gob} {rt : Runtime}.
Variable sentryDSN : string.
Variable queue : QueueSpec.
Variable st : State.
Variable ctx : reflect.Value.
Variable stream_Send : pb.ListenRequest -> bool.


End Sentry.

Lemma streaming_group_error_witness :
  exists s,
    steps (gob := Ref.gob) (rt := Ref.rt) Ref.lis Ref.stInt Ref.background Ref.sendAll
      (listening (gob := Ref.gob) Ref.queue [None; Some Ref.taskInt]) s /\
    (ErrCannotReceive = ErrCannotReceive \/ ErrCannotReceive = ErrCannotAck) /\
    failure s = Some ErrCannotReceive.
Proof.
  eexists. split.
  - eapply steps_step; [apply steps_refl|].
    eapply step_recv_error; reflexivity.
  - match goal with
    | |- _ /\ failure ?s = _ =>
        apply (streaming_group_error (gob := Ref.gob) (rt := Ref.rt)
                 Ref.lis Ref.queue Ref.stInt Ref.background Ref.sendAll
                 [None; Some Ref.taskInt] s s)
    end.
    + eapply steps_step; [apply steps_refl|].
      eapply step_recv_error; reflexivity.
    + apply steps_refl.
    + reflexivity.
Defined.

Lemma streaming_receive_stops_witness :
  exists s' : Stream (gob := Ref.gob),
    receiving s' = false /\
    inbox s' = [Some Ref.taskUnknown] /\
    running s' `sublist_of` [Ref.taskInt].
Proof.
  eexists.
  apply (streaming_receive_stops (gob := Ref.gob) (rt := Ref.rt)
           Ref.lis Ref.stInt Ref.background Ref.sendAll
           (mkStream (gob := Ref.gob) [Some Ref.taskUnknown] false [Ref.taskInt]
              [initial Ref.queue] [] [] (Some ErrCannotReceive) false)).
  - eapply steps_step; [apply steps_refl|].
    eapply (step_task (gob := Ref.gob) (rt := Ref.rt) _ _ _ _ [] Ref.taskInt []);
      reflexivity.
  - reflexivity.
Defined.


(** ** The publish/subscribe branch *)

Lemma wrap64_small z : (- 2 ^ 63 <= z < 2 ^ 63)%Z -> wrap64 z = z.
Proof.
  intros H. unfold wrap64. rewrite Z.mod_small; lia.
Qed.

Lemma wrap64_add_l a b : wrap64 (wrap64 a + b) = wrap64 (a + b).
Proof.
  unfold wrap64. f_equal.
  replace ((a + 2 ^ 63) mod 2 ^ 64 - 2 ^ 63 + b + 2 ^ 63)%Z
    with ((a + 2 ^ 63) mod 2 ^ 64 + b)%Z by lia.
  rewrite Zplus_mod_idemp_l. f_equal. lia.
Qed.

Lemma counterAfter_S n c : counterAfter (S n) c = counterAfter n (wrap64 (c + 1)).
Proof.
  unfold counterAfter. now rewrite Nat.iter_succ_r.
Qed.

Lemma counterAfter_0 n : counterAfter n 0 = wrap64 (Z.of_nat n).
Proof.
  induction n as [|n IH]; [done|].
  unfold counterAfter in *. simpl. rewrite IH, wrap64_add_l.
  f_equal. lia.
Qed.

Section SubscribeMore.

Context {gob : Gob} {rt : Runtime}.
Variable queue : QueueSpec.
Variable st : State.
Variable ctx : reflect.Value.
Variable now : Z -> option Z.

Lemma callsOf_app l1 l2 :
  callsOf st ctx (l1 ++ l2) = callsOf st ctx l1 ++ callsOf st ctx l2.
Proof.
  unfold callsOf. now rewrite map_app, concat_app.
Qed.

Lemma failedOf_app l1 l2 :
  failedOf st ctx (l1 ++ l2) = failedOf st ctx l1 ++ failedOf st ctx l2.
Proof.
  unfold failedOf. apply omap_app.
Qed.

Lemma builtFrom_length c fs : length (builtFrom queue now c fs) = length fs.
Proof.
  revert c. induction fs as [|f fs IH]; intros c; simpl; [done|]. now rewrite IH.
Qed.

Lemma builtFrom_app c l1 l2 :
  builtFrom queue now c (l1 ++ l2)
  = builtFrom queue now c l1
      ++ builtFrom queue now (counterAfter (length l1) c) l2.
Proof.
  revert c. induction l1 as [|f l1 IH]; intros c; [done|].
  simpl length. rewrite counterAfter_S. simpl. now rewrite IH.
Qed.

Lemma builtFrom_Payload c fs :
  map pb.Payload (builtFrom queue now c fs) = map pb.SendTask_Payload fs /\
  map pb.MinEta (builtFrom queue now c fs) = map pb.SendTask_MinEta fs.
Proof.
  revert c. induction fs as [|f fs IH]; intros c; simpl; [done|].
  destruct (IH (wrap64 (c + 1))) as [-> ->]. done.
Qed.

Lemma builtFrom_fields c fs :
  Forall (fun t => pb.Retry t = 0%Z /\ pb.Project t = project (conn queue) /\
                   pb.QueueName t = "")
    (builtFrom queue now c fs).
Proof.
  revert c. induction fs as [|f fs IH]; intros c; simpl; constructor; auto.
Qed.

Lemma builtFrom_Code c fs :
  map pb.Code (builtFrom queue now c fs)
  = map (fun n => "sim-" +:+ pretty (counterAfter n c)) (seq 1 (length fs)).
Proof.
  revert c. induction fs as [|f fs IH]; intros c; [done|].
  change (pb.Code (simTask queue now (wrap64 (c + 1)) f)
            :: map pb.Code (builtFrom queue now (wrap64 (c + 1)) fs)
          = ("sim-" +:+ pretty (counterAfter 1 c))
            :: map (fun n => "sim-" +:+ pretty (counterAfter n c))
                 (seq 2 (length fs))).
  f_equal. rewrite IH, <- (seq_shift _ 1), map_map.
  apply map_ext. intros n. now rewrite counterAfter_S.
Qed.

Lemma dispatchFrame_core f s s' b :
  dispatchFrame queue st ctx now f s = (s', b) ->
  counter s' = wrap64 (counter s + 1) /\
  built s' = built s ++ [simTask queue now (wrap64 (counter s + 1)) f] /\
  sub_calls s'
    = sub_calls s ++ callsOf st ctx [simTask queue now (wrap64 (counter s + 1)) f] /\
  sub_failed s'
    = sub_failed s ++ failedOf st ctx [simTask queue now (wrap64 (counter s + 1)) f] /\
  (if b then returned st ctx (simTask queue now (wrap64 (counter s + 1)) f)
   else (handleTask ctx (simTask queue now (wrap64 (counter s + 1)) f) st).2 = Panic).
Proof.
  unfold dispatchFrame, failedOf, callsOf, returned. simpl.
  destruct (handleTask ctx (simTask queue now (wrap64 (counter s + 1)) f) st)
    as [evs [[]|e|]]; intros [= <- <-]; simpl; rewrite ?app_nil_r;
    repeat split; done.
Qed.

Lemma readMessage_core fs e : forall s s' r,
  readMessage queue st ctx now fs e s = (s', r) ->
  exists tasks,
    built s' = built s ++ tasks /\
    counter s' = counterAfter (length tasks) (counter s) /\
    tasks `prefix_of` builtFrom queue now (counter s) fs /\
    sub_calls s' = sub_calls s ++ callsOf st ctx tasks /\
    sub_failed s' = sub_failed s ++ failedOf st ctx tasks /\
    match r with
    | SubPanic =>
        exists pre t, tasks = pre ++ [t] /\ Forall (returned st ctx) pre /\
                      (handleTask ctx t st).2 = Panic
    | _ =>
        tasks = builtFrom queue now (counter s) fs /\
        Forall (returned st ctx) tasks /\
        r = match e with AtEOF => SubClosed | DecodeFails => SubCannotDecode end
    end.
Proof.
  induction fs as [|f fs IH]; intros s s' r; simpl.
  - intros H. exists []. rewrite !app_nil_r.
    assert (Hs : s' = s) by (destruct e; congruence). subst s'.
    repeat (split; [done|]).
    destruct e; injection H as <-; repeat split; constructor.
  - destruct (dispatchFrame queue st ctx now f s) as [s1 b] eqn:Hd.
    destruct (dispatchFrame_core _ _ _ _ Hd) as (Hc & Hb & Hcalls & Hfail & Hret).
    destruct b; simpl in Hret.
    + intros H. destruct (IH _ _ _ H) as (tasks & Hb' & Hc' & Hpre & Hcalls' & Hfail' & Hr).
      exists (simTask queue now (wrap64 (counter s + 1)) f :: tasks).
      rewrite Hc in *.
      split; [rewrite Hb', Hb, <- app_assoc; done|].
      split; [simpl length; rewrite counterAfter_S; done|].
      split; [now apply prefix_cons|].
      split; [rewrite Hcalls', Hcalls, <- app_assoc;
              now rewrite <- callsOf_app|].
      split; [rewrite Hfail', Hfail, <- app_assoc;
              now rewrite <- failedOf_app|].
      destruct r.
      * destruct Hr as (-> & Hall & He'). repeat split; try done; constructor; done.
      * destruct Hr as (-> & Hall & He'). repeat split; try done; constructor; done.
      * destruct Hr as (pre & t & -> & Hall & Hp).
        exists (simTask queue now (wrap64 (counter s + 1)) f :: pre), t.
        repeat split; try done; constructor; done.
    + intros [= <- <-].
      exists [simTask queue now (wrap64 (counter s + 1)) f].
      repeat (split; [done|]).
      split; [apply prefix_cons, prefix_nil|].
      repeat (split; [done|]).
      exists [], (simTask queue now (wrap64 (counter s + 1)) f).
      repeat split; try done; constructor; done.
Qed.

Lemma readChannel_core msgs : forall s s' r,
  readChannel queue st ctx now msgs s = (s', r) ->
  exists tasks,
    built s' = built s ++ tasks /\
    counter s' = counterAfter (length tasks) (counter s) /\
    tasks `prefix_of` builtFrom queue now (counter s) (inReach msgs) /\
    sub_calls s' = sub_calls s ++ callsOf st ctx tasks /\
    sub_failed s' = sub_failed s ++ failedOf st ctx tasks /\
    match r with
    | SubPanic =>
        exists pre t, tasks = pre ++ [t] /\ Forall (returned st ctx) pre /\
                      (handleTask ctx t st).2 = Panic
    | _ =>
        tasks = builtFrom queue now (counter s) (inReach msgs) /\
        Forall (returned st ctx) tasks /\
        r = if someDecodeFails msgs then SubCannotDecode else SubClosed
    end.
Proof.
  induction msgs as [|m msgs IH]; intros s s' r; simpl.
  - intros [= <- <-]. exists []. rewrite !app_nil_r.
    repeat split; try done; constructor.
  - destruct (readMessage queue st ctx now (frames m) (msg_end m) s)
      as [s1 r1] eqn:Hm.
    destruct (readMessage_core _ _ _ _ _ Hm)
      as (tasks1 & Hb1 & Hc1 & Hpre1 & Hcalls1 & Hfail1 & Hr1).
    rewrite builtFrom_app.
    destruct r1.
    + destruct Hr1 as (Ht1 & Hall1 & He).
      destruct (msg_end m) eqn:Hend; [|discriminate].
      intros H.
      destruct (IH _ _ _ H) as (tasks2 & Hb2 & Hc2 & Hpre2 & Hcalls2 & Hfail2 & Hr2).
      assert (Hlen : length tasks1 = length (frames m)).
      { rewrite Ht1. apply builtFrom_length. }
      rewrite Hc1, Hlen in *.
      exists (tasks1 ++ tasks2).
      split; [rewrite Hb2, Hb1, <- app_assoc; done|].
      split.
      { rewrite Hc2, length_app, Hlen. unfold counterAfter.
        rewrite Nat.add_comm. now rewrite Nat.iter_add. }
      split; [rewrite Ht1; now apply prefix_app|].
      split; [rewrite Hcalls2, Hcalls1, <- app_assoc;
              now rewrite <- callsOf_app|].
      split; [rewrite Hfail2, Hfail1, <- app_assoc;
              now rewrite <- failedOf_app|].
      destruct r.
      * destruct Hr2 as (-> & Hall2 & He2). rewrite Ht1.
        repeat split; try done; apply Forall_app; rewrite <- Ht1; done.
      * destruct Hr2 as (-> & Hall2 & He2). rewrite Ht1.
        repeat split; try done; apply Forall_app; rewrite <- Ht1; done.
      * destruct Hr2 as (pre & t & -> & Hall2 & Hp).
        exists (tasks1 ++ pre), t.
        rewrite <- app_assoc. repeat split; try done.
        apply Forall_app. done.
    + destruct Hr1 as (Ht1 & Hall1 & He).
      destruct (msg_end m) eqn:Hend; [discriminate|].
      intros [= <- <-]. exists tasks1. simpl. rewrite app_nil_r.
      repeat split; done.
    + intros [= <- <-]. exists tasks1.
      split; [done|]. split; [done|].
      split; [now apply prefix_app_r|].
      split; [done|]. split; [done|]. exact Hr1.
Qed.

End SubscribeMore.

Section Subscription.

Context {gob : Gob} {rt : Runtime}.
Variable queue : QueueSpec.
Variable st : State.
Variable ctx : reflect.Value.
Variable now : Z -> option Z.

(** X17.  The tasks of the publish/subscribe branch.  The goroutine
    builds one task for each [pb.SendTask] it decodes, in the order of
    the channel and of each buffer, taking the payload and the minimal
    ETA from it; every task has retry count 0, the project of the
    connection and an empty queue name.  The [pb.SendTask] it gets to are
    those of the messages up to the first buffer that ends on an error:
    unless a dispatch panics, it builds a task for every one of them, and
    for none of a later message. *)
Theorem subscribe_tasks msgs s r :
  readChannel queue st ctx now msgs subscribed = (s, r) ->
  map pb.Payload (built s) `prefix_of` map pb.SendTask_Payload (inReach msgs) /\
  map pb.MinEta (built s) `prefix_of` map pb.SendTask_MinEta (inReach msgs) /\
  Forall (fun t => pb.Retry t = 0%Z /\ pb.Project t = project (conn queue) /\
                   pb.QueueName t = "") (built s) /\
  (r <> SubPanic ->
   map pb.Payload (built s) = map pb.SendTask_Payload (inReach msgs) /\
   map pb.MinEta (built s) = map pb.SendTask_MinEta (inReach msgs)).
Proof.
  intros H.
  destruct (readChannel_core _ _ _ _ _ _ _ _ H)
    as (tasks & Hb & _ & [k Hk] & _ & _ & Hr).
  simpl in Hb, Hk, Hr. rewrite Hb. clear Hb.
  destruct (builtFrom_Payload queue now 0 (inReach msgs)) as [Hp Hm].
  pose proof (builtFrom_fields queue now 0 (inReach msgs)) as Hf.
  rewrite Hk in Hp, Hm, Hf. rewrite map_app in Hp, Hm.
  split; [exists (map pb.Payload k); done|].
  split; [exists (map pb.MinEta k); done|].
  split; [apply Forall_app in Hf; tauto|].
  intros Hnp.
  assert (Hall : tasks = builtFrom queue now 0 (inReach msgs)).
  { destruct r; [tauto|tauto|done]. }
  assert (Hnil : k = []).
  { rewrite Hk in Hall. symmetry in Hall.
    rewrite <- (app_nil_r tasks) in Hall at 2.
    now apply app_inv_head in Hall. }
  subst k. rewrite !app_nil_r in *. done.
Qed.

(** X18.  The codes of the tasks.  As long as fewer than 2^63 tasks were
    built, the n-th task built since the goroutine started has the code
    sim-n, counting from 1 across all the messages; so no two tasks of a
    subscription share a code. *)
Theorem subscribe_codes msgs s r :
  readChannel queue st ctx now msgs subscribed = (s, r) ->
  (Z.of_nat (length (built s)) < 2 ^ 63)%Z ->
  map pb.Code (built s)
  = map (fun n => "sim-" +:+ pretty (Z.of_nat n)) (seq 1 (length (built s))) /\
  NoDup (map pb.Code (built s)).
Proof.
  intros H Hlt.
  destruct (readChannel_core _ _ _ _ _ _ _ _ H)
    as (tasks & Hb & _ & [k Hk] & _ & _ & _).
  simpl in Hb, Hk. rewrite Hb in *. clear Hb.
  assert (Hc : map pb.Code tasks
               = map (fun n => "sim-" +:+ pretty (Z.of_nat n))
                   (seq 1 (length tasks))).
  { pose proof (builtFrom_Code queue now 0 (inReach msgs)) as Hc.
    assert (Hlen : length (inReach msgs) = length tasks + length k).
    { now rewrite <- (builtFrom_length queue now 0), Hk, length_app. }
    rewrite Hk, Hlen, seq_app, !map_app in Hc.
    apply app_inj_1 in Hc; [|now rewrite !length_map, length_seq].
    destruct Hc as [Hc _]. rewrite Hc.
    apply map_ext_in. intros n Hn. apply in_seq in Hn.
    rewrite counterAfter_0, wrap64_small; [done|lia]. }
  split; [exact Hc|].
  rewrite Hc.
  assert (Hinj : Inj (=) (=) (fun n : nat => "sim-" +:+ pretty (Z.of_nat n))).
  { intros n m Hnm. apply append_inj_r in Hnm.
    apply (inj pretty) in Hnm. lia. }
  exact (NoDup_fmap_2 _ _ (NoDup_seq 1 (length tasks))).
Qed.

(** X19.  How the goroutine of the publish/subscribe branch ends, and
    what it leaves.  The handler calls made are those of the dispatches
    of the tasks built, and one line is logged for each dispatch that
    returned an error, with the code of its task.  An error of a dispatch
    never ends the loop: the goroutine ends in a panic exactly when the
    dispatch of a task panics; otherwise it returns the cannot decode
    incoming task error when some buffer ends on an error, and nil
    otherwise, when the channel is closed. *)
Theorem subscribe_result msgs s r :
  readChannel queue st ctx now msgs subscribed = (s, r) ->
  sub_calls s = callsOf st ctx (built s) /\
  sub_failed s = failedOf st ctx (built s) /\
  (r = SubPanic <->
   exists t, t ∈ built s /\ (handleTask ctx t st).2 = Panic) /\
  (r <> SubPanic ->
   r = if someDecodeFails msgs then SubCannotDecode else SubClosed).
Proof.
  intros H.
  destruct (readChannel_core _ _ _ _ _ _ _ _ H)
    as (tasks & Hb & _ & _ & Hcalls & Hfail & Hr).
  simpl in Hb, Hcalls, Hfail, Hr. rewrite Hb. clear Hb.
  split; [done|]. split; [done|]. split.
  - split.
    + intros ->. destruct Hr as (pre & t & -> & _ & Hp).
      exists t. split; [|done]. apply elem_of_app. right. constructor.
    + intros (t & Hin & Hp).
      destruct r; [| |done].
      * destruct Hr as (_ & Hall & _).
        rewrite Forall_forall in Hall. now destruct (Hall t Hin).
      * destruct Hr as (_ & Hall & _).
        rewrite Forall_forall in Hall. now destruct (Hall t Hin).
  - intros Hnp. destruct r; [tauto|tauto|done].
Qed.

End Subscription.

Lemma subscribe_tasks_witness :
  map pb.Payload (built RefChannel.read.1)
    `prefix_of` map pb.SendTask_Payload (inReach RefChannel.channel) /\
  map pb.MinEta (built RefChannel.read.1)
    `prefix_of` map pb.SendTask_MinEta (inReach RefChannel.channel) /\
  Forall (fun t => pb.Retry t = 0%Z /\ pb.Project t = project (conn Ref.queue) /\
                   pb.QueueName t = "") (built RefChannel.read.1) /\
  (RefChannel.read.2 <> SubPanic ->
   map pb.Payload (built RefChannel.read.1)
     = map pb.SendTask_Payload (inReach RefChannel.channel) /\
   map pb.MinEta (built RefChannel.read.1)
     = map pb.SendTask_MinEta (inReach RefChannel.channel)).
Proof.
  apply (subscribe_tasks (gob := Ref.gob) (rt := Ref.rt)
           Ref.queue Ref.stInt Ref.background RefChannel.now RefChannel.channel).
  reflexivity.
Defined.

Lemma subscribe_codes_witness :
  map pb.Code (built RefChannel.read.1)
  = map (fun n => "sim-" +:+ pretty (Z.of_nat n))
      (seq 1 (length (built RefChannel.read.1))) /\
  NoDup (map pb.Code (built RefChannel.read.1)).
Proof.
  apply (subscribe_codes (gob := Ref.gob) (rt := Ref.rt)
           Ref.queue Ref.stInt Ref.background RefChannel.now RefChannel.channel
           RefChannel.read.1 RefChannel.read.2).
  - reflexivity.
  - vm_compute. reflexivity.
Defined.

Lemma subscribe_result_witness :
  sub_calls RefChannel.read.1
    = callsOf (gob := Ref.gob) (rt := Ref.rt) Ref.stInt Ref.background
        (built RefChannel.read.1) /\
  sub_failed RefChannel.read.1
    = failedOf (gob := Ref.gob) (rt := Ref.rt) Ref.stInt Ref.background
        (built RefChannel.read.1) /\
  (RefChannel.read.2 = SubPanic <->
   exists t, t ∈ built RefChannel.read.1 /\
     (handleTask (gob := Ref.gob) (rt := Ref.rt) Ref.background t Ref.stInt).2 = Panic) /\
  (RefChannel.read.2 <> SubPanic ->
   RefChannel.read.2
   = if someDecodeFails RefChannel.channel then SubCannotDecode else SubClosed).
Proof.
  apply (subscribe_result (gob := Ref.gob) (rt := Ref.rt)
           Ref.queue Ref.stInt Ref.background RefChannel.now RefChannel.channel).
  reflexivity.
Defined.
